(** * pyer-libs: the command tree, its dispatch and its help-text reflow

    A shallow embedding of [libs/command/command.py] and
    [libs/command/__init__.py], together with models of the parts of the
    Python standard library they call ([str] methods, [textwrap.wrap],
    the [logging] registry).

    Conventions.
    - A Python [str] is a list of code points below 256, [list ascii].
      Names, attribute keys and messages, which are only compared and
      concatenated, are [string].
    - A Python [int] is [Z].
    - A call that may raise returns an [outcome]. *)

From Stdlib Require Import ZArith Ascii String List Lia Bool.
From stdpp Require Import base option list gmap strings pretty.

Local Open Scope string_scope.
Local Open Scope list_scope.

(** ** Python strings *)

Abbreviation text := (list ascii).

Definition txt (s : string) : text := list_ascii_of_string s.

Definition code (c : ascii) : N := N_of_ascii c.

Definition in_range (lo hi : N) (c : ascii) : bool :=
  (lo <=? code c)%N && (code c <=? hi)%N.

(** [str.isspace] on one code point below 256: the characters removed by
    [str.strip()]. *)
Definition isspace (c : ascii) : bool :=
  in_range 9 13 c || in_range 28 32 c || (code c =? 133)%N || (code c =? 160)%N.

Fixpoint lstrip (s : text) : text :=
  match s with
  | [] => []
  | c :: s' => if isspace c then lstrip s' else s
  end.

Definition rstrip (s : text) : text := rev (lstrip (rev s)).

(** [s.strip()] *)
Definition strip (s : text) : text := rstrip (lstrip s).

(** [s.split(sep)] for a separator of one character. *)
Fixpoint split (sep : ascii) (s : text) : list text :=
  match s with
  | [] => [[]]
  | c :: s' =>
      if Ascii.eqb c sep then [] :: split sep s'
      else match split sep s' with
           | [] => [[c]]
           | h :: t => (c :: h) :: t
           end
  end.

(** [sep.join(l)] *)
Fixpoint join (sep : text) (l : list text) : text :=
  match l with
  | [] => []
  | [s] => s
  | s :: l' => s ++ sep ++ join sep l'
  end.

Definition newline : ascii := ascii_of_N 10.
Definition nl : text := [newline].
Definition space : ascii := " "%char.
Definition hyphen : ascii := "-"%char.

(** [s.expandtabs(tabsize)]: the column restarts after a line feed or a
    carriage return. *)
Fixpoint expandtabs_from (tabsize col : nat) (s : text) : text :=
  match s with
  | [] => []
  | c :: s' =>
      if (code c =? 9)%N then
        if (0 <? tabsize)%nat then
          let incr := (tabsize - col mod tabsize)%nat in
          repeat space incr ++ expandtabs_from tabsize (col + incr) s'
        else expandtabs_from tabsize col s'
      else
        c :: expandtabs_from tabsize
               (if (code c =? 10)%N || (code c =? 13)%N then 0 else S col)%nat s'
  end.

Definition expandtabs (tabsize : nat) (s : text) : text :=
  expandtabs_from tabsize 0 s.

(** [s.rfind(c, 0, stop)] *)
Fixpoint rfind_from (c : ascii) (s : text) (stop i : nat) : option nat :=
  match s with
  | [] => None
  | x :: s' =>
      if (i <? stop)%nat then
        match rfind_from c s' stop (S i) with
        | Some j => Some j
        | None => if Ascii.eqb x c then Some i else None
        end
      else None
  end.

(** ** [textwrap.wrap] with the default options of [TextWrapper] *)

(** [_whitespace]: the characters the wrapper itself treats as blank. *)
Definition tw_whitespace (c : ascii) : bool := in_range 9 13 c || (code c =? 32)%N.

(** [\d] and [\w] of the [re] module, on code points below 256. *)
Definition re_digit (c : ascii) : bool := in_range 48 57 c.

Definition re_word (c : ascii) : bool :=
  re_digit c || in_range 65 90 c || in_range 97 122 c || (code c =? 95)%N
  || (code c =? 170)%N || in_range 178 179 c || (code c =? 181)%N
  || in_range 185 186 c || in_range 188 190 c || in_range 192 214 c
  || in_range 216 246 c || in_range 248 255 c.

(** [letter = [^\d\W]] *)
Definition re_letter (c : ascii) : bool := re_word c && negb (re_digit c).

(** [word_punct]: a [\w] character or one of the seven punctuation marks
    exclamation mark, double quote, apostrophe, ampersand, full stop,
    comma and question mark. *)
Definition re_word_punct (c : ascii) : bool :=
  re_word c || (code c =? 33)%N || (code c =? 34)%N || (code c =? 39)%N
  || (code c =? 38)%N || (code c =? 46)%N || (code c =? 44)%N || (code c =? 63)%N.

Definition is_hyphen (c : ascii) : bool := Ascii.eqb c hyphen.

(** [_munge_whitespace]: tabs expanded to columns of 8, then every
    remaining blank character replaced by a space. *)
Definition _munge_whitespace (s : text) : text :=
  map (fun c => if tw_whitespace c then space else c) (expandtabs 8 s).

Fixpoint drop_hyphens (s : text) : nat * text :=
  match s with
  | c :: s' => if is_hyphen c then let '(n, r) := drop_hyphens s' in (S n, r) else (O, s)
  | [] => (O, [])
  end.

(** The lookahead [(?=-{2,}\w)]. *)
Definition dashes_then_word (s : text) : bool :=
  let '(n, r) := drop_hyphens s in
  (2 <=? n)%nat && match r with c :: _ => re_word c | [] => false end.

(** The lookbehind [(?<=word_punct)]; [before] is the text already
    consumed, last character first. *)
Definition after_word_punct (before : text) : bool :=
  match before with c :: _ => re_word_punct c | [] => false end.

(** The hyphenation rule of [wordsep_re], seen from just before a
    hyphen: [-(?:(?<=lt{2}-)|(?<=lt-lt-))(?=lt-?lt)]. *)
Definition hyphen_break (before rest : text) : bool :=
  match rest with
  | h :: after =>
      is_hyphen h
      && match before with
         | l1 :: l2 :: more =>
             re_letter l1
             && (re_letter l2
                 || (is_hyphen l2
                     && match more with l3 :: _ => re_letter l3 | [] => false end))
         | _ => false
         end
      && match after with
         | a :: b :: more =>
             re_letter a
             && (re_letter b
                 || (is_hyphen b
                     && match more with c :: _ => re_letter c | [] => false end))
         | _ => false
         end
  | [] => false
  end.

Inductive chunk_kind := KStart | KSpace | KDash | KWord | KHyphen.

(** Which alternative of [wordsep_re] matches at the start of a chunk. *)
Definition start_kind (before rest : text) : chunk_kind :=
  match rest with
  | c :: _ =>
      if tw_whitespace c then KSpace
      else if after_word_punct before && dashes_then_word rest then KDash
      else KWord
  | [] => KWord
  end.

(** After one more character of a chunk of kind [k] has been consumed:
    [None] when the chunk ends here, otherwise the kind to continue in.
    [KHyphen] consumes the hyphen that closes a hyphenated piece. *)
Definition after_char (k : chunk_kind) (before rest : text) : option chunk_kind :=
  match k with
  | KSpace =>
      match rest with
      | c :: _ => if tw_whitespace c then Some KSpace else None
      | [] => None
      end
  | KDash =>
      match rest with
      | c :: _ => if is_hyphen c then Some KDash else None
      | [] => None
      end
  | KHyphen => None
  | _ =>
      if hyphen_break before rest then Some KHyphen
      else match rest with
           | [] => None
           | c :: _ =>
               if tw_whitespace c then None
               else if after_word_punct before && dashes_then_word rest then None
               else Some KWord
           end
  end.

Fixpoint split_from (before cur : text) (k : chunk_kind) (rest : text) : list text :=
  match rest with
  | [] => match cur with [] => [] | _ => [rev cur] end
  | c :: rest' =>
      let k := match k with KStart => start_kind before rest | _ => k end in
      match after_char k (c :: before) rest' with
      | None => rev (c :: cur) :: split_from (c :: before) [] KStart rest'
      | Some k' => split_from (c :: before) (c :: cur) k' rest'
      end
  end.

(** [_split] with [break_on_hyphens]: the chunks matched by [wordsep_re]. *)
Definition _split (s : text) : list text := split_from [] [] KStart s.

Definition blank (s : text) : bool :=
  match strip s with [] => true | _ => false end.

(** The inner loop of [_wrap_chunks]: chunks are taken while they fit. *)
Fixpoint fill_line (width : nat) (cur_line : list text) (cur_len : nat)
    (chunks : list text) : list text * nat * list text :=
  match chunks with
  | [] => (cur_line, cur_len, [])
  | c :: rest =>
      if (cur_len + length c <=? width)%nat
      then fill_line width (cur_line ++ [c]) (cur_len + length c)%nat rest
      else (cur_line, cur_len, chunks)
  end.

(** [_handle_long_word] with [break_long_words] and [break_on_hyphens]:
    the piece put on the current line and what is left of the chunk. *)
Definition _handle_long_word (chunk : text) (cur_len width : nat) : text * text :=
  let space_left := if (width <? 1)%nat then 1%nat else (width - cur_len)%nat in
  let stop :=
    if (space_left <? length chunk)%nat then
      match rfind_from hyphen chunk space_left 0 with
      | Some h =>
          if (0 <? h)%nat && existsb (fun c => negb (is_hyphen c)) (take h chunk)
          then S h else space_left
      | None => space_left
      end
    else space_left in
  (take stop chunk, drop stop chunk).

Definition drop_last_blank (cur_line : list text) : list text :=
  match last cur_line with
  | Some c => if blank c then removelast cur_line else cur_line
  | None => cur_line
  end.

(** One turn of the outer loop of [_wrap_chunks]. *)
Definition wrap_line (width : nat) (chunks : list text) (lines : list text)
    : list text * list text :=
  let chunks :=
    match chunks, lines with
    | c :: rest, _ :: _ => if blank c then rest else chunks
    | _, _ => chunks
    end in
  let '(cur_line, cur_len, chunks) := fill_line width [] 0 chunks in
  let '(cur_line, chunks) :=
    match chunks with
    | c :: rest =>
        if (width <? length c)%nat then
          let '(piece, remainder) := _handle_long_word c cur_len width in
          (cur_line ++ [piece], remainder :: rest)
        else (cur_line, chunks)
    | [] => (cur_line, chunks)
    end in
  let cur_line := drop_last_blank cur_line in
  match cur_line with
  | [] => (chunks, lines)
  | _ => (chunks, lines ++ [concat cur_line])
  end.

Fixpoint wrap_loop (fuel width : nat) (chunks lines : list text) : list text :=
  match chunks, fuel with
  | [], _ => lines
  | _, O => lines
  | _, S fuel' =>
      let '(chunks', lines') := wrap_line width chunks lines in
      wrap_loop fuel' width chunks' lines'
  end.

(** [_wrap_chunks]; every turn of the loop shortens the chunks by a
    character at least, so their total length bounds the turns. *)
Definition _wrap_chunks (width : nat) (chunks : list text) : list text :=
  wrap_loop (length (concat chunks)) width chunks [].

(** [textwrap.wrap(text, width)] *)
Definition wrap (s : text) (width : nat) : list text :=
  _wrap_chunks width (_split (_munge_whitespace s)).

(** ** Outcomes of calls that may raise *)

Inductive exn :=
| KeyboardInterrupt
| AttributeError
| IndexError
| ModuleNotFoundError
| OtherError (what : string).

Inductive outcome (A : Type) :=
| Returned (a : A)
| Raised (e : exn).

Arguments Returned {A} a.
Arguments Raised {A} e.

(** ** The docstring reflow of [Command.__init__] *)

(** [_justifyLines]: the lines joined with single spaces and wrapped.  The
    [columns] argument is accepted and not used: the width is the literal
    80. *)
Definition _justifyLines (lines : list text) (columns : nat) : list text :=
  let string := join [space] lines in
  wrap string 80.

(** First loop: every line stripped, blank lines dropped as long as nothing
    has been collected. *)
Fixpoint collectLines (raw lines : list text) : list text :=
  match raw with
  | [] => lines
  | line :: raw' =>
      let line := strip line in
      if (length line <? 1)%nat && (length lines <? 1)%nat
      then collectLines raw' lines
      else collectLines raw' (lines ++ [line])
  end.

(** The variables of the second loop. *)
Record grouping := {
  paragraphs : list (list text);
  paragraphStart : option nat;
  blankLineCount : nat
}.

(** [lines[a:b]] *)
Definition slice {A} (l : list A) (a b : nat) : list A := take (b - a) (drop a l).

(** The body of the second loop at index [i]. *)
Definition groupStep (lines : list text) (g : grouping) (i : nat) : grouping :=
  if (length (nth i lines []) <? 1)%nat then
    match paragraphStart g with
    | Some start =>
        {| paragraphs := paragraphs g ++ [slice lines start i];
           paragraphStart := None;
           blankLineCount := 1 |}
    | None =>
        {| paragraphs := paragraphs g;
           paragraphStart := None;
           blankLineCount := S (blankLineCount g) |}
    end
  else
    match paragraphStart g with
    | None =>
        if (0 <? blankLineCount g)%nat then
          {| paragraphs := paragraphs g ++ repeat [] (blankLineCount g);
             paragraphStart := Some i;
             blankLineCount := 0 |}
        else
          {| paragraphs := paragraphs g;
             paragraphStart := Some i;
             blankLineCount := blankLineCount g |}
    | Some _ => g
    end.

(** Second loop and the paragraph still open after it. *)
Definition groupParagraphs (lines : list text) : list (list text) :=
  let g := fold_left (groupStep lines) (seq 0 (length lines))
             {| paragraphs := []; paragraphStart := Some 0%nat; blankLineCount := 0 |} in
  match paragraphStart g with
  | Some start => paragraphs g ++ [drop start lines]
  | None => paragraphs g
  end.

(** Third loop: an empty paragraph becomes one space, any other is
    justified and its lines joined with line feeds. *)
Definition renderParagraph (paragraph : list text) : text :=
  if (length paragraph <? 1)%nat then [space]
  else join nl (_justifyLines paragraph 80).

Definition descriptionParagraphs (doc : text) : list text :=
  map renderParagraph (groupParagraphs (collectLines (split newline doc) [])).

(** The help text and the description derived from a docstring; [None]
    stands for [descriptionParagraphs[0]] raising [IndexError]. *)
Definition docHelp (doc : text) : option text := head (descriptionParagraphs doc).

Definition docDescription (doc : text) : text := join nl (descriptionParagraphs doc).

(** ** The [logging] registry *)

Definition NOTSET : Z := 0.
Definition DEBUG : Z := 10.
Definition INFO : Z := 20.
Definition WARNING : Z := 30.
Definition ERROR : Z := 40.
Definition CRITICAL : Z := 50.

(** A logger: its own level and its handlers, each handler object known by
    the number it got when it was created. *)
Record Logger := {
  level : Z;
  handlers : list nat
}.

Inductive logger_ref :=
| RootLogger
| NamedLogger (name : string).

#[local] Instance logger_ref_eq_dec : EqDecision logger_ref.
Proof. solve_decision. Defined.

(** The state of the logging module: the root logger, [Manager.loggerDict]
    and the number of handler objects created so far. *)
Record Logging := {
  root : Logger;
  loggerDict : gmap string Logger;
  handlerCount : nat
}.

Definition newLogger : Logger := {| level := NOTSET; handlers := [] |}.

(** [logging.getLogger(name)]: the root logger for an empty name and for
    the name of the root, otherwise the registered logger of that name,
    created on first use. *)
Definition getLogger (name : string) (lg : Logging) : logger_ref * Logging :=
  if String.eqb name "" || String.eqb name "root" then (RootLogger, lg)
  else
    (NamedLogger name,
     match loggerDict lg !! name with
     | Some _ => lg
     | None =>
         {| root := root lg;
            loggerDict := <[name := newLogger]> (loggerDict lg);
            handlerCount := handlerCount lg |}
     end).

Definition theLogger (r : logger_ref) (lg : Logging) : Logger :=
  match r with
  | RootLogger => root lg
  | NamedLogger name => default newLogger (loggerDict lg !! name)
  end.

Definition setLogger (r : logger_ref) (l : Logger) (lg : Logging) : Logging :=
  match r with
  | RootLogger =>
      {| root := l; loggerDict := loggerDict lg; handlerCount := handlerCount lg |}
  | NamedLogger name =>
      {| root := root lg; loggerDict := <[name := l]> (loggerDict lg);
         handlerCount := handlerCount lg |}
  end.

(** [logger.setLevel(lvl)] *)
Definition setLevel (r : logger_ref) (lvl : Z) (lg : Logging) : Logging :=
  setLogger r {| level := lvl; handlers := handlers (theLogger r lg) |} lg.

(** [logging.StreamHandler()]: a new handler object. *)
Definition StreamHandler (lg : Logging) : nat * Logging :=
  (handlerCount lg,
   {| root := root lg; loggerDict := loggerDict lg; handlerCount := S (handlerCount lg) |}).

(** [logger.addHandler(h)] *)
Definition addHandler (r : logger_ref) (h : nat) (lg : Logging) : Logging :=
  let l := theLogger r lg in
  if bool_decide (h ∈ handlers l) then lg
  else setLogger r {| level := level l; handlers := handlers l ++ [h] |} lg.

Fixpoint list_remove (h : nat) (l : list nat) : list nat :=
  match l with
  | [] => []
  | x :: l' => if Nat.eqb x h then l' else x :: list_remove h l'
  end.

(** [logger.removeHandler(h)] *)
Definition removeHandler (r : logger_ref) (h : nat) (lg : Logging) : Logging :=
  let l := theLogger r lg in
  if bool_decide (h ∈ handlers l)
  then setLogger r {| level := level l; handlers := list_remove h (handlers l) |} lg
  else lg.

(** The names [Manager._fixupParents] tries as parents of [name], nearest
    first. *)
Fixpoint parentNames (fuel : nat) (name : text) (i : option nat) : list string :=
  match fuel, i with
  | S fuel', Some i =>
      if (0 <? i)%nat
      then string_of_list_ascii (take i name)
             :: parentNames fuel' name (rfind_from "."%char name (i - 1) 0)
      else []
  | _, _ => []
  end.

(** [logger.parent]: the nearest registered ancestor, [None] for the root. *)
Definition parentLogger (lg : Logging) (name : string) : option string :=
  let s := txt name in
  List.find (fun p => bool_decide (is_Some (loggerDict lg !! p)))
    (parentNames (length s) s (rfind_from "."%char s (length s) 0)).

(** The logger of a name followed by its parents up to the root. *)
Fixpoint lineage (fuel : nat) (lg : Logging) (name : string) : list string :=
  name ::
  match fuel with
  | O => []
  | S fuel' =>
      match parentLogger lg name with
      | Some p => lineage fuel' lg p
      | None => []
      end
  end.

Definition levelOf (lg : Logging) (name : string) : Z :=
  level (default newLogger (loggerDict lg !! name)).

(** [logger.getEffectiveLevel()]: the first level set on the way from the
    logger up to the root. *)
Definition getEffectiveLevel (r : logger_ref) (lg : Logging) : Z :=
  match r with
  | RootLogger => level (root lg)
  | NamedLogger name =>
      match List.find (fun n => negb (levelOf lg n =? NOTSET)%Z)
              (lineage (String.length name) lg name) with
      | Some n => levelOf lg n
      | None => level (root lg)
      end
  end.

(** [logger.isEnabledFor(lvl)] *)
Definition isEnabledFor (r : logger_ref) (lvl : Z) (lg : Logging) : bool :=
  (getEffectiveLevel r lg <=? lvl)%Z.

(** ** Commands *)

(** What a run leaves behind for the user: records handed to a logger,
    text written by [Terminal], and the calls of [runCommand]. *)
Inductive event :=
| Log (logger : string) (lvl : Z) (msg : string)
| Stdout (s : string)
| RunCommand (name : string).

(** The parsed arguments as the commands see them: the two global options
    and every other attribute, among them the selected sub-command names. *)
Record Namespace := {
  verbose : Z;
  logger : list logger_ref;
  attributes : gmap string (option string)
}.

(** [getattr(args, key)] *)
Definition getattr (args : Namespace) (key : string) : outcome (option string) :=
  match attributes args !! key with
  | Some v => Returned v
  | None => Raised AttributeError
  end.

Set Warnings "-register-all".

(** A command object.  [cmd_logger] is the name of [self.logger];
    [runCommand] is the method a subclass overrides. *)
Inductive Command := mkCommand {
  _name : string;
  _help : text;
  _description : text;
  _subCommands : list Command;
  cmd_logger : string;
  _logModules : list string;
  runCommand : Namespace -> list event * outcome (option Z)
}.

(** The docstring of the class [Command]. *)
Definition Command_doc : text :=
  join nl
    [txt "A light wrapper for argparse commands that tries to reduce a bit of the";
     txt "    duck typing and feature set to keep it basic and a bit more structured";
     txt "    "].

(** [Command.runCommand] as the base class has it. *)
Definition defaultRunCommand (args : Namespace) : list event * outcome (option Z) :=
  ([], Returned None).

(** [Terminal.print], [Terminal._printVt100] and [Terminal.error]. *)
Definition io_print (s : string) : list event := [Stdout (s ++ String newline "")].

Definition escape : string := String (ascii_of_N 27) "".

Definition _printVt100 (code : string) : list event := [Stdout (escape ++ code)].

Definition io_error (s : string) : list event :=
  _printVt100 "[31m" ++ io_print s ++ _printVt100 "[0m".

(** [s.split(".")[0]] *)
Definition firstComponent (s : string) : string :=
  string_of_list_ascii (default [] (head (split "."%char (txt s)))).

(** [list(set(l))] *)
Definition listOfSet (l : list string) : list string :=
  elements (list_to_set l : gset string).

(** [Command.__init__].  [doc] is the docstring of the class of the object,
    [moduleLocation] the name of the module that class lives in and
    [handler] its [runCommand]. *)
Definition __init__ (doc : option text) (moduleLocation : string)
    (handler : Namespace -> list event * outcome (option Z))
    (name : string) (help description : option text)
    (subCommands : option (list Command)) (lg : Logging)
    : Logging * outcome Command :=
  let texts : outcome (text * text) :=
    match help, description with
    | Some h, Some d => Returned (h, d)
    | _, _ =>
        match doc with
        | None => Raised AttributeError
        | Some doc =>
            match
              (match help with
               | Some h => Returned h
               | None => match docHelp doc with
                         | Some h => Returned h
                         | None => Raised IndexError
                         end
               end)
            with
            | Raised e => Raised e
            | Returned h =>
                Returned (h, match description with
                             | Some d => d
                             | None => docDescription doc
                             end)
            end
        end
    end in
  match texts with
  | Raised e => (lg, Raised e)
  | Returned (h, d) =>
      let subCommands := default [] subCommands in
      let '(_, lg) := getLogger moduleLocation lg in
      let logModules :=
        fold_left (fun acc sub => listOfSet (acc ++ _logModules sub))
          subCommands [firstComponent moduleLocation] in
      (lg, Returned {| _name := name; _help := h; _description := d;
                       _subCommands := subCommands;
                       cmd_logger := moduleLocation;
                       _logModules := logModules;
                       runCommand := handler |})
  end.

(** [Command._runCommand]: the dispatch walk. *)
Fixpoint _runCommand (self : Command) (args : Namespace) {struct self}
    : list event * outcome Z :=
  match self with
  | mkCommand name _ _ subCommands log _ handler =>
      let e0 := [Log log DEBUG ("Letting this command ('" ++ name ++ "') have a go");
                 RunCommand name] in
      let '(eh, result) := handler args in
      match result with
      | Raised e => (e0 ++ eh, Raised e)
      | Returned (Some result) =>
          (e0 ++ eh ++ [Log log DEBUG ("Command handled (" ++ pretty result ++ ")")],
           Returned result)
      | Returned None =>
          if (length subCommands <? 1)%nat then
            (e0 ++ eh ++ [Log log DEBUG
               "Command not handled ourselves, and no sub-commands available"],
             Returned 0%Z)
          else
            match getattr args ("_" ++ name ++ "SubCommandName") with
            | Raised e => (e0 ++ eh, Raised e)
            | Returned subCommandName =>
                match subCommandName with
                | None | Some "" =>
                    (e0 ++ eh ++ [Log log ERROR
                       "Please select one of the available sub-commands"],
                     Returned (-1)%Z)
                | Some subCommandName =>
                    let e1 := [Log log DEBUG ("Sub-command '" ++ subCommandName
                                              ++ "' invoked, finding it...")] in
                    let '(es, r) :=
                      (fix find (l : list Command) : list event * outcome Z :=
                         match l with
                         | [] => ([Log log ERROR "Couldn't find sub-command"],
                                  Returned (-1)%Z)
                         | subCommand :: l' =>
                             if negb (String.eqb (_name subCommand) subCommandName)
                             then find l'
                             else
                               let '(ev, r) := _runCommand subCommand args in
                               (Log log DEBUG "Found sub-command" :: ev, r)
                         end) subCommands in
                    (e0 ++ eh ++ e1 ++ es, r)
                end
            end
      end
  end.

(** ** [Command.run] *)

(** What [rootParser.parse_args] returned: the count of [-v], the names
    given with [--logger] and the remaining attributes.  The parser itself
    is [argparse]'s and is not modelled. *)
Record Parsed := {
  p_verbose : Z;
  p_logger : list string;
  p_attributes : gmap string (option string)
}.

(** [inspect.getmodule(Command).__name__.split(".")[0]] *)
Definition ourModule : string := firstComponent "libs.command.command".

(** The level chosen for a count of [-v]. *)
Definition levelFor (v : Z) : Z :=
  if (v >=? 4)%Z then DEBUG
  else if (v >=? 3)%Z then INFO
  else if (v >=? 2)%Z then WARNING
  else if (v >=? 1)%Z then ERROR
  else CRITICAL.

(** [[logging.getLogger(logger) for logger in names]] *)
Fixpoint getLoggers (names : list string) (lg : Logging) : list logger_ref * Logging :=
  match names with
  | [] => ([], lg)
  | name :: names' =>
      let '(r, lg) := getLogger name lg in
      let '(rs, lg) := getLoggers names' lg in
      (r :: rs, lg)
  end.

(** The loop that sets the level of every selected logger and gives it a
    new stream handler. *)
Fixpoint configureLoggers (v : Z) (loggers : list logger_ref) (lg : Logging) : Logging :=
  match loggers with
  | [] => lg
  | r :: loggers' =>
      let lg := setLevel r (levelFor v) lg in
      let '(handler, lg) := StreamHandler lg in
      configureLoggers v loggers' (addHandler r handler lg)
  end.

(** The closing loop: [logger.removeHandler(logger.handlers[0])]. *)
Fixpoint removeHandlers (loggers : list logger_ref) (lg : Logging)
    : Logging * outcome unit :=
  match loggers with
  | [] => (lg, Returned tt)
  | r :: loggers' =>
      match handlers (theLogger r lg) with
      | [] => (lg, Raised IndexError)
      | first :: _ => removeHandlers loggers' (removeHandler r first lg)
      end
  end.

(** The loggers [run] configures. *)
Definition selectLoggers (self : Command) (parsed : Parsed) (lg : Logging)
    : list logger_ref * Logging :=
  let names :=
    if (length (p_logger parsed) <? 1)%nat
    then listOfSet ([ourModule] ++ _logModules self)
    else p_logger parsed in
  if (p_verbose parsed >=? 5)%Z then ([RootLogger], lg)
  else getLoggers names lg.

(** [args] once [args.logger] holds the logger objects. *)
Definition runArgs (parsed : Parsed) (loggers : list logger_ref) : Namespace :=
  {| verbose := p_verbose parsed; logger := loggers;
     attributes := p_attributes parsed |}.

(** [Command.run].  The handlers of the commands are taken not to touch
    the logging registry. *)
(** The logging set-up of [run]: the selected loggers and the registry
    once each of them has its level and its handler. *)
Definition configured (self : Command) (parsed : Parsed) (lg : Logging)
    : list logger_ref * Logging :=
  let '(loggers, lg) := selectLoggers self parsed lg in
  (loggers, configureLoggers (p_verbose parsed) loggers lg).

Definition run (self : Command) (parsed : Parsed) (lg : Logging)
    : Logging * list event * outcome Z :=
  let '(loggers, lg) := configured self parsed lg in
  let '(ev, result) := _runCommand self (runArgs parsed loggers) in
  match result with
  | Raised KeyboardInterrupt => (lg, ev ++ io_print "^C", Returned 1%Z)
  | Raised e => (lg, ev, Raised e)
  | Returned result =>
      match removeHandlers loggers lg with
      | (lg, Raised e) => (lg, ev, Raised e)
      | (lg, Returned _) => (lg, ev, Returned result)
      end
  end.

(** ** The plugin loader, [libs.command.run] *)

Module Package.

Record EntryPoint := {
  ep_name : string;
  ep_value : string;
  ep_group : string
}.

(** [str(entryPoint)] *)
Definition showEntryPoint (e : EntryPoint) : string :=
  "EntryPoint(name='" ++ ep_name e ++ "', value='" ++ ep_value e
  ++ "', group='" ++ ep_group e ++ "')".

(** A class found in a module: calling it builds a command or raises. *)
Definition PluginClass : Type := Logging -> Logging * outcome Command.

(** An imported module: an attribute is missing, [None], or a class. *)
Definition PyModule : Type := string -> option (option PluginClass).

(** [importlib.import_module], over the modules that can be imported. *)
Definition import_module (modules : string -> option PyModule) (name : string)
    : outcome PyModule :=
  match modules name with
  | Some m => Returned m
  | None => Raised ModuleNotFoundError
  end.

(** How the loop over the entry points ends. *)
Inductive loaded :=
| Loaded (subCommands : list Command)
| Aborted (status : Z).

Fixpoint loadEntryPoints (modules : string -> option PyModule)
    (entryPoints : list EntryPoint) (subCommands : list Command) (lg : Logging)
    : Logging * list event * outcome loaded :=
  match entryPoints with
  | [] => (lg, [], Returned (Loaded subCommands))
  | entryPoint :: entryPoints' =>
      match split ":"%char (txt (ep_value entryPoint)) with
      | [module_; class_] =>
          let class_ := string_of_list_ascii class_ in
          match import_module modules (string_of_list_ascii module_) with
          | Raised e => (lg, [], Raised e)
          | Returned module =>
              match module class_ with
              | None =>
                  (lg, io_error ("Entry point '" ++ showEntryPoint entryPoint
                                 ++ "' class '" ++ class_ ++ "' not found"),
                   Returned (Aborted (-1)))
              | Some None =>
                  (lg, io_error ("Entry point '" ++ showEntryPoint entryPoint
                                 ++ "' class '" ++ class_ ++ "' not imported"),
                   Returned (Aborted (-1)))
              | Some (Some command) =>
                  match command lg with
                  | (lg, Raised e) => (lg, [], Raised e)
                  | (lg, Returned c) =>
                      loadEntryPoints modules entryPoints' (subCommands ++ [c]) lg
                  end
              end
          end
      | _ =>
          (lg, io_error ("Entry point '" ++ showEntryPoint entryPoint
                         ++ "' has an invalid format (expect 'module:ClassName')"),
           Returned (Aborted (-1)))
      end
  end.

(** [run(entryPointsNamespace)].  [entryPoints] is what
    [importlib.metadata.entry_points()] lists, [modules] what can be
    imported and [parsed] what the root command parses from the command
    line. *)
Definition run (entryPointsNamespace : string) (entryPoints : list EntryPoint)
    (modules : string -> option PyModule) (parsed : Parsed) (lg : Logging)
    : Logging * list event * outcome Z :=
  let entryPoints :=
    List.filter (fun e => String.eqb (ep_group e) entryPointsNamespace) entryPoints in
  match loadEntryPoints modules entryPoints [] lg with
  | (lg, ev, Raised e) => (lg, ev, Raised e)
  | (lg, ev, Returned (Aborted status)) => (lg, ev, Returned status)
  | (lg, ev, Returned (Loaded subCommands)) =>
      match __init__ (Some Command_doc) "libs.command.command" defaultRunCommand "root"
              (Some (txt "The root command"))
              (Some (txt "This command has been auto-generated."))
              (Some subCommands) lg with
      | (lg, Raised e) => (lg, ev, Raised e)
      | (lg, Returned rootCommand) =>
          let '(lg, ev', r) := run rootCommand parsed lg in
          (lg, ev ++ ev', r)
      end
  end.

End Package.

(** ** Sample trees *)

Definition emptyLogging : Logging :=
  {| root := {| level := WARNING; handlers := [] |};
     loggerDict := ∅;
     handlerCount := 0 |}.

Definition sampleNode (name : string)
    (handler : Namespace -> list event * outcome (option Z))
    (subCommands : list Command) : Command :=
  {| _name := name; _help := txt name; _description := txt name;
     _subCommands := subCommands; cmd_logger := "libs.command.command";
     _logModules := ["libs"]; runCommand := handler |}.

(** A leaf that prints and returns 0, as the example command does. *)
Definition greet : Command :=
  sampleNode "greet" (fun _ => (io_print "hello", Returned (Some 0%Z))) [].

(** A leaf whose handler is interrupted by the user. *)
Definition stuck : Command :=
  sampleNode "stuck" (fun _ => ([], Raised KeyboardInterrupt)) [].

Definition sampleRoot : Command :=
  sampleNode "root" defaultRunCommand [greet; stuck].

(** A parent that handles every invocation itself. *)
Definition greedyRoot : Command :=
  sampleNode "root" (fun _ => ([], Returned (Some 7%Z))) [greet; stuck].

Definition selecting (v : Z) (choice : option string) : Parsed :=
  {| p_verbose := v; p_logger := [];
     p_attributes := {[ "_rootSubCommandName" := choice ]} |}.

(** What every call of [_runCommand] starts with. *)
Definition opening (self : Command) : list event :=
  [Log (cmd_logger self) DEBUG ("Letting this command ('" ++ _name self ++ "') have a go");
   RunCommand (_name self)].

(** The attribute that holds the sub-command selected under [self]. *)
Definition selectionKey (self : Command) : string :=
  "_" ++ _name self ++ "SubCommandName".

(** Two runs in one process: the registry a run without [-v] leaves
    behind. *)
Definition afterQuietRun : Logging :=
  (run sampleRoot (selecting 0 (Some "greet")) emptyLogging).1.1.

(** A registry in which the logger of the package already has a handler. *)
Definition withHandler : Logging :=
  {| root := {| level := WARNING; handlers := [] |};
     loggerDict := {[ "libs" := {| level := NOTSET; handlers := [7%nat] |} ]};
     handlerCount := 8 |}.

(** An entry point whose module cannot be imported. *)
Definition lostEntryPoint : Package.EntryPoint :=
  {| Package.ep_name := "lost"; Package.ep_value := "nowhere.cmd:LostCommand";
     Package.ep_group := "pyer.commands" |}.

Definition noModules : string -> option Package.PyModule := fun _ => None.

(** The second loop read as one pass over the lines: [cur] is the open
    paragraph, [lines[paragraphStart:i]], when there is one. *)
Fixpoint group (cur : option (list text)) (blanks : nat) (rest : list text)
    : list (list text) :=
  match rest with
  | [] => match cur with Some p => [p] | None => [] end
  | l :: rest' =>
      if (length l <? 1)%nat then
        match cur with
        | Some p => p :: group None 1 rest'
        | None => group None (S blanks) rest'
        end
      else
        match cur with
        | None => repeat [] blanks ++ group (Some [l]) 0 rest'
        | Some p => group (Some (p ++ [l])) blanks rest'
        end
  end.

(** What is returned once the second loop is over. *)
Definition closeParagraphs (lines : list text) (g : grouping) : list (list text) :=
  match paragraphStart g with
  | Some start => paragraphs g ++ [drop start lines]
  | None => paragraphs g
  end.

(** The docstring of [ExampleCommand], and one with two paragraphs two
    blank lines apart. *)
Definition ExampleCommand_doc : text :=
  join nl [txt "An example command"; txt "    "].

Definition spacedDoc : text :=
  join nl [txt "Copies the files."; txt ""; txt "    ";
           txt "    Nothing is overwritten."; txt "    "].

(** ** Words one space apart *)

(** A character that is not blank for [str.strip]. *)
Definition plainChar (c : ascii) : bool := negb (isspace c).

(** A word that fits a line: characters that are not blank, hyphens
    among them. *)
Definition plainWord (w : text) : Prop :=
  w <> [] /\ (length w <= 80)%nat /\ Forall (fun c => plainChar c = true) w.

(** A line that, stripped, is words one space apart (none, for a blank
    line). *)
Definition plainLine (l : text) : Prop :=
  exists ws : list text, Forall plainWord ws /\ strip l = join [space] ws.

(** The chunks of words one space apart, after the first word. *)
Fixpoint spaced (ws : list text) : list text :=
  match ws with
  | [] => []
  | w :: ws' => [space] :: w :: spaced ws'
  end.

(** Text made of spaces and of characters that are not blank. *)
Definition spacedText (s : text) : Prop :=
  Forall (fun c => c = space \/ plainChar c = true) s.

(** What stops a word: the end of the text or a space. *)
Definition wordEnd (rest : text) : Prop := rest = [] \/ exists r, rest = space :: r.

(** A chunk of characters that are not blank. *)
Definition solid (c : text) : Prop := c <> [] /\ Forall (fun x => plainChar x = true) c.

(** The first chunk of a text wrapped on its own. *)
Definition firstChunk (s : text) : text := hd [] (_split s).

(** Lines none of which leaves room for a space and the first chunk of
    the line after it. *)
Fixpoint packed (L : list text) : Prop :=
  match L with
  | l :: (l' :: _) as L' => (80 < length l + 1 + length (firstChunk l'))%nat /\ packed L'
  | _ => True
  end.

(** The first chunk that is not blank, which the next line starts with. *)
Definition nextSolid (chunks : list text) : option text :=
  match chunks with
  | c :: rest => if blank c then head rest else Some c
  | [] => None
  end.

(** [weakerBehind b2 b1]: whatever the lookbehinds of [wordsep_re] find in
    the text [b2], read backwards, they find in [b1], however both are
    continued. *)
Definition weakerBehind (b2 b1 : text) : Prop :=
  forall p : text,
    (after_word_punct (p ++ b2) = true -> after_word_punct (p ++ b1) = true)
    /\ forall rest : text,
         hyphen_break (p ++ b2) rest = true -> hyphen_break (p ++ b1) rest = true.

(** The kinds two runs of the splitter can be in when they have read the
    same characters of a chunk, the second with less behind it and less
    ahead of it than the first; [s] is what both read next. *)
Definition kindsAgree (k1 k2 : chunk_kind) (s : text) : Prop :=
  match k1, k2 with
  | KStart, KStart | KSpace, KSpace | KDash, KDash | KWord, KWord
  | KHyphen, KWord | KHyphen, KHyphen => True
  | KDash, KWord => match s with c :: _ => is_hyphen c = true | [] => True end
  | _, _ => False
  end.

(** A line with text: words one space apart. *)
Definition wordsLine (l : text) : Prop :=
  exists ws : list text, ws <> [] /\ Forall plainWord ws /\ l = join [space] ws.

(** Text still to be wrapped: it starts with a word, or with the space
    before one, or nothing is left. *)
Definition wordsAhead (r : text) : Prop :=
  exists (v : text) (ws : list text),
    Forall plainWord (v :: ws) /\ r = join [space] (v :: ws).

Definition textAhead (rr : text) : Prop :=
  rr = [] \/ wordsAhead rr \/ exists r : text, rr = space :: r /\ wordsAhead r.

(** The chunks that are left in the first pass. *)
Definition chunksAhead (R : list text) : Prop :=
  exists b rr : text, textAhead rr /\ R = split_from b [] KStart rr.

(** The last line leaves no room for a space and the chunk the next line
    starts with. *)
Definition gap (lines R : list text) : Prop :=
  forall l Y : text,
    last lines = Some l -> nextSolid R = Some Y -> (80 < length l + 1 + length Y)%nat.

(** What holds before every turn of the loop in the first pass. *)
Definition firstPass (R lines : list text) : Prop :=
  chunksAhead R
  /\ (lines = [] -> forall c R', R = c :: R' -> solid c)
  /\ Forall (fun l => wordsLine l /\ (length l <= 80)%nat) lines
  /\ packed lines
  /\ gap lines R.

(** The lines a paragraph is rendered as, and the paragraph they are read
    back as. *)
Definition renderedLines (p : list text) : list text :=
  match p with [] => [[space]] | _ => _justifyLines p 80 end.

Definition rewrapped (p : list text) : list text :=
  match p with [] => [] | _ => _justifyLines p 80 end.

(** The stripped lines of the rendered paragraphs. *)
Definition flat (P : list (list text)) : list text :=
  concat (map (fun p => match p with [] => [[]] | _ => _justifyLines p 80 end) P).

(** A line of the first pass: blank, or words one space apart. *)
Definition passLine (l : text) : Prop := l = [] \/ wordsLine l.

(** The two conditions as checks. *)
Definition plainWordb (w : text) : bool :=
  negb (length w <? 1)%nat && (length w <=? 80)%nat && forallb plainChar w.

Definition plainLineb (l : text) : bool :=
  match strip l with
  | [] => true
  | s => forallb plainWordb (split space s)
  end.

(** A docstring with hyphenated words and dashes; wrapped, its first line
    ends at a hyphen. *)
Definition hyphenDoc : text :=
  join nl
    [txt "Walks a tree of plugin-discoverable commands in a strict depth-first,";
     txt "    single-threaded manner -- the well-known one -- and gives back the status";
     txt "    of the first handler whose result is non-null.";
     txt "    "].

(** A text of two lines within 80 columns, itself rendered by the reflow
    from one long line, on which a second reflow moves a word. *)
Definition unevenSource : text :=
  repeat "a"%char 75 ++ repeat space 10 ++ txt "bb     c " ++ repeat "d"%char 70.

Definition unevenDoc : text :=
  join nl [repeat "a"%char 75; txt "bb     c " ++ repeat "d"%char 70].

(** A line that is full when a word of more than 80 characters comes. *)
Definition longWordDoc : text :=
  repeat "a"%char 79 ++ [space] ++ repeat "b"%char 100.

(** ** More of the package *)

(** The logger object [logging.getLogger(name)] returns. *)
Definition loggerRef (name : string) : logger_ref :=
  if String.eqb name "" || String.eqb name "root" then RootLogger else NamedLogger name.

(** How many times a logger is in a list of loggers. *)
Definition occurrences (r : logger_ref) (loggers : list logger_ref) : nat :=
  length (List.filter (fun x => bool_decide (x = r)) loggers).

(** A registry as Python can have it: every handler on a logger is an
    object created earlier, so that a new handler is on no logger yet. *)
Definition wfLogging (lg : Logging) : Prop :=
  forall r : logger_ref,
    Forall (fun h => (h < handlerCount lg)%nat) (handlers (theLogger r lg)).

(** [main] of [libs/main.py]: a root command without sub-commands, its
    description left to the docstring of [Command]. *)
Definition main (parsed : Parsed) (lg : Logging) : Logging * list event * outcome Z :=
  match __init__ (Some Command_doc) "libs.command.command" defaultRunCommand "root"
          (Some (txt "The root command")) None (Some []) lg with
  | (lg, Raised e) => (lg, [], Raised e)
  | (lg, Returned rootCommand) => run rootCommand parsed lg
  end.

(** [str(value)] of an attribute that holds a string or [None]. *)
Definition showAttribute (v : option string) : string :=
  match v with
  | Some s => s
  | None => "None"
  end.

(** [ExampleCommand.runCommand] of [libs/example/__cmd__.py]: it reads
    [args.test], prints it and returns 0. *)
Definition exampleRunCommand (args : Namespace) : list event * outcome (option Z) :=
  match getattr args "test" with
  | Raised e => ([], Raised e)
  | Returned v =>
      (io_print ("Got argument value '" ++ showAttribute v ++ "'"), Returned (Some 0%Z))
  end.

(** [ExampleCommand()]: only the name is given, the texts come from the
    docstring of the class. *)
Definition ExampleCommand (lg : Logging) : Logging * outcome Command :=
  __init__ (Some ExampleCommand_doc) "libs.example.__cmd__" exampleRunCommand
    "example" None None None lg.

(** A table of modules in which the example command can be found, and
    the entry point that names it. *)
Definition exampleModules (name : string) : option Package.PyModule :=
  if String.eqb name "libs.example.__cmd__"
  then Some (fun attr => if String.eqb attr "ExampleCommand"
                         then Some (Some ExampleCommand) else None)
  else None.

Definition exampleEntryPoint : Package.EntryPoint :=
  {| Package.ep_name := "example";
     Package.ep_value := "libs.example.__cmd__:ExampleCommand";
     Package.ep_group := "pyer.commands" |}.

(** [main] of [libs/__main__.py], before [sys.exit]. *)
Definition package_main (entryPoints : list Package.EntryPoint)
    (modules : string -> option Package.PyModule) (parsed : Parsed) (lg : Logging)
    : Logging * list event * outcome Z :=
  Package.run "pyer.commands" entryPoints modules parsed lg.

(** An entry point of the namespace whose value has no colon. *)
Definition malformedEntryPoint : Package.EntryPoint :=
  {| Package.ep_name := "broken"; Package.ep_value := "libs.example.__cmd__";
     Package.ep_group := "pyer.commands" |}.

(** The lines a rendered paragraph is split back into. *)
Definition splitLines (L : list text) : list text :=
  match L with [] => [[]] | _ => L end.

(** ** What the handlers write *)

(** [Logger.callHandlers]: the handlers a record meets on its way from
    its logger up to the root logger.  Every logger is taken to propagate,
    as loggers do unless they are told otherwise. *)
Definition calledHandlers (r : logger_ref) (lg : Logging) : list nat :=
  match r with
  | RootLogger => handlers (root lg)
  | NamedLogger name =>
      concat (map (fun n => handlers (theLogger (NamedLogger n) lg))
                (lineage (String.length name) lg name))
      ++ handlers (root lg)
  end.

(** What one event of a trace puts on the error stream in the registry
    [lg].  A record is dropped unless its logger is enabled for its level;
    otherwise every handler it meets writes the message and a line feed,
    each handler being a stream handler at level [NOTSET] as [run] creates
    them, and when it meets no handler at all the handler of last resort
    writes it, from [WARNING] on.  Text printed by [Terminal] goes to the
    standard output. *)
Definition written (lg : Logging) (e : event) : list string :=
  match e with
  | Log name lvl msg =>
      if isEnabledFor (loggerRef name) lvl lg then
        match calledHandlers (loggerRef name) lg with
        | [] => if (WARNING <=? lvl)%Z then [(msg ++ String newline "")%string] else []
        | hs => map (fun _ => (msg ++ String newline "")%string) hs
        end
      else []
  | _ => []
  end.


(** A word that ends with a no-break space, a character [str.strip]
    takes for blank and [textwrap] does not, where the line is broken. *)
Definition noBreakDoc : text :=
  repeat "a"%char 78 ++ [ascii_of_N 160] ++ [space] ++ txt "bbbb".


(** * Properties *)

(** ** The dispatch walk *)

(** C1: when the handler of a node returns an integer, the walk ends there
    with that integer: the trace holds the call of this one handler and no
    other, whatever the children and the parsed arguments are. *)
Theorem handled_result_is_final (self : Command) (args : Namespace)
    (eh : list event) (result : Z) :
  runCommand self args = (eh, Returned (Some result)) ->
  _runCommand self args =
    (opening self ++ eh
       ++ [Log (cmd_logger self) DEBUG ("Command handled (" ++ pretty result ++ ")")],
     Returned result).
Proof.
  destruct self as [name h d subs log mods handler]; cbn [runCommand].
  intros Hrun. cbn [_runCommand]. rewrite Hrun. reflexivity.
Qed.

Lemma handled_result_is_final_witness :
  runCommand greedyRoot (runArgs (selecting 0 (Some "greet")) [])
    = ([], Returned (Some 7%Z))
  /\ _runCommand greedyRoot (runArgs (selecting 0 (Some "greet")) [])
     = ([Log "libs.command.command" DEBUG "Letting this command ('root') have a go";
         RunCommand "root";
         Log "libs.command.command" DEBUG "Command handled (7)"],
        Returned 7%Z).
Proof.
  split; [reflexivity |].
  apply (handled_result_is_final greedyRoot
           (runArgs (selecting 0 (Some "greet")) []) [] 7%Z).
  reflexivity.
Defined.

(** C2, as the code has it: a node whose handler returns nothing and that
    has children, when the parsed arguments hold no selection for it (the
    attribute is [None] or the empty string), hands an error record to
    its logger and returns -1.  Whether the message is written depends on
    the registry: it is, once by every handler the record meets or once
    by the handler of last resort, when the logger is enabled for
    [ERROR], and it is dropped when the logger is not. *)
Theorem missing_selection_is_an_error (self : Command) (args : Namespace)
    (eh : list event) (lg : Logging) :
  runCommand self args = (eh, Returned None) ->
  _subCommands self <> [] ->
  getattr args (selectionKey self) = Returned None
    \/ getattr args (selectionKey self) = Returned (Some "") ->
  _runCommand self args =
    (opening self ++ eh
       ++ [Log (cmd_logger self) ERROR "Please select one of the available sub-commands"],
     Returned (-1)%Z)
  /\ (-1 < 0)%Z
  /\ written lg (Log (cmd_logger self) ERROR
                   "Please select one of the available sub-commands")
     = if isEnabledFor (loggerRef (cmd_logger self)) ERROR lg
       then repeat ("Please select one of the available sub-commands" ++ String newline "")%string
              (Nat.max 1 (length (calledHandlers (loggerRef (cmd_logger self)) lg)))
       else [].
Proof.
  destruct self as [name h d subs log mods handler].
  unfold selectionKey, opening; cbn [runCommand _subCommands _name cmd_logger].
  intros Hrun Hsubs Hsel. split; [| split; [lia |]].
  - cbn [_runCommand]. rewrite Hrun.
    destruct subs as [| sub subs]; [congruence |]. cbn [length Nat.ltb Nat.leb].
    destruct Hsel as [-> | ->]; reflexivity.
  - cbn [written]. destruct (isEnabledFor (loggerRef log) ERROR lg); [| reflexivity].
    destruct (calledHandlers (loggerRef log) lg) as [| x hs]; [reflexivity |].
    replace (Nat.max 1 (length (x :: hs))) with (length (x :: hs)) by (cbn [length]; lia).
    generalize (x :: hs) as l. intros l.
    induction l as [| y l IH]; [reflexivity |]. cbn [map length repeat]. rewrite IH.
    reflexivity.
Qed.

Lemma missing_selection_is_an_error_witness :
  _runCommand sampleRoot
    (runArgs (selecting 1 None) (configured sampleRoot (selecting 1 None) emptyLogging).1)
  = ([Log "libs.command.command" DEBUG "Letting this command ('root') have a go";
      RunCommand "root";
      Log "libs.command.command" ERROR "Please select one of the available sub-commands"],
     Returned (-1)%Z)
  /\ (-1 < 0)%Z
  /\ written (configured sampleRoot (selecting 1 None) emptyLogging).2
       (Log "libs.command.command" ERROR "Please select one of the available sub-commands")
     = [("Please select one of the available sub-commands" ++ String newline "")%string].
Proof.
  destruct (missing_selection_is_an_error sampleRoot
              (runArgs (selecting 1 None)
                 (configured sampleRoot (selecting 1 None) emptyLogging).1) []
              (configured sampleRoot (selecting 1 None) emptyLogging).2)
    as (Hwalk & Hneg & Hwritten).
  - reflexivity.
  - discriminate.
  - left. reflexivity.
  - split; [exact Hwalk |]. split; [exact Hneg |].
    refine (eq_trans Hwritten _). vm_compute. reflexivity.
Defined.

(** C2 as the spec words it does not hold.  Run without [-v], as [run] is
    by default, the root command of the sample tree with no sub-command
    selected returns -1 and nothing is emitted: the logger of the package
    is set to [CRITICAL], the error record handed to the logger of the
    commands below it is dropped, as is the debug record before it, and
    nothing is printed on the standard output.  The registry the records
    meet is the one [run] configured. *)
Lemma missing_selection_is_silent_without_verbose :
  (run sampleRoot (selecting 0 None) emptyLogging).2 = Returned (-1)%Z
  /\ (run sampleRoot (selecting 0 None) emptyLogging).1.2
     = [Log "libs.command.command" DEBUG "Letting this command ('root') have a go";
        RunCommand "root";
        Log "libs.command.command" ERROR "Please select one of the available sub-commands"]
  /\ concat (map (written (configured sampleRoot (selecting 0 None) emptyLogging).2)
               (run sampleRoot (selecting 0 None) emptyLogging).1.2)
     = [].
Proof. vm_compute. repeat split; reflexivity. Qed.

(** The step into the selected child: its trace and its outcome, an
    exception included, become those of the parent. *)
Lemma selected_child_decides (self sub : Command) (args : Namespace)
    (eh ev : list event) (before after : list Command) (choice : string)
    (r : outcome Z) :
  runCommand self args = (eh, Returned None) ->
  _subCommands self = before ++ sub :: after ->
  Forall (fun c => _name c <> choice) before ->
  _name sub = choice ->
  choice <> "" ->
  getattr args (selectionKey self) = Returned (Some choice) ->
  _runCommand sub args = (ev, r) ->
  _runCommand self args =
    (opening self ++ eh
       ++ [Log (cmd_logger self) DEBUG ("Sub-command '" ++ choice ++ "' invoked, finding it...");
           Log (cmd_logger self) DEBUG "Found sub-command"] ++ ev,
     r).
Proof.
  destruct self as [name h d subs log mods handler].
  unfold selectionKey, opening; cbn [runCommand _subCommands _name cmd_logger].
  intros Hrun -> Hbefore Hname Hchoice Hsel Hsub.
  cbn [_runCommand]. rewrite Hrun.
  replace (length (before ++ sub :: after) <? 1)%nat with false
    by (symmetry; apply Nat.ltb_ge; rewrite length_app; cbn; lia).
  rewrite Hsel.
  destruct choice as [| c choice]; [congruence |].
  induction Hbefore as [| b before Hb _ IH]; cbn [app].
  - rewrite Hname, String.eqb_refl. cbn [negb]. rewrite Hsub. reflexivity.
  - apply String.eqb_neq in Hb. rewrite Hb. cbn [negb]. exact IH.
Qed.

(** C3: when the walk started by [run] ends in [KeyboardInterrupt], [run]
    catches it: after what the walk left, the acknowledgment, a caret and
    a capital C followed by a line feed, is printed on the standard
    output, and [run] returns 1; the exception goes no further.  The
    registry is the configured one. *)
Theorem interrupt_is_caught (self : Command) (parsed : Parsed) (lg : Logging)
    (ev : list event) :
  _runCommand self (runArgs parsed (configured self parsed lg).1)
    = (ev, Raised KeyboardInterrupt) ->
  run self parsed lg
    = ((configured self parsed lg).2,
       ev ++ [Stdout (String "^" (String "C" (String newline "")))],
       Returned 1%Z).
Proof.
  unfold run. destruct (configured self parsed lg) as [loggers lg'].
  cbn [fst snd]. intros ->. reflexivity.
Qed.

Lemma interrupt_is_caught_witness :
  _runCommand sampleRoot
      (runArgs (selecting 0 (Some "stuck"))
         (configured sampleRoot (selecting 0 (Some "stuck")) emptyLogging).1)
    = ([Log "libs.command.command" DEBUG "Letting this command ('root') have a go";
        RunCommand "root";
        Log "libs.command.command" DEBUG "Sub-command 'stuck' invoked, finding it...";
        Log "libs.command.command" DEBUG "Found sub-command";
        Log "libs.command.command" DEBUG "Letting this command ('stuck') have a go";
        RunCommand "stuck"],
       Raised KeyboardInterrupt)
  /\ (run sampleRoot (selecting 0 (Some "stuck")) emptyLogging).1.2
     = [Log "libs.command.command" DEBUG "Letting this command ('root') have a go";
        RunCommand "root";
        Log "libs.command.command" DEBUG "Sub-command 'stuck' invoked, finding it...";
        Log "libs.command.command" DEBUG "Found sub-command";
        Log "libs.command.command" DEBUG "Letting this command ('stuck') have a go";
        RunCommand "stuck";
        Stdout (String "^" (String "C" (String newline "")))]
  /\ (run sampleRoot (selecting 0 (Some "stuck")) emptyLogging).2 = Returned 1%Z.
Proof.
  assert (H : _runCommand sampleRoot
      (runArgs (selecting 0 (Some "stuck"))
         (configured sampleRoot (selecting 0 (Some "stuck")) emptyLogging).1)
    = ([Log "libs.command.command" DEBUG "Letting this command ('root') have a go";
        RunCommand "root";
        Log "libs.command.command" DEBUG "Sub-command 'stuck' invoked, finding it...";
        Log "libs.command.command" DEBUG "Found sub-command";
        Log "libs.command.command" DEBUG "Letting this command ('stuck') have a go";
        RunCommand "stuck"],
       Raised KeyboardInterrupt)) by (vm_compute; reflexivity).
  split; [exact H |].
  rewrite (interrupt_is_caught sampleRoot (selecting 0 (Some "stuck")) emptyLogging _ H).
  split; reflexivity.
Defined.

(** ** The handlers of the loggers *)

(** C4, on the interrupted path: [run] returns 1 from the [except] branch
    and the handler it gave the logger of the package stays on it. *)
Theorem interrupt_leaves_handler :
  (run sampleRoot (selecting 0 (Some "stuck")) emptyLogging).2 = Returned 1%Z
  /\ handlers (theLogger (NamedLogger "libs") emptyLogging) = []
  /\ handlers (theLogger (NamedLogger "libs")
                 (run sampleRoot (selecting 0 (Some "stuck")) emptyLogging).1.1)
     = [0%nat].
Proof. vm_compute. repeat split; reflexivity. Qed.

(** The path that returns takes the handler off again, on a registry
    whose loggers had none. *)
Lemma returning_run_removes_handler :
  (run sampleRoot (selecting 0 (Some "greet")) emptyLogging).2 = Returned 0%Z
  /\ handlers (theLogger (NamedLogger "libs")
                 (run sampleRoot (selecting 0 (Some "greet")) emptyLogging).1.1)
     = [].
Proof. vm_compute. split; reflexivity. Qed.

(** On the path that returns, the handler taken off is the first of the
    list: one that was there before stays off and the new one stays on. *)
Lemma first_handler_removed_instead :
  (run sampleRoot (selecting 0 (Some "greet")) withHandler).2 = Returned 0%Z
  /\ handlers (theLogger (NamedLogger "libs") withHandler) = [7%nat]
  /\ handlers (theLogger (NamedLogger "libs")
                 (run sampleRoot (selecting 0 (Some "greet")) withHandler).1.1)
     = [8%nat].
Proof. vm_compute. repeat split; reflexivity. Qed.

(** ** The plugin loader *)

(** An entry point whose module is not there: the exception of the import
    leaves the loop as it is, nothing is written and no status returned. *)
Lemma missing_module_raises (modules : string -> option Package.PyModule)
    (e : Package.EntryPoint) (rest : list Package.EntryPoint)
    (module_ class_ : text) (subCommands : list Command) (lg : Logging) :
  split ":"%char (txt (Package.ep_value e)) = [module_; class_] ->
  modules (string_of_list_ascii module_) = None ->
  Package.loadEntryPoints modules (e :: rest) subCommands lg
    = (lg, [], Raised ModuleNotFoundError).
Proof.
  intros Hsplit Hmod. cbn [Package.loadEntryPoints]. rewrite Hsplit.
  unfold Package.import_module. rewrite Hmod. reflexivity.
Qed.

(** C8, at an entry point that names a module that does not exist: the
    loader raises [ModuleNotFoundError]; it writes no error and returns no
    status. *)
Theorem missing_module_is_not_reported (parsed : Parsed) :
  Package.run "pyer.commands" [lostEntryPoint] noModules parsed emptyLogging
    = (emptyLogging, [], Raised ModuleNotFoundError).
Proof. reflexivity. Qed.

(** The three registrations the loader does check: each writes its error
    through [Terminal.error] and ends the run with -1. *)
Lemma checked_registrations_abort (modules : string -> option Package.PyModule)
    (e : Package.EntryPoint) (rest : list Package.EntryPoint)
    (subCommands : list Command) (lg : Logging) :
  (length (split ":"%char (txt (Package.ep_value e))) <> 2%nat
   \/ exists module_ class_ m,
        split ":"%char (txt (Package.ep_value e)) = [module_; class_]
        /\ modules (string_of_list_ascii module_) = Some m
        /\ (m (string_of_list_ascii class_) = None
            \/ m (string_of_list_ascii class_) = Some None)) ->
  exists msg,
    Package.loadEntryPoints modules (e :: rest) subCommands lg
      = (lg, io_error msg, Returned (Package.Aborted (-1))).
Proof.
  intros [Hlen | (module_ & class_ & m & Hsplit & Hmod & Hcls)];
    cbn [Package.loadEntryPoints].
  - destruct (split ":"%char (txt (Package.ep_value e))) as [| a [| b [| c l]]];
      cbn in Hlen; try congruence; eexists; reflexivity.
  - rewrite Hsplit. unfold Package.import_module. rewrite Hmod.
    destruct Hcls as [-> | ->]; eexists; reflexivity.
Qed.

(** ** Levels *)

Lemma theLogger_setLogger_eq (r : logger_ref) (l : Logger) (lg : Logging) :
  theLogger r (setLogger r l lg) = l.
Proof.
  destruct r as [| name]; cbn; [reflexivity |].
  rewrite lookup_insert_eq. reflexivity.
Qed.

Lemma theLogger_setLogger_ne (r r' : logger_ref) (l : Logger) (lg : Logging) :
  r <> r' -> theLogger r (setLogger r' l lg) = theLogger r lg.
Proof.
  intros Hne. destruct r as [| name], r' as [| name']; cbn; try congruence.
  rewrite lookup_insert_ne by congruence. reflexivity.
Qed.

Lemma level_setLevel (r r' : logger_ref) (lvl : Z) (lg : Logging) :
  level (theLogger r (setLevel r' lvl lg))
    = if decide (r = r') then lvl else level (theLogger r lg).
Proof.
  unfold setLevel. destruct (decide (r = r')) as [-> | Hne].
  - rewrite theLogger_setLogger_eq. reflexivity.
  - rewrite theLogger_setLogger_ne by exact Hne. reflexivity.
Qed.

Lemma theLogger_StreamHandler (r : logger_ref) (lg : Logging) :
  theLogger r (StreamHandler lg).2 = theLogger r lg.
Proof. destruct r; reflexivity. Qed.

Lemma level_addHandler (r r' : logger_ref) (h : nat) (lg : Logging) :
  level (theLogger r (addHandler r' h lg)) = level (theLogger r lg).
Proof.
  unfold addHandler. case_bool_decide; [reflexivity |].
  destruct (decide (r = r')) as [-> | Hne].
  - rewrite theLogger_setLogger_eq. reflexivity.
  - rewrite theLogger_setLogger_ne by exact Hne. reflexivity.
Qed.

(** One turn of the configuring loop gives its logger the level and leaves
    the level of the others alone. *)
Lemma level_configure_step (v : Z) (r r' : logger_ref) (lg : Logging) :
  level (theLogger r
           (addHandler r' (StreamHandler (setLevel r' (levelFor v) lg)).1
              (StreamHandler (setLevel r' (levelFor v) lg)).2))
    = if decide (r = r') then levelFor v else level (theLogger r lg).
Proof.
  rewrite level_addHandler, theLogger_StreamHandler. apply level_setLevel.
Qed.

Lemma configureLoggers_keeps_level (v : Z) (loggers : list logger_ref)
    (r : logger_ref) (lg : Logging) :
  level (theLogger r lg) = levelFor v ->
  level (theLogger r (configureLoggers v loggers lg)) = levelFor v.
Proof.
  revert lg. induction loggers as [| r' loggers IH]; intros lg Hlvl; [exact Hlvl |].
  cbn [configureLoggers].
  destruct (StreamHandler (setLevel r' (levelFor v) lg)) as [h lg1] eqn:Hsh.
  apply IH.
  pose proof (level_configure_step v r r' lg) as Hstep.
  rewrite Hsh in Hstep. cbn [fst snd] in Hstep. rewrite Hstep.
  destruct (decide (r = r')); [reflexivity | exact Hlvl].
Qed.

(** Every logger the loop visits ends at the level of the count. *)
Lemma configureLoggers_sets_level (v : Z) (loggers : list logger_ref)
    (r : logger_ref) (lg : Logging) :
  r ∈ loggers ->
  level (theLogger r (configureLoggers v loggers lg)) = levelFor v.
Proof.
  revert lg. induction loggers as [| r' loggers IH]; intros lg Hin.
  - inversion Hin.
  - cbn [configureLoggers].
    destruct (StreamHandler (setLevel r' (levelFor v) lg)) as [h lg1] eqn:Hsh.
    pose proof (level_configure_step v r r' lg) as Hstep.
    rewrite Hsh in Hstep. cbn [fst snd] in Hstep.
    destruct (decide (r = r')) as [-> | Hne].
    + apply configureLoggers_keeps_level. exact Hstep.
    + apply IH. apply elem_of_cons in Hin as [? | ?]; [congruence | assumption].
Qed.

(** The parents of a logger are read off the registered names alone. *)
Lemma lineage_same_dict (fuel : nat) (lg lg' : Logging) (name : string) :
  loggerDict lg' = loggerDict lg -> lineage fuel lg' name = lineage fuel lg name.
Proof.
  intros Hdict. revert name. induction fuel as [| fuel IH]; intros name; [reflexivity |].
  cbn [lineage]. unfold parentLogger. rewrite Hdict.
  destruct (List.find _ _); [rewrite IH |]; reflexivity.
Qed.

Lemma find_none_of_Forall {A} (f : A -> bool) (l : list A) :
  Forall (fun x => f x = false) l -> List.find f l = None.
Proof.
  induction 1 as [| x l Hx _ IH]; [reflexivity |]. cbn. rewrite Hx. exact IH.
Qed.

(** With five or more [-v] the loop runs once, on the root logger. *)
Lemma configured_verbose (self : Command) (parsed : Parsed) (lg : Logging) :
  (5 <= p_verbose parsed)%Z ->
  configured self parsed lg
    = ([RootLogger],
       addHandler RootLogger (handlerCount lg)
         (StreamHandler (setLevel RootLogger DEBUG lg)).2).
Proof.
  intros Hv. unfold configured, selectLoggers.
  replace (p_verbose parsed >=? 5)%Z with true by (symmetry; apply Z.geb_le; lia).
  cbn [configureLoggers]. unfold levelFor.
  replace (p_verbose parsed >=? 4)%Z with true by (symmetry; apply Z.geb_le; lia).
  reflexivity.
Qed.

(** C9, as the code has it.  With five or more [-v] the one logger
    configured is the root logger, set to [DEBUG]: a logging namespace is
    then at debug level when no level is set on it or on a registered
    ancestor.  With no [-v] every selected logger is set to [CRITICAL]. *)
Theorem verbosity_levels (self : Command) (parsed : Parsed) (lg : Logging) :
  ((5 <= p_verbose parsed)%Z ->
   (configured self parsed lg).1 = [RootLogger]
   /\ level (root (configured self parsed lg).2) = DEBUG
   /\ forall name : string,
        Forall (fun n => levelOf lg n = NOTSET) (lineage (String.length name) lg name) ->
        getEffectiveLevel (NamedLogger name) (configured self parsed lg).2 = DEBUG)
  /\ (p_verbose parsed = 0%Z ->
      forall r : logger_ref,
        r ∈ (configured self parsed lg).1 ->
        level (theLogger r (configured self parsed lg).2) = CRITICAL).
Proof.
  split.
  - intros Hv. rewrite (configured_verbose self parsed lg Hv). cbn [fst snd].
    assert (Hroot : level (root (addHandler RootLogger (handlerCount lg)
                     (StreamHandler (setLevel RootLogger DEBUG lg)).2)) = DEBUG).
    { unfold addHandler. case_bool_decide; reflexivity. }
    assert (Hdict : loggerDict (addHandler RootLogger (handlerCount lg)
                     (StreamHandler (setLevel RootLogger DEBUG lg)).2) = loggerDict lg).
    { unfold addHandler. case_bool_decide; reflexivity. }
    split; [reflexivity |]. split; [exact Hroot |].
    intros name Hall. cbn [getEffectiveLevel].
    rewrite (lineage_same_dict _ lg _ name Hdict).
    rewrite find_none_of_Forall; [exact Hroot |].
    eapply Forall_impl; [exact Hall |].
    intros n Hn. cbn beta. unfold levelOf in *. rewrite Hdict, Hn. reflexivity.
  - intros Hv r Hin. unfold configured in *.
    destruct (selectLoggers self parsed lg) as [loggers lg1]. cbn [fst snd] in *.
    rewrite (configureLoggers_sets_level _ _ r lg1 Hin). rewrite Hv. reflexivity.
Qed.

Lemma verbosity_levels_witness :
  ((configured sampleRoot (selecting 5 (Some "greet")) emptyLogging).1 = [RootLogger]
   /\ getEffectiveLevel (NamedLogger "some.other.package")
        (configured sampleRoot (selecting 5 (Some "greet")) emptyLogging).2 = DEBUG)
  /\ level (theLogger (NamedLogger "libs")
              (configured sampleRoot (selecting 0 (Some "greet")) emptyLogging).2)
     = CRITICAL.
Proof.
  split.
  - destruct (verbosity_levels sampleRoot (selecting 5 (Some "greet")) emptyLogging)
      as [Hfive _].
    destruct Hfive as (Hsel & _ & Hall); [cbn; lia |].
    split; [exact Hsel |]. apply Hall. vm_compute. repeat constructor.
  - destruct (verbosity_levels sampleRoot (selecting 0 (Some "greet")) emptyLogging)
      as [_ Hzero].
    apply Hzero; [reflexivity |]. vm_compute. apply list_elem_of_here.
Defined.

(** C9 as the spec words it does not hold: after a run without [-v] in the
    same process the logger of the package keeps the level [CRITICAL], and
    a run with five [-v] leaves it, a registered namespace, disabled for
    debug records. *)
Lemma explicit_level_survives_verbose_run :
  ~ (forall (self : Command) (parsed : Parsed) (lg : Logging) (name : string),
       (5 <= p_verbose parsed)%Z ->
       is_Some (loggerDict (configured self parsed lg).2 !! name) ->
       isEnabledFor (NamedLogger name) DEBUG (configured self parsed lg).2 = true).
Proof.
  intros H.
  specialize (H sampleRoot (selecting 5 (Some "greet")) afterQuietRun "libs").
  assert (Hfalse : isEnabledFor (NamedLogger "libs") DEBUG
            (configured sampleRoot (selecting 5 (Some "greet")) afterQuietRun).2 = false)
    by (vm_compute; reflexivity).
  rewrite H in Hfalse; [discriminate | cbn; lia |].
  vm_compute. eexists. reflexivity.
Qed.

(** ** The reflow: lines and paragraphs *)

Lemma split_cons_nonempty (sep : ascii) (s : text) : split sep s <> [].
Proof. destruct s as [| c s]; cbn; [discriminate |]. repeat case_match; discriminate. Qed.

(** Splitting at line feeds undoes joining with line feeds. *)
Lemma split_join (L : list text) :
  L <> [] -> Forall (fun l => newline ∉ l) L -> split newline (join nl L) = L.
Proof.
  induction L as [| l L IH]; [congruence |]. intros _ Hall.
  apply Forall_cons in Hall as [Hl HL].
  assert (Hline : forall rest, split newline (l ++ newline :: rest)
                               = l :: split newline rest).
  { intros rest. induction l as [| c l IHl]; cbn [app split].
    - rewrite Ascii.eqb_refl. reflexivity.
    - apply not_elem_of_cons in Hl as [Hc Hl].
      destruct (Ascii.eqb_spec c newline) as [-> | _]; [congruence |].
      rewrite (IHl Hl). reflexivity. }
  destruct L as [| l' L].
  - cbn [join]. clear IH Hline. induction l as [| c l IHl]; [reflexivity |].
    apply not_elem_of_cons in Hl as [Hc Hl]. cbn [split].
    destruct (Ascii.eqb_spec c newline) as [-> | _]; [congruence |].
    rewrite (IHl Hl). reflexivity.
  - change (join nl (l :: l' :: L)) with (l ++ newline :: join nl (l' :: L)).
    rewrite Hline, IH; [reflexivity | discriminate | exact HL].
Qed.

(** Once a line has been kept, every later line is kept, stripped. *)
Lemma collectLines_started (raw lines : list text) :
  lines <> [] -> collectLines raw lines = lines ++ map strip raw.
Proof.
  revert lines. induction raw as [| l raw IH]; intros lines Hne; cbn [collectLines map].
  - rewrite app_nil_r. reflexivity.
  - destruct lines as [| l0 lines]; [congruence |].
    cbn [length Nat.ltb Nat.leb]. rewrite andb_false_r.
    rewrite IH by (destruct lines; discriminate).
    rewrite <- app_assoc. reflexivity.
Qed.

Lemma collectLines_app (raw1 raw2 lines : list text) :
  collectLines (raw1 ++ raw2) lines = collectLines raw2 (collectLines raw1 lines).
Proof.
  revert lines. induction raw1 as [| l raw1 IH]; intros lines; [reflexivity |].
  cbn [app collectLines]. destruct (_ && _); apply IH.
Qed.

Lemma length_ltb_1 {A} (l : list A) : (length l <? 1)%nat = true <-> l = [].
Proof. destruct l; cbn; split; congruence. Qed.

(** A line that is not blank is kept, whatever came before. *)
Lemma collectLines_snoc (raw lines : list text) (a : text) :
  strip a <> [] ->
  collectLines (raw ++ [a]) lines = collectLines raw lines ++ [strip a].
Proof.
  intros Ha. rewrite collectLines_app. cbn [collectLines].
  replace (length (strip a) <? 1)%nat with false; [reflexivity |].
  symmetry. apply not_true_iff_false. rewrite length_ltb_1. exact Ha.
Qed.

Lemma slice_snoc {A} (pre rest : list A) (l : A) (s : nat) :
  (s <= length pre)%nat ->
  slice (pre ++ l :: rest) s (S (length pre)) = slice (pre ++ l :: rest) s (length pre) ++ [l].
Proof.
  intros Hs. unfold slice.
  rewrite drop_app_le by exact Hs.
  replace (S (length pre) - s)%nat with (length (drop s pre) + 1)%nat
    by (rewrite length_drop; lia).
  replace (length pre - s)%nat with (length (drop s pre)) by (rewrite length_drop; lia).
  rewrite take_app_length.
  rewrite take_app_add'; reflexivity.
Qed.

Lemma slice_here {A} (pre rest : list A) (l : A) :
  slice (pre ++ l :: rest) (length pre) (S (length pre)) = [l].
Proof.
  unfold slice. rewrite drop_app_length.
  replace (S (length pre) - length pre)%nat with 1%nat by lia. reflexivity.
Qed.

(** The loop over the indices and the pass over the lines agree. *)
Lemma group_fold (rest pre : list text) (g : grouping) :
  match paragraphStart g with Some s => (s <= length pre)%nat | None => True end ->
  closeParagraphs (pre ++ rest)
    (fold_left (groupStep (pre ++ rest)) (seq (length pre) (length rest)) g)
  = paragraphs g
      ++ group (option_map (fun s => slice (pre ++ rest) s (length pre)) (paragraphStart g))
           (blankLineCount g) rest.
Proof.
  revert pre g. induction rest as [| l rest IH]; intros pre g Hs.
  - cbn [length seq fold_left group]. unfold closeParagraphs.
    destruct (paragraphStart g) as [s |]; cbn [option_map].
    + unfold slice. rewrite app_nil_r.
      rewrite take_ge by (rewrite length_drop; lia). reflexivity.
    + rewrite app_nil_r. reflexivity.
  - cbn [length seq fold_left].
    replace (pre ++ l :: rest) with ((pre ++ [l]) ++ rest) in *
      by (rewrite <- app_assoc; reflexivity).
    replace (S (length pre)) with (length (pre ++ [l])) by (rewrite length_app; cbn; lia).
    assert (Hnth : nth (length pre) ((pre ++ [l]) ++ rest) [] = l).
    { rewrite <- app_assoc. rewrite app_nth2 by lia.
      replace (length pre - length pre)%nat with 0%nat by lia. reflexivity. }
    rewrite IH.
    + unfold groupStep. rewrite Hnth. cbn [group].
      replace (length (pre ++ [l])) with (S (length pre)) by (rewrite length_app; cbn; lia).
      replace ((pre ++ [l]) ++ rest) with (pre ++ l :: rest)
        by (rewrite <- app_assoc; reflexivity).
      destruct (length l <? 1)%nat, (paragraphStart g) as [s |] eqn:Hstart;
        cbn [paragraphs paragraphStart blankLineCount option_map].
      * rewrite <- app_assoc. reflexivity.
      * reflexivity.
      * rewrite Hstart. cbn [option_map]. rewrite slice_snoc by exact Hs. reflexivity.
      * destruct (0 <? blankLineCount g)%nat eqn:Hb;
          cbn [paragraphs paragraphStart blankLineCount option_map];
          rewrite slice_here.
        -- rewrite <- app_assoc. reflexivity.
        -- apply Nat.ltb_ge in Hb. replace (blankLineCount g) with 0%nat by lia.
           reflexivity.
    + unfold groupStep. rewrite Hnth. rewrite length_app. cbn [length].
      destruct (length l <? 1)%nat, (paragraphStart g) as [s |] eqn:Hstart;
        cbn [paragraphStart]; try exact I.
      * rewrite Hstart. lia.
      * destruct (0 <? blankLineCount g)%nat; cbn [paragraphStart]; lia.
Qed.

Lemma groupParagraphs_group (lines : list text) :
  groupParagraphs lines = group (Some []) 0 lines.
Proof.
  pose proof (group_fold lines []
                {| paragraphs := []; paragraphStart := Some 0%nat; blankLineCount := 0 |})
    as H.
  cbn [app length paragraphStart paragraphs blankLineCount option_map] in H.
  unfold groupParagraphs. unfold closeParagraphs in H. rewrite H by lia. reflexivity.
Qed.

Lemma group_blank (cur : option (list text)) (b : nat) (rest : list text) :
  group cur b ([] :: rest)
    = match cur with
      | Some p => p :: group None 1 rest
      | None => group None (S b) rest
      end.
Proof. reflexivity. Qed.

Lemma group_text (cur : option (list text)) (b : nat) (l : text) (rest : list text) :
  l <> [] ->
  group cur b (l :: rest)
    = match cur with
      | None => repeat [] b ++ group (Some [l]) 0 rest
      | Some p => group (Some (p ++ [l])) b rest
      end.
Proof.
  intros Hl. cbn [group].
  replace (length l <? 1)%nat with false; [reflexivity |].
  symmetry. apply not_true_iff_false. rewrite length_ltb_1. exact Hl.
Qed.

(** While a paragraph is open the count of blank lines is not read. *)
Lemma group_open_count (p : list text) (b b' : nat) (rest : list text) :
  group (Some p) b rest = group (Some p) b' rest.
Proof.
  revert p. induction rest as [| l rest IH]; intros p; [reflexivity |].
  destruct l as [| c l]; [reflexivity |].
  rewrite !group_text by discriminate. apply IH.
Qed.

(** Lines that end in a line with text leave a paragraph open: what
    follows them is grouped from that open paragraph on. *)
Lemma group_open_after (A : list text) (a : text) (cur : option (list text)) (b : nat) :
  a <> [] ->
  exists Q p, forall X, group cur b (A ++ a :: X) = Q ++ group (Some p) 0 X.
Proof.
  intros Ha. revert cur b. induction A as [| l A IH]; intros cur b.
  - destruct cur as [p |].
    + exists [], (p ++ [a]). intros X. cbn [app]. rewrite group_text by exact Ha.
      apply group_open_count.
    + exists (repeat [] b), [a]. intros X. cbn [app]. rewrite group_text by exact Ha.
      reflexivity.
  - destruct l as [| c l], cur as [p |].
    + destruct (IH None 1%nat) as (Q & p' & H). exists (p :: Q), p'.
      intros X. cbn [app]. rewrite group_blank, H. reflexivity.
    + destruct (IH None (S b)) as (Q & p' & H). exists Q, p'.
      intros X. cbn [app]. rewrite group_blank, H. reflexivity.
    + destruct (IH (Some (p ++ [c :: l])) b) as (Q & p' & H). exists Q, p'.
      intros X. cbn [app]. rewrite group_text by discriminate. apply H.
    + destruct (IH (Some [c :: l]) 0%nat) as (Q & p' & H). exists (repeat [] b ++ Q), p'.
      intros X. cbn [app]. rewrite group_text by discriminate.
      rewrite H, app_assoc. reflexivity.
Qed.

(** Blank lines met with no paragraph open are counted. *)
Lemma group_blank_run (n b : nat) (rest : list text) :
  group None b (repeat [] n ++ rest) = group None (n + b) rest.
Proof.
  revert b. induction n as [| n IH]; intros b; [reflexivity |].
  cbn [repeat app]. rewrite group_blank, IH. f_equal. lia.
Qed.

(** Paragraphs on both sides of a run of blank lines. *)
Lemma group_between (A B : list text) (a b : text) (n : nat) :
  a <> [] -> b <> [] ->
  group (Some []) 0 (A ++ a :: repeat [] (S n) ++ b :: B)
    = group (Some []) 0 (A ++ [a]) ++ repeat [] (S n) ++ group (Some []) 0 (b :: B).
Proof.
  intros Ha Hb.
  destruct (group_open_after A a (Some []) 0%nat Ha) as (Q & p & H).
  rewrite !H. cbn [repeat app]. rewrite group_blank, group_blank_run.
  rewrite !group_text by exact Hb. cbn [group app].
  replace (n + 1)%nat with (S n) by lia.
  rewrite <- app_assoc. reflexivity.
Qed.

(** Blank lines after the last paragraph add nothing. *)
Lemma group_trailing (A : list text) (a : text) (n : nat) :
  a <> [] ->
  group (Some []) 0 (A ++ a :: repeat [] n) = group (Some []) 0 (A ++ [a]).
Proof.
  intros Ha.
  destruct (group_open_after A a (Some []) 0%nat Ha) as (Q & p & H).
  rewrite !H.
  f_equal. destruct n as [| n]; [reflexivity |].
  cbn [repeat]. rewrite group_blank.
  pose proof (group_blank_run n 1 []) as Hrun. rewrite app_nil_r in Hrun.
  rewrite Hrun. reflexivity.
Qed.

Lemma map_strip_blank (blanks : list text) :
  Forall (fun l => strip l = []) blanks -> map strip blanks = repeat [] (length blanks).
Proof.
  induction 1 as [| l blanks Hl _ IH]; [reflexivity |]. cbn. rewrite Hl, IH. reflexivity.
Qed.

Lemma renderParagraph_empty (n : nat) :
  map renderParagraph (repeat [] n) = repeat [space] n.
Proof. induction n as [| n IH]; [reflexivity |]. cbn [repeat map]. rewrite IH. reflexivity. Qed.

Lemma descriptionParagraphs_lines (L : list text) :
  L <> [] -> Forall (fun l => newline ∉ l) L ->
  descriptionParagraphs (join nl L)
    = map renderParagraph (group (Some []) 0 (collectLines L [])).
Proof.
  intros Hne Hall. unfold descriptionParagraphs.
  rewrite split_join by assumption. rewrite groupParagraphs_group. reflexivity.
Qed.

(** Lines up to a line with text, and what follows them. *)
Lemma collectLines_after (A X : list text) (a : text) :
  strip a <> [] ->
  collectLines (A ++ [a] ++ X) [] = (collectLines A [] ++ [strip a]) ++ map strip X
  /\ collectLines (A ++ [a]) [] = collectLines A [] ++ [strip a].
Proof.
  intros Ha. split; [| apply collectLines_snoc; exact Ha].
  rewrite app_assoc, collectLines_app, collectLines_snoc by exact Ha.
  apply collectLines_started. destruct (collectLines A []); discriminate.
Qed.

Lemma collectLines_text_first (B : list text) (b : text) :
  strip b <> [] -> collectLines ([b] ++ B) [] = strip b :: map strip B.
Proof.
  intros Hb. destruct (collectLines_after [] B b Hb) as [H _]. exact H.
Qed.

Lemma Forall_app_l {A} (P : A -> Prop) (l1 l2 : list A) :
  Forall P (l1 ++ l2) -> Forall P l1.
Proof. intros H. apply Forall_app in H as [H _]. exact H. Qed.

Lemma Forall_app_r {A} (P : A -> Prop) (l1 l2 : list A) :
  Forall P (l1 ++ l2) -> Forall P l2.
Proof. intros H. apply Forall_app in H as [_ H]. exact H. Qed.

(** C6: [blanks], one or more blank lines between a line [a] and a line
    [b] that both have text, come out as that many single-space
    paragraphs, between the paragraphs of what precedes them and the
    paragraphs of what follows. *)
Theorem blank_runs_are_kept (A B blanks : list text) (a b : text) :
  Forall (fun l => newline ∉ l) (A ++ [a] ++ blanks ++ [b] ++ B) ->
  strip a <> [] -> strip b <> [] ->
  Forall (fun l => strip l = []) blanks -> blanks <> [] ->
  descriptionParagraphs (join nl (A ++ [a] ++ blanks ++ [b] ++ B))
    = descriptionParagraphs (join nl (A ++ [a]))
        ++ repeat [space] (length blanks)
        ++ descriptionParagraphs (join nl ([b] ++ B))
  /\ docDescription (join nl (A ++ [a] ++ blanks ++ [b] ++ B))
     = join nl (descriptionParagraphs (join nl (A ++ [a]))
                  ++ repeat [space] (length blanks)
                  ++ descriptionParagraphs (join nl ([b] ++ B))).
Proof.
  intros Hnl Ha Hb Hblank Hne.
  assert (Heq : descriptionParagraphs (join nl (A ++ [a] ++ blanks ++ [b] ++ B))
    = descriptionParagraphs (join nl (A ++ [a]))
        ++ repeat [space] (length blanks)
        ++ descriptionParagraphs (join nl ([b] ++ B))).
  { rewrite (descriptionParagraphs_lines (A ++ [a] ++ blanks ++ [b] ++ B));
      [| destruct A; discriminate | exact Hnl].
    rewrite (descriptionParagraphs_lines (A ++ [a]));
      [| destruct A; discriminate
       | rewrite app_assoc in Hnl; exact (Forall_app_l _ _ _ Hnl)].
    rewrite (descriptionParagraphs_lines ([b] ++ B));
      [| discriminate
       | exact (Forall_app_r _ _ _ (Forall_app_r _ _ _ (Forall_app_r _ _ _ Hnl)))].
    destruct (collectLines_after A (blanks ++ [b] ++ B) a Ha) as [-> ->].
    rewrite (collectLines_text_first B b Hb).
    rewrite map_app, (map_strip_blank blanks Hblank).
    destruct blanks as [| l blanks]; [congruence |]. cbn [length app map].
    rewrite <- app_assoc. cbn [app].
    rewrite (group_between (collectLines A []) (map strip B) (strip a) (strip b)
               (length blanks) Ha Hb).
    rewrite !map_app, renderParagraph_empty. reflexivity. }
  split; [exact Heq |]. unfold docDescription. rewrite Heq. reflexivity.
Qed.

(** C10: blank lines after the last line with text are dropped: the
    paragraphs are those of the text without them. *)
Theorem trailing_blank_lines_are_dropped (A blanks : list text) (a : text) :
  Forall (fun l => newline ∉ l) (A ++ [a] ++ blanks) ->
  strip a <> [] ->
  Forall (fun l => strip l = []) blanks ->
  descriptionParagraphs (join nl (A ++ [a] ++ blanks))
    = descriptionParagraphs (join nl (A ++ [a]))
  /\ docDescription (join nl (A ++ [a] ++ blanks)) = docDescription (join nl (A ++ [a])).
Proof.
  intros Hnl Ha Hblank.
  assert (Heq : descriptionParagraphs (join nl (A ++ [a] ++ blanks))
                = descriptionParagraphs (join nl (A ++ [a]))).
  { rewrite (descriptionParagraphs_lines (A ++ [a] ++ blanks));
      [| destruct A; discriminate | exact Hnl].
    rewrite (descriptionParagraphs_lines (A ++ [a]));
      [| destruct A; discriminate
       | rewrite app_assoc in Hnl; exact (Forall_app_l _ _ _ Hnl)].
    destruct (collectLines_after A blanks a Ha) as [-> ->].
    rewrite (map_strip_blank blanks Hblank), <- app_assoc. cbn [app].
    rewrite (group_trailing (collectLines A []) (strip a) (length blanks) Ha).
    reflexivity. }
  split; [exact Heq |]. unfold docDescription. rewrite Heq. reflexivity.
Qed.

Lemma blank_runs_are_kept_witness :
  descriptionParagraphs spacedDoc
    = [txt "Copies the files."; [space]; [space]; txt "Nothing is overwritten."]
  /\ docDescription spacedDoc
     = join nl [txt "Copies the files."; [space]; [space]; txt "Nothing is overwritten."].
Proof.
  apply (blank_runs_are_kept [] [txt "    "] [txt ""; txt "    "]
           (txt "Copies the files.") (txt "    Nothing is overwritten.")).
  - apply (bool_decide_unpack _). vm_compute. exact I.
  - vm_compute. discriminate.
  - vm_compute. discriminate.
  - repeat constructor.
  - discriminate.
Defined.

Lemma trailing_blank_lines_are_dropped_witness :
  descriptionParagraphs ExampleCommand_doc = descriptionParagraphs (txt "An example command")
  /\ docDescription ExampleCommand_doc = docDescription (txt "An example command").
Proof.
  apply (trailing_blank_lines_are_dropped [] [txt "    "] (txt "An example command")).
  - apply (bool_decide_unpack _). vm_compute. exact I.
  - vm_compute. discriminate.
  - repeat constructor.
Defined.

(** ** Construction without help text *)

Lemma collectLines_blank (raw : list text) :
  Forall (fun l => strip l = []) raw -> collectLines raw [] = [].
Proof.
  induction 1 as [| l raw Hl _ IH]; [reflexivity |].
  cbn [collectLines]. rewrite Hl. exact IH.
Qed.

(** A docstring without text has one paragraph, a single space. *)
Lemma descriptionParagraphs_blank (doc : text) :
  Forall (fun l => strip l = []) (split newline doc) ->
  descriptionParagraphs doc = [[space]].
Proof.
  intros Hall. unfold descriptionParagraphs. rewrite (collectLines_blank _ Hall).
  reflexivity.
Qed.

Lemma group_nonempty (p : list text) (b : nat) (rest : list text) :
  group (Some p) b rest <> [].
Proof.
  revert p b. induction rest as [| l rest IH]; intros p b; [discriminate |].
  destruct l as [| c l]; [discriminate |].
  rewrite group_text by discriminate. apply IH.
Qed.

(** There is always a first paragraph: [descriptionParagraphs[0]] does not
    raise. *)
Lemma descriptionParagraphs_nonempty (doc : text) : descriptionParagraphs doc <> [].
Proof.
  unfold descriptionParagraphs. rewrite groupParagraphs_group.
  pose proof (group_nonempty [] 0 (collectLines (split newline doc) [])) as H.
  destruct (group _ _ _); [congruence | discriminate].
Qed.

(** The description of a command built from its docstring is the
    rendered reflow of that docstring, and its help text the first
    paragraph. *)
Lemma constructed_from_docstring (doc : text) (moduleLocation : string)
    (handler : Namespace -> list event * outcome (option Z)) (name : string)
    (subCommands : option (list Command)) (lg : Logging) :
  exists c : Command,
    (__init__ (Some doc) moduleLocation handler name None None subCommands lg).2
      = Returned c
    /\ docHelp doc = Some (_help c)
    /\ _description c = docDescription doc.
Proof.
  unfold __init__, docHelp.
  pose proof (descriptionParagraphs_nonempty doc) as Hne.
  destruct (descriptionParagraphs doc) as [| h t] eqn:Hd; [congruence |].
  cbn [head]. destruct (getLogger moduleLocation lg) as [r lg'].
  eexists. split; [reflexivity |]. split; reflexivity.
Qed.

(** C7, as the code has it.  Without a help text or without a description,
    a class with no docstring makes the constructor raise
    [AttributeError]; a docstring with no text in it does not: the help
    text and the description it yields are a single space each. *)
Theorem construction_without_text (moduleLocation : string)
    (handler : Namespace -> list event * outcome (option Z)) (name : string)
    (help description : option text) (subCommands : option (list Command))
    (lg : Logging) :
  help = None \/ description = None ->
  __init__ None moduleLocation handler name help description subCommands lg
    = (lg, Raised AttributeError)
  /\ forall doc : text,
       Forall (fun l => strip l = []) (split newline doc) ->
       exists c : Command,
         (__init__ (Some doc) moduleLocation handler name help description
            subCommands lg).2 = Returned c
         /\ _help c = default [space] help
         /\ _description c = default [space] description.
Proof.
  intros Hnone. split.
  - unfold __init__. destruct Hnone as [-> | ->]; [| destruct help]; reflexivity.
  - intros doc Hblank. unfold __init__, docHelp, docDescription.
    rewrite (descriptionParagraphs_blank doc Hblank).
    destruct (getLogger moduleLocation lg) as [r lg'].
    destruct Hnone as [-> | ->]; [destruct description | destruct help];
      cbn [head]; eexists; (split; [reflexivity | split; reflexivity]).
Qed.

Lemma construction_without_text_witness :
  __init__ None "libs.example" defaultRunCommand "example" None None None emptyLogging
    = (emptyLogging, Raised AttributeError)
  /\ exists c : Command,
       (__init__ (Some (txt "   ")) "libs.example" defaultRunCommand "example" None None
          None emptyLogging).2 = Returned c
       /\ _help c = [space] /\ _description c = [space].
Proof.
  destruct (construction_without_text "libs.example" defaultRunCommand "example"
              None None None emptyLogging (or_introl eq_refl)) as [Habsent Hblank].
  split; [exact Habsent |].
  apply (Hblank (txt "   ")). repeat constructor.
Defined.

(** C7 as the spec words it does not hold: with the empty docstring and
    no help text given, the constructor returns a command whose help text
    is a single space. *)
Lemma empty_docstring_is_accepted :
  ~ (forall (doc : option text) (help description : option text),
       doc = None \/ doc = Some [] ->
       help = None \/ description = None ->
       exists e : exn,
         (__init__ doc "libs.example" defaultRunCommand "example" help description
            None emptyLogging).2 = Raised e).
Proof.
  intros H.
  destruct (H (Some []) None None (or_intror eq_refl) (or_introl eq_refl)) as [e He].
  vm_compute in He. discriminate He.
Qed.

(** ** The turns of the wrapping loop *)

(** What [fill_line] takes and what it leaves. *)
Lemma fill_line_spec (width : nat) (chunks cur_line : list text) (cur_len : nat) :
  exists taken,
    chunks = taken ++ (fill_line width cur_line cur_len chunks).2
    /\ (fill_line width cur_line cur_len chunks).1.2
       = (cur_len + length (concat taken))%nat
    /\ ((cur_len <= width)%nat ->
        ((fill_line width cur_line cur_len chunks).1.2 <= width)%nat)
    /\ match (fill_line width cur_line cur_len chunks).2 with
       | c :: _ => (width < (fill_line width cur_line cur_len chunks).1.2 + length c)%nat
       | [] => True
       end.
Proof.
  revert cur_line cur_len. induction chunks as [| c chunks IH]; intros cur_line cur_len.
  - exists []. cbn. repeat split; lia.
  - cbn [fill_line]. destruct (cur_len + length c <=? width)%nat eqn:Hfit.
    + destruct (IH (cur_line ++ [c]) (cur_len + length c)%nat) as (taken & H1 & H2 & H3 & H4).
      exists (c :: taken). rewrite H2. repeat split.
      * cbn [app]. f_equal. exact H1.
      * rewrite concat_cons, length_app. lia.
      * intros _. rewrite <- H2. apply H3. apply Nat.leb_le, Hfit.
      * rewrite <- H2. exact H4.
    + exists []. cbn [fst snd app concat length]. apply Nat.leb_gt in Hfit.
      repeat split; lia.
Qed.

Lemma rfind_from_bound (c : ascii) (s : text) (stop i j : nat) :
  rfind_from c s stop i = Some j -> (i <= j < stop)%nat.
Proof.
  revert i. induction s as [| x s IH]; intros i; cbn [rfind_from]; [discriminate |].
  destruct (i <? stop)%nat eqn:Hi; [| discriminate].
  apply Nat.ltb_lt in Hi.
  destruct (rfind_from c s stop (S i)) as [k |] eqn:Hk.
  - intros [= <-]. apply IH in Hk. lia.
  - destruct (Ascii.eqb x c); [intros [= <-]; lia | discriminate].
Qed.

(** A long word gives the line at most the room that is left, and at
    least one character when the line is empty. *)
Lemma _handle_long_word_split (chunk : text) (cur_len width : nat) :
  (1 <= width)%nat -> (cur_len <= width)%nat -> (width < length chunk)%nat ->
  exists stop,
    _handle_long_word chunk cur_len width = (take stop chunk, drop stop chunk)
    /\ (stop <= width - cur_len)%nat
    /\ (cur_len = 0%nat -> 1 <= stop)%nat.
Proof.
  intros Hw Hc Hlong. unfold _handle_long_word.
  replace (width <? 1)%nat with false by (symmetry; apply Nat.ltb_ge; lia).
  replace (width - cur_len <? length chunk)%nat with true
    by (symmetry; apply Nat.ltb_lt; lia).
  destruct (rfind_from hyphen chunk (width - cur_len) 0) as [h |] eqn:Hh.
  - apply rfind_from_bound in Hh.
    destruct ((0 <? h)%nat && existsb (fun c => negb (is_hyphen c)) (take h chunk)).
    + exists (S h). repeat split; lia.
    + exists (width - cur_len)%nat. repeat split; lia.
  - exists (width - cur_len)%nat. repeat split; lia.
Qed.

Lemma length_concat_nonempty (chunks : list text) :
  chunks <> [] -> Forall (fun c => c <> []) chunks -> (1 <= length (concat chunks))%nat.
Proof.
  intros Hne Hall. destruct chunks as [| c chunks]; [congruence |].
  apply Forall_cons in Hall as [Hc _]. rewrite concat_cons, length_app.
  destruct c; [congruence | cbn; lia].
Qed.

(** Every turn of the loop takes at least a character off the chunks. *)
Lemma wrap_line_shortens (chunks lines : list text) :
  chunks <> [] -> Forall (fun c => c <> []) chunks ->
  (length (concat (wrap_line 80 chunks lines).1) < length (concat chunks))%nat
  /\ Forall (fun c => c <> []) (wrap_line 80 chunks lines).1.
Proof.
  intros Hne Hall. unfold wrap_line.
  assert (H1 : exists chunks1,
             match chunks, lines with
             | c :: rest, _ :: _ => if blank c then rest else chunks
             | _, _ => chunks
             end = chunks1
             /\ Forall (fun c => c <> []) chunks1
             /\ (chunks1 = chunks
                 \/ (length (concat chunks1) < length (concat chunks))%nat)).
  { eexists. split; [reflexivity |].
    destruct chunks as [| c rest]; [congruence |].
    apply Forall_cons in Hall as Hall'. destruct Hall' as [Hc Hrest].
    destruct lines; [split; [exact Hall | left; reflexivity] |].
    destruct (blank c); [| split; [exact Hall | left; reflexivity]].
    split; [exact Hrest |]. right.
    rewrite concat_cons, length_app. destruct c; [congruence | cbn; lia]. }
  destruct H1 as (chunks1 & -> & Hall1 & Hlen1).
  destruct (fill_line_spec 80 chunks1 [] 0) as (taken & Hsplit & Hcur & Hfit & Hstop).
  specialize (Hfit ltac:(lia)).
  destruct (fill_line 80 [] 0 chunks1) as [[cur_line cur_len] chunks2].
  cbn [fst snd] in Hsplit, Hcur, Hfit, Hstop.
  assert (Hall2 : Forall (fun c => c <> []) chunks2).
  { rewrite Hsplit in Hall1. apply Forall_app in Hall1 as [_ H]. exact H. }
  assert (Hlen2 : length (concat chunks1)
                  = (length (concat taken) + length (concat chunks2))%nat).
  { rewrite Hsplit at 1. rewrite concat_app, length_app. reflexivity. }
  assert (Hgoal : forall (cur_line' : list text) (chunks3 : list text),
             Forall (fun c => c <> []) chunks3 ->
             (length (concat chunks3) < length (concat chunks))%nat ->
             (length (concat (match drop_last_blank cur_line' with
                              | [] => (chunks3, lines)
                              | _ :: _ => (chunks3, lines ++ [concat (drop_last_blank cur_line')])
                              end).1) < length (concat chunks))%nat
             /\ Forall (fun c => c <> [])
                  (match drop_last_blank cur_line' with
                   | [] => (chunks3, lines)
                   | _ :: _ => (chunks3, lines ++ [concat (drop_last_blank cur_line')])
                   end).1).
  { intros cl ch Hch Hlt. destruct (drop_last_blank cl); cbn [fst]; split; assumption. }
  destruct chunks2 as [| c rest].
  - apply Hgoal; [constructor |].
    destruct Hlen1 as [-> | Hlt]; [| cbn; lia].
    pose proof (length_concat_nonempty chunks Hne Hall). cbn. lia.
  - apply Forall_cons in Hall2 as Hall2'. destruct Hall2' as [Hc Hrest].
    destruct (80 <? length c)%nat eqn:Hlong.
    + apply Nat.ltb_lt in Hlong.
      destruct (_handle_long_word_split c cur_len 80) as (stop & -> & Hroom & Hsome);
        [lia | exact Hfit | exact Hlong |].
      apply Hgoal.
      * constructor; [| exact Hrest].
        intros Hnil. apply (f_equal (@length _)) in Hnil. rewrite length_drop in Hnil.
        cbn in Hnil. lia.
      * rewrite !concat_cons, !length_app, length_drop in *.
        destruct Hlen1 as [Heq | Hlt]; [| lia]. subst chunks1.
        destruct taken as [| t taken].
        -- cbn in Hcur. specialize (Hsome Hcur). cbn in Hlen2. lia.
        -- assert (1 <= length (concat (t :: taken)))%nat.
           { apply length_concat_nonempty; [discriminate |].
             rewrite Hsplit in Hall. apply Forall_app in Hall as [H _]. exact H. }
           rewrite concat_cons, length_app in H. lia.
    + apply Hgoal; [exact Hall2 |].
      apply Nat.ltb_ge in Hlong.
      destruct Hlen1 as [Heq | Hlt]; [| lia]. subst chunks1.
      destruct taken as [| t taken].
      * cbn in Hcur. subst cur_len. cbn in Hstop. lia.
      * assert (1 <= length (concat (t :: taken)))%nat.
        { apply length_concat_nonempty; [discriminate |].
          rewrite Hsplit in Hall. apply Forall_app in Hall as [H _]. exact H. }
        lia.
Qed.

(** Fuel beyond the length of the chunks is never used: the loop has
    ended by then. *)
Lemma wrap_loop_enough (fuel fuel' : nat) (chunks lines : list text) :
  Forall (fun c => c <> []) chunks ->
  (length (concat chunks) <= fuel)%nat -> (length (concat chunks) <= fuel')%nat ->
  wrap_loop fuel 80 chunks lines = wrap_loop fuel' 80 chunks lines.
Proof.
  revert fuel' chunks lines. induction fuel as [| fuel IH]; intros fuel' chunks lines Hall H1 H2.
  - destruct chunks as [| c chunks]; [destruct fuel'; reflexivity |].
    pose proof (length_concat_nonempty (c :: chunks) ltac:(discriminate) Hall). lia.
  - destruct chunks as [| c chunks]; [destruct fuel'; reflexivity |].
    pose proof (length_concat_nonempty (c :: chunks) ltac:(discriminate) Hall) as Hpos.
    destruct fuel' as [| fuel']; [lia |]. cbn [wrap_loop].
    destruct (wrap_line_shortens (c :: chunks) lines ltac:(discriminate) Hall) as [Hlt Hall'].
    destruct (wrap_line 80 (c :: chunks) lines) as [chunks' lines']. cbn [fst] in *.
    apply IH; [exact Hall' | lia | lia].
Qed.

Lemma split_from_nonempty (rest before cur : text) (k : chunk_kind) :
  Forall (fun c => c <> []) (split_from before cur k rest).
Proof.
  revert before cur k. induction rest as [| c rest IH]; intros before cur k.
  - cbn [split_from]. destruct cur as [| x cur]; [constructor |].
    constructor; [| constructor].
    intros H. apply (f_equal (@length _)) in H. rewrite length_rev in H. discriminate.
  - cbn [split_from]. destruct (after_char _ _ _).
    + apply IH.
    + constructor; [| apply IH].
      intros H. apply (f_equal (@length _)) in H. rewrite length_rev in H. discriminate.
Qed.

(** [wrap] runs its loop to the end: more turns change nothing. *)
Lemma wrap_fuel (s : text) (fuel : nat) :
  (length (concat (_split (_munge_whitespace s))) <= fuel)%nat ->
  wrap_loop fuel 80 (_split (_munge_whitespace s)) [] = wrap s 80.
Proof.
  intros Hfuel. unfold wrap, _wrap_chunks.
  apply wrap_loop_enough; [apply split_from_nonempty | exact Hfuel | lia].
Qed.

(** The chunks are the text, cut. *)
Lemma split_from_concat (rest before cur : text) (k : chunk_kind) :
  concat (split_from before cur k rest) = rev cur ++ rest.
Proof.
  revert before cur k. induction rest as [| c rest IH]; intros before cur k.
  - cbn [split_from]. destruct cur; [reflexivity |]. cbn [concat]. reflexivity.
  - cbn [split_from]. destruct (after_char _ _ _).
    + rewrite IH. cbn [rev]. rewrite <- app_assoc. reflexivity.
    + rewrite concat_cons, IH. cbn [rev app]. rewrite <- app_assoc. reflexivity.
Qed.

Lemma fill_line_taken (width : nat) (chunks cur_line : list text) (cur_len : nat) :
  exists taken,
    chunks = taken ++ (fill_line width cur_line cur_len chunks).2
    /\ (fill_line width cur_line cur_len chunks).1.1 = cur_line ++ taken.
Proof.
  revert cur_line cur_len. induction chunks as [| c chunks IH]; intros cur_line cur_len.
  - exists []. cbn. rewrite app_nil_r. split; reflexivity.
  - cbn [fill_line]. destruct (cur_len + length c <=? width)%nat.
    + destruct (IH (cur_line ++ [c]) (cur_len + length c)%nat) as (taken & H1 & H2).
      exists (c :: taken). rewrite H2, <- app_assoc. split; [| reflexivity].
      cbn [app]. f_equal. exact H1.
    + exists []. cbn. rewrite app_nil_r. split; reflexivity.
Qed.

(** ** The wrapper on words *)

Lemma tw_whitespace_isspace (c : ascii) : tw_whitespace c = true -> isspace c = true.
Proof.
  destruct c as [[] [] [] [] [] [] [] []]; vm_compute; intros H;
    first [reflexivity | discriminate H].
Qed.

Lemma plainChar_spec (c : ascii) :
  plainChar c = true -> isspace c = false /\ tw_whitespace c = false.
Proof.
  unfold plainChar. intros H. apply negb_true_iff in H. split; [exact H |].
  destruct (tw_whitespace c) eqn:Htw; [| reflexivity].
  apply tw_whitespace_isspace in Htw. congruence.
Qed.

Lemma plainChar_not_tab (c : ascii) : plainChar c = true -> (code c =? 9)%N = false.
Proof.
  destruct c as [[] [] [] [] [] [] [] []]; vm_compute; intros H;
    first [reflexivity | discriminate H].
Qed.

Lemma plainChar_not_newline (c : ascii) : plainChar c = true -> c <> newline.
Proof. intros H ->. vm_compute in H. discriminate. Qed.

Lemma plainChar_not_space (c : ascii) : plainChar c = true -> c <> space.
Proof. intros H ->. vm_compute in H. discriminate. Qed.

Lemma is_hyphen_eq (c : ascii) : is_hyphen c = true -> c = hyphen.
Proof. unfold is_hyphen. apply Ascii.eqb_eq. Qed.

Lemma expandtabs_plain (s : text) (col : nat) :
  spacedText s -> expandtabs_from 8 col s = s.
Proof.
  intros Hs. revert col. induction Hs as [| c s Hc _ IH]; intros col; [reflexivity |].
  cbn [expandtabs_from].
  replace (code c =? 9)%N with false.
  - rewrite IH. reflexivity.
  - destruct Hc as [-> | Hc]; [reflexivity | symmetry; apply plainChar_not_tab, Hc].
Qed.

Lemma munge_plain (s : text) : spacedText s -> _munge_whitespace s = s.
Proof.
  intros Hs. unfold _munge_whitespace, expandtabs. rewrite expandtabs_plain by exact Hs.
  induction Hs as [| c s Hc _ IH]; [reflexivity |].
  cbn [map]. rewrite IH. f_equal.
  destruct Hc as [-> | Hc]; [reflexivity |].
  apply plainChar_spec in Hc as (_ & ->). reflexivity.
Qed.

Lemma plainWord_chars (w : text) : plainWord w -> Forall (fun c => plainChar c = true) w.
Proof. intros (_ & _ & H). exact H. Qed.

Lemma spacedText_app (s t : text) : spacedText s -> spacedText t -> spacedText (s ++ t).
Proof. apply Forall_app_2. Qed.

Lemma spacedText_word (w : text) : plainWord w -> spacedText w.
Proof.
  intros H. eapply Forall_impl; [apply plainWord_chars, H |]. intros c Hc. right. exact Hc.
Qed.

Lemma spacedText_join (ws : list text) :
  Forall plainWord ws -> spacedText (join [space] ws).
Proof.
  induction 1 as [| w ws Hw Hws IH]; [constructor |].
  destruct ws as [| w' ws]; [apply spacedText_word, Hw |].
  change (join [space] (w :: w' :: ws)) with (w ++ [space] ++ join [space] (w' :: ws)).
  apply spacedText_app; [apply spacedText_word, Hw |].
  apply spacedText_app; [| exact IH]. constructor; [left; reflexivity | constructor].
Qed.

(** Parts of a word are words. *)
Lemma plainWord_prefix (a b : text) : plainWord (a ++ b) -> a <> [] -> plainWord a.
Proof.
  intros (_ & Hlen & Hchars) Ha. rewrite length_app in Hlen.
  apply Forall_app in Hchars as [H _]. repeat split; [exact Ha | lia | exact H].
Qed.

Lemma plainWord_suffix (a b : text) : plainWord (a ++ b) -> b <> [] -> plainWord b.
Proof.
  intros (_ & Hlen & Hchars) Hb. rewrite length_app in Hlen.
  apply Forall_app in Hchars as [_ H]. repeat split; [exact Hb | lia | exact H].
Qed.

Lemma plainWord_solid (w : text) : plainWord w -> solid w.
Proof. intros (Hne & _ & Hchars). split; assumption. Qed.

Lemma wordEnd_join (ws : list text) : wordEnd (concat (spaced ws)).
Proof.
  destruct ws as [| w ws]; [left; reflexivity |]. right. eexists. reflexivity.
Qed.

Lemma join_spaced (w : text) (ws : list text) :
  join [space] (w :: ws) = w ++ concat (spaced ws).
Proof.
  revert w. induction ws as [| w' ws IH]; intros w.
  - cbn. rewrite app_nil_r. reflexivity.
  - change (join [space] (w :: w' :: ws)) with (w ++ [space] ++ join [space] (w' :: ws)).
    rewrite IH. reflexivity.
Qed.

(** Stripping leaves alone a text that starts and ends with a character
    that is not blank. *)
Lemma lstrip_id (c : ascii) (s : text) : isspace c = false -> lstrip (c :: s) = c :: s.
Proof. intros H. cbn [lstrip]. rewrite H. reflexivity. Qed.

Lemma strip_id (s : text) (c c' : ascii) :
  head s = Some c -> last s = Some c' -> isspace c = false -> isspace c' = false ->
  strip s = s.
Proof.
  intros Hhead Hlast Hc Hc'. unfold strip, rstrip.
  destruct s as [| x s]; [discriminate |]. injection Hhead as ->.
  rewrite lstrip_id by exact Hc.
  destruct (rev (c :: s)) as [| y t] eqn:Hrev.
  - apply (f_equal (@length _)) in Hrev. rewrite length_rev in Hrev. discriminate.
  - assert (Hy : y = c').
    { rewrite <- (rev_involutive (c :: s)), Hrev in Hlast.
      cbn [rev] in Hlast. rewrite last_snoc in Hlast. congruence. }
    subst y. rewrite lstrip_id by exact Hc'. rewrite <- Hrev. apply rev_involutive.
Qed.

Lemma solid_ends (w : text) :
  solid w ->
  exists c c', head w = Some c /\ last w = Some c'
               /\ plainChar c = true /\ plainChar c' = true.
Proof.
  intros (Hne & Hchars).
  destruct w as [| c w]; [congruence |].
  destruct (last (c :: w)) as [c' |] eqn:Hlast.
  - exists c, c'. repeat split; try reflexivity.
    + apply Forall_cons in Hchars as [H _]. exact H.
    + rewrite Forall_forall in Hchars. apply Hchars.
      apply last_Some_elem_of, Hlast.
  - apply last_None in Hlast. discriminate.
Qed.

Lemma blank_solid (w : text) : solid w -> blank w = false.
Proof.
  intros Hw. destruct (solid_ends w Hw) as (c & c' & Hh & Hl & Hc & Hc').
  apply plainChar_spec in Hc as (Hc & _). apply plainChar_spec in Hc' as (Hc' & _).
  unfold blank. rewrite (strip_id w c c' Hh Hl Hc Hc').
  destruct w; [discriminate | reflexivity].
Qed.

Lemma blank_space : blank [space] = true.
Proof. reflexivity. Qed.

Lemma solid_not_space (c : text) : solid c -> c <> [space].
Proof.
  intros (_ & Hc) ->. apply Forall_cons in Hc as [H _]. vm_compute in H. discriminate.
Qed.

(** ** The chunks of a word *)

(** The first chunk holds what was read of it. *)
Lemma first_chunk_length (s : text) (b cur : text) (k : chunk_kind) :
  (length cur <= length (hd [] (split_from b cur k s)))%nat.
Proof.
  revert b cur k. induction s as [| c s IH]; intros b cur k; cbn [split_from].
  - destruct cur as [| x cur]; [cbn; lia |]. cbn [hd]. rewrite length_rev. lia.
  - destruct (after_char _ _ _) as [k' |].
    + specialize (IH (c :: b) (c :: cur) k'). cbn [length] in IH. lia.
    + cbn [hd]. rewrite length_rev. cbn [length]. lia.
Qed.

Lemma weakerBehind_cons (c : ascii) (b2 b1 : text) :
  weakerBehind b2 b1 -> weakerBehind (c :: b2) (c :: b1).
Proof.
  intros H p. specialize (H (p ++ [c])). rewrite <- !app_assoc in H. exact H.
Qed.

Ltac crush_lists :=
  repeat match goal with
         | |- context [match ?l with [] => _ | _ :: _ => _ end] => is_var l; destruct l
         end.

Ltac crush_bools :=
  change (re_letter space) with false; change (is_hyphen space) with false;
  repeat match goal with
         | |- context [re_letter ?c] => destruct (re_letter c)
         | |- context [is_hyphen ?c] => destruct (is_hyphen c)
         end;
  cbn [andb orb]; first [discriminate | reflexivity | (intros H; exact H)].

Lemma weakerBehind_nil (b : text) : weakerBehind [] b.
Proof.
  intros p. rewrite app_nil_r. split.
  - destruct p as [| x p]; [discriminate | intros H; exact H].
  - intros rest H. unfold hyphen_break in *. destruct rest as [| h after]; [discriminate |].
    apply andb_true_iff in H as [H HA]. apply andb_true_iff in H as [Hh HB].
    rewrite Hh, HA, andb_true_r. cbn [andb]. revert HB.
    destruct p as [| l1 [| l2 [| l3 p]]]; cbn [app]; crush_lists; crush_bools.
Qed.

Lemma weakerBehind_space (y b : text) : weakerBehind (space :: y) b.
Proof.
  intros p. split.
  - destruct p as [| x p]; [discriminate | intros H; exact H].
  - intros rest H. unfold hyphen_break in *. destruct rest as [| h after]; [discriminate |].
    apply andb_true_iff in H as [H HA]. apply andb_true_iff in H as [Hh HB].
    rewrite Hh, HA, andb_true_r. cbn [andb]. revert HB.
    destruct p as [| l1 [| l2 [| l3 p]]]; cbn [app]; crush_lists; crush_bools.
Qed.

(** What the lookaheads need is at the front of the text. *)
Lemma hyphen_break_ext (b r x : text) :
  hyphen_break b r = true -> hyphen_break b (r ++ x) = true.
Proof.
  unfold hyphen_break. destruct r as [| h after]; [discriminate |]. cbn [app].
  intros H. apply andb_true_iff in H as [H HA]. rewrite H. cbn [andb]. revert HA.
  destruct after as [| a0 [| b0 [| c0 r]]]; cbn [app]; crush_lists; crush_bools.
Qed.

Lemma hyphen_break_end (b r rest : text) :
  wordEnd rest -> hyphen_break b (r ++ rest) = hyphen_break b r.
Proof.
  intros [-> | [t ->]]; [rewrite app_nil_r; reflexivity |].
  unfold hyphen_break. destruct r as [| h after]; [reflexivity |]. cbn [app].
  f_equal.
  destruct after as [| a0 [| b0 [| c0 r]]]; cbn [app]; crush_lists; crush_bools.
Qed.

Lemma drop_hyphens_app (r x : text) :
  drop_hyphens (r ++ x)
  = match (drop_hyphens r).2 with
    | [] => (((drop_hyphens r).1 + (drop_hyphens x).1)%nat, (drop_hyphens x).2)
    | _ => ((drop_hyphens r).1, (drop_hyphens r).2 ++ x)
    end.
Proof.
  induction r as [| c r IH]; cbn [app drop_hyphens].
  - cbn [fst snd Nat.add]. destruct (drop_hyphens x); reflexivity.
  - destruct (is_hyphen c).
    + rewrite IH. destruct (drop_hyphens r) as [n r']. cbn [fst snd].
      destruct r'; reflexivity.
    + reflexivity.
Qed.

Lemma dashes_then_word_ext (r x : text) :
  dashes_then_word r = true -> dashes_then_word (r ++ x) = true.
Proof.
  unfold dashes_then_word. rewrite drop_hyphens_app.
  destruct (drop_hyphens r) as [n r']. cbn [fst snd].
  destruct r' as [| c r']; [rewrite andb_false_r; discriminate |].
  intros H; exact H.
Qed.

Lemma dashes_then_word_end (r rest : text) :
  wordEnd rest -> dashes_then_word (r ++ rest) = dashes_then_word r.
Proof.
  intros [-> | [t ->]]; [rewrite app_nil_r; reflexivity |].
  unfold dashes_then_word. rewrite drop_hyphens_app.
  destruct (drop_hyphens r) as [n r']. cbn [fst snd].
  destruct r' as [| c r']; [| reflexivity].
  cbn [drop_hyphens]. change (is_hyphen space) with false. cbn [fst snd].
  change (re_word space) with false. rewrite !andb_false_r. reflexivity.
Qed.

Lemma hyphen_break_shape (b r : text) :
  hyphen_break b r = true ->
  exists h a r' l1 b',
    r = h :: a :: r' /\ is_hyphen h = true /\ re_letter a = true
    /\ b = l1 :: b' /\ re_letter l1 = true.
Proof.
  unfold hyphen_break. destruct r as [| h [| a [| b0 r]]]; try discriminate.
  - rewrite andb_false_r. discriminate.
  - rewrite andb_false_r. discriminate.
  - intros H. apply andb_true_iff in H as [H Hafter]. apply andb_true_iff in H as [Hh Hb].
    apply andb_true_iff in Hafter as [Ha _].
    destruct b as [| l1 [| l2 more]]; try discriminate.
    apply andb_true_iff in Hb as [Hl1 _].
    exists h, a, (b0 :: r), l1, (l2 :: more). repeat split; assumption.
Qed.

Lemma dashes_then_word_shape (r : text) :
  dashes_then_word r = true ->
  exists h1 h2 r', r = h1 :: h2 :: r' /\ is_hyphen h1 = true /\ is_hyphen h2 = true.
Proof.
  unfold dashes_then_word.
  destruct r as [| h1 r]; [cbn; discriminate |]. cbn [drop_hyphens].
  destruct (is_hyphen h1) eqn:H1; [| cbn; discriminate].
  destruct r as [| h2 r]; [cbn; discriminate |]. cbn [drop_hyphens].
  destruct (is_hyphen h2) eqn:H2; [| cbn; discriminate].
  intros _. exists h1, h2, r. repeat split; assumption.
Qed.

Lemma hyphen_not_blank (c : ascii) : is_hyphen c = true -> tw_whitespace c = false.
Proof. intros H. apply is_hyphen_eq in H. subst c. reflexivity. Qed.

Lemma hyphen_not_letter (c : ascii) : is_hyphen c = true -> re_letter c = false.
Proof. intros H. apply is_hyphen_eq in H. subst c. reflexivity. Qed.

Lemma hyphen_not_word_punct (c : ascii) : is_hyphen c = true -> re_word_punct c = false.
Proof. intros H. apply is_hyphen_eq in H. subst c. reflexivity. Qed.

(** The kind a chunk starts in. *)
Lemma start_kinds_agree (b1 b2 : text) (c : ascii) (s rest1 rest2 : text) :
  weakerBehind b2 b1 -> wordEnd rest2 ->
  kindsAgree (start_kind b1 (c :: s ++ rest1)) (start_kind b2 (c :: s ++ rest2)) (c :: s)
  /\ start_kind b1 (c :: s ++ rest1) <> KStart
  /\ start_kind b2 (c :: s ++ rest2) <> KStart.
Proof.
  intros Hb Hend. unfold start_kind.
  destruct (tw_whitespace c) eqn:Hc; [repeat split; discriminate |].
  change (c :: s ++ rest1) with ((c :: s) ++ rest1).
  change (c :: s ++ rest2) with ((c :: s) ++ rest2).
  rewrite (dashes_then_word_end (c :: s) rest2 Hend).
  destruct (after_word_punct b2 && dashes_then_word (c :: s)) eqn:H2.
  - apply andb_true_iff in H2 as [Hp Hd].
    destruct (Hb []) as [Hawp _]. cbn [app] in Hawp. rewrite (Hawp Hp).
    rewrite (dashes_then_word_ext _ rest1 Hd). repeat split; discriminate.
  - destruct (after_word_punct b1 && dashes_then_word ((c :: s) ++ rest1)) eqn:H1.
    + apply andb_true_iff in H1 as [_ Hd].
      apply dashes_then_word_shape in Hd as (h1 & h2 & r' & Heq & Hh1 & _).
      injection Heq as -> _. repeat split; try discriminate. exact Hh1.
    + repeat split; discriminate.
Qed.

(** One character further in both runs. *)
Lemma after_chars_agree (k1 k2 : chunk_kind) (b1 b2 : text) (c : ascii)
    (s rest1 rest2 : text) :
  weakerBehind b2 b1 -> wordEnd rest2 ->
  kindsAgree k1 k2 (c :: s) -> k1 <> KStart -> k2 <> KStart ->
  match after_char k1 (c :: b1) (s ++ rest1), after_char k2 (c :: b2) (s ++ rest2) with
  | Some k1', Some k2' => kindsAgree k1' k2' s
  | Some _, None => s = []
  | None, _ => True
  end.
Proof.
  intros Hb Hend Hk Hs1 Hs2.
  assert (Hhb : hyphen_break (c :: b2) (s ++ rest2) = true ->
                hyphen_break (c :: b1) (s ++ rest1) = true).
  { intros H. rewrite (hyphen_break_end _ s rest2 Hend) in H.
    apply hyphen_break_ext. destruct (Hb [c]) as [_ Hh]. apply Hh, H. }
  assert (Hdw : dashes_then_word (s ++ rest2) = true ->
                dashes_then_word (s ++ rest1) = true).
  { intros H. rewrite (dashes_then_word_end s rest2 Hend) in H.
    apply dashes_then_word_ext, H. }
  destruct k1, k2; cbn [kindsAgree] in Hk; try contradiction; try congruence.
  - (* both in a run of blanks *)
    cbn [after_char]. destruct s as [| x s]; cbn [app].
    + destruct rest1 as [| y r1]; [exact I |].
      destruct (tw_whitespace y); [| exact I].
      destruct rest2 as [| z r2]; [reflexivity |].
      destruct (tw_whitespace z); [exact I | reflexivity].
    + destruct (tw_whitespace x); exact I.
  - (* both in a run of dashes *)
    cbn [after_char]. destruct s as [| x s]; cbn [app].
    + destruct rest1 as [| y r1]; [exact I |].
      destruct (is_hyphen y); [| exact I].
      destruct rest2 as [| z r2]; [reflexivity |].
      destruct (is_hyphen z); [exact I | reflexivity].
    + destruct (is_hyphen x); exact I.
  - (* dashes in the first, a word in the second *)
    cbn [after_char].
    assert (Hno : hyphen_break (c :: b2) (s ++ rest2) = false).
    { destruct (hyphen_break (c :: b2) (s ++ rest2)) eqn:H; [| reflexivity].
      apply hyphen_break_shape in H as (h & a & r' & l1 & b' & _ & _ & _ & Heq & Hl1).
      injection Heq as -> _. rewrite (hyphen_not_letter _ Hk) in Hl1. discriminate. }
    rewrite Hno. cbn [after_word_punct]. rewrite (hyphen_not_word_punct _ Hk). cbn [andb].
    destruct s as [| x s]; cbn [app].
    + destruct rest1 as [| y r1]; [exact I |].
      destruct (is_hyphen y); [| exact I].
      destruct rest2 as [| z r2]; [reflexivity |].
      destruct (tw_whitespace z); [reflexivity | exact I].
    + destruct (is_hyphen x) eqn:Hx; [| exact I].
      rewrite (hyphen_not_blank _ Hx). exact Hx.
  - (* a word in both *)
    cbn [after_char].
    destruct (hyphen_break (c :: b1) (s ++ rest1)) eqn:H1.
    + destruct (hyphen_break (c :: b2) (s ++ rest2)) eqn:H2; [exact I |].
      destruct s as [| x s]; cbn [app].
      * destruct rest2 as [| z r2]; [reflexivity |].
        destruct (tw_whitespace z); [reflexivity |].
        destruct (_ && _); [reflexivity | exact I].
      * cbn [app] in H1, Hdw.
        apply hyphen_break_shape in H1 as (h & a & r' & l1 & b' & Heq & Hh & Ha & _).
        injection Heq as -> Heq. rewrite (hyphen_not_blank _ Hh).
        destruct (after_word_punct (c :: b2) && dashes_then_word (h :: s ++ rest2)) eqn:Hd;
          [| exact I].
        exfalso. apply andb_true_iff in Hd as [_ Hd]. apply Hdw in Hd.
        apply dashes_then_word_shape in Hd as (h1 & h2 & r'' & Heq' & _ & Hh2).
        injection Heq' as _ Heq'. rewrite Heq in Heq'. injection Heq' as -> _.
        rewrite (hyphen_not_letter _ Hh2) in Ha. discriminate.
    + destruct (hyphen_break (c :: b2) (s ++ rest2)) eqn:H2;
        [discriminate (Hhb eq_refl) |].
      destruct s as [| x s]; cbn [app].
      * destruct rest1 as [| y r1]; [exact I |].
        destruct (tw_whitespace y); [exact I |].
        destruct (_ && _); [exact I |].
        destruct rest2 as [| z r2]; [reflexivity |].
        destruct (tw_whitespace z); [reflexivity |].
        destruct (_ && _); [reflexivity | exact I].
      * cbn [app] in Hdw. destruct (tw_whitespace x); [exact I |].
        cbn [after_word_punct] in *.
        destruct (re_word_punct c); cbn [andb]; [| exact I].
        destruct (dashes_then_word (x :: s ++ rest2)) eqn:Hd.
        -- rewrite (Hdw eq_refl). exact I.
        -- destruct (dashes_then_word (x :: s ++ rest1)); exact I.
  - (* the closing hyphen in the first *)
    cbn [after_char]. exact I.
  - cbn [after_char]. exact I.
Qed.

(** Read with less behind it and less ahead of it, a text gives a first
    chunk that is no shorter. *)
Lemma first_chunk_grows (s : text) :
  forall (b1 b2 cur : text) (k1 k2 : chunk_kind) (rest1 rest2 : text),
    weakerBehind b2 b1 -> kindsAgree k1 k2 s -> wordEnd rest2 ->
    (Nat.min (length (hd [] (split_from b1 cur k1 (s ++ rest1)))) (length cur + length s)
     <= length (hd [] (split_from b2 cur k2 (s ++ rest2))))%nat.
Proof.
  induction s as [| c s IH]; intros b1 b2 cur k1 k2 rest1 rest2 Hb Hk Hend.
  - cbn [app length]. pose proof (first_chunk_length rest2 b2 cur k2). lia.
  - cbn [app split_from].
    set (k1' := match k1 with KStart => start_kind b1 (c :: s ++ rest1) | _ => k1 end).
    set (k2' := match k2 with KStart => start_kind b2 (c :: s ++ rest2) | _ => k2 end).
    assert (Hk' : kindsAgree k1' k2' (c :: s) /\ k1' <> KStart /\ k2' <> KStart).
    { destruct (start_kinds_agree b1 b2 c s rest1 rest2 Hb Hend) as (H0 & H1 & H2).
      subst k1' k2'. destruct k1, k2; cbn [kindsAgree] in Hk; try contradiction;
        repeat split; try discriminate; try assumption; exact I. }
    destruct Hk' as (Hagree & Hs1 & Hs2).
    pose proof (after_chars_agree k1' k2' b1 b2 c s rest1 rest2 Hb Hend Hagree Hs1 Hs2)
      as Hstep.
    destruct (after_char k1' (c :: b1) (s ++ rest1)) as [k1'' |].
    + destruct (after_char k2' (c :: b2) (s ++ rest2)) as [k2'' |].
      * specialize (IH (c :: b1) (c :: b2) (c :: cur) k1'' k2'' rest1 rest2
                      (weakerBehind_cons c b2 b1 Hb) Hstep Hend).
        cbn [length] in *. lia.
      * subst s. cbn [hd length]. rewrite length_rev. cbn [length]. lia.
    + cbn [hd]. rewrite length_rev. cbn [length].
      destruct (after_char k2' (c :: b2) (s ++ rest2)) as [k2'' |].
      * pose proof (first_chunk_length (s ++ rest2) (c :: b2) (c :: cur) k2'') as H.
        cbn [length] in H. lia.
      * cbn [hd]. rewrite length_rev. cbn [length]. lia.
Qed.

(** The first chunk of a line that starts with the chunk [Y] in the first
    pass is no shorter than [Y]. *)
Lemma firstChunk_grows (b l rest Y : text) (R : list text) :
  split_from b [] KStart (l ++ rest) = Y :: R -> (length Y <= length l)%nat ->
  (length Y <= length (firstChunk l))%nat.
Proof.
  intros Hsplit Hlen.
  pose proof (first_chunk_grows l b [] [] KStart KStart rest []
                (weakerBehind_nil b) I (or_introl eq_refl)) as H.
  rewrite Hsplit, app_nil_r in H. cbn [hd length] in H.
  unfold firstChunk, _split. lia.
Qed.

(** A single space before a word is one chunk. *)
Lemma split_from_space (before : text) (c : ascii) (rest : text) :
  plainChar c = true ->
  split_from before [] KStart (space :: c :: rest)
    = [space] :: split_from (space :: before) [] KStart (c :: rest).
Proof.
  intros Hc. apply plainChar_spec in Hc as (_ & Htw).
  cbn [split_from start_kind]. change (tw_whitespace space) with true. cbn iota.
  cbn [after_char]. rewrite Htw. reflexivity.
Qed.

Lemma after_char_word_end (k : chunk_kind) (before rest : text) :
  k <> KSpace -> wordEnd rest -> after_char k before rest = None.
Proof.
  intros Hk Hend.
  assert (Hbreak : hyphen_break before rest = false).
  { destruct Hend as [-> | [r ->]]; [destruct before; reflexivity | reflexivity]. }
  destruct k; cbn [after_char]; try congruence; rewrite ?Hbreak;
    destruct Hend as [-> | [r ->]]; reflexivity.
Qed.

Lemma after_char_not_space (k k' : chunk_kind) (before rest : text) :
  k <> KSpace -> after_char k before rest = Some k' -> k' <> KSpace /\ k' <> KStart.
Proof.
  intros Hk. destruct k; cbn [after_char]; try congruence.
  - destruct (hyphen_break before rest); [intros [= <-]; split; discriminate |].
    destruct rest as [| c r]; [discriminate |].
    destruct (tw_whitespace c); [discriminate |].
    destruct (_ && _); [discriminate | intros [= <-]; split; discriminate].
  - destruct rest as [| c r]; [discriminate |].
    destruct (is_hyphen c); [intros [= <-]; split; discriminate | discriminate].
  - destruct (hyphen_break before rest); [intros [= <-]; split; discriminate |].
    destruct rest as [| c r]; [discriminate |].
    destruct (tw_whitespace c); [discriminate |].
    destruct (_ && _); [discriminate | intros [= <-]; split; discriminate].
Qed.

Lemma start_kind_word (before : text) (c : ascii) (rest : text) :
  plainChar c = true -> start_kind before (c :: rest) <> KSpace.
Proof.
  intros Hc. apply plainChar_spec in Hc as (_ & Htw). unfold start_kind. rewrite Htw.
  destruct (_ && _); discriminate.
Qed.

(** The first chunk of a word ends in the word. *)
Lemma first_chunk_in_word (w : text) :
  forall (b cur : text) (k : chunk_kind) (rest : text),
    w <> [] -> Forall (fun c => plainChar c = true) w ->
    k <> KSpace -> wordEnd rest ->
    exists m w', w = m ++ w' /\ m <> []
      /\ split_from b cur k (w ++ rest)
         = (rev cur ++ m) :: split_from (rev m ++ b) [] KStart (w' ++ rest).
Proof.
  induction w as [| c w IH]; intros b cur k rest Hne Hw Hk Hend; [congruence |].
  apply Forall_cons in Hw as [Hc Hw]. cbn [app split_from].
  set (k0 := match k with KStart => start_kind b (c :: w ++ rest) | _ => k end).
  assert (Hk0 : k0 <> KSpace).
  { subst k0. destruct k; try congruence. apply start_kind_word, Hc. }
  destruct (after_char k0 (c :: b) (w ++ rest)) as [k' |] eqn:Ha.
  - destruct w as [| c' w].
    + cbn [app] in Ha. rewrite (after_char_word_end k0 _ _ Hk0 Hend) in Ha. discriminate.
    + destruct (after_char_not_space _ _ _ _ Hk0 Ha) as [Hk' _].
      destruct (IH (c :: b) (c :: cur) k' rest ltac:(discriminate) Hw Hk' Hend)
        as (m & w' & Heq & Hm & Hsplit).
      exists (c :: m), w'. split; [cbn [app]; f_equal; exact Heq |].
      split; [discriminate |]. rewrite Hsplit. cbn [rev]. rewrite <- !app_assoc. reflexivity.
  - exists [c], w. split; [reflexivity |]. split; [discriminate |]. reflexivity.
Qed.

(** The chunks of a word end with the word. *)
Lemma word_chunks (n : nat) :
  forall (w b rest : text),
    (length w <= n)%nat -> w <> [] -> Forall (fun c => plainChar c = true) w ->
    wordEnd rest ->
    exists pieces,
      split_from b [] KStart (w ++ rest)
        = pieces ++ split_from (rev w ++ b) [] KStart rest
      /\ concat pieces = w /\ Forall solid pieces
      /\ exists x pieces', pieces = x :: pieces'.
Proof.
  induction n as [| n IH]; intros w b rest Hn Hne Hw Hend.
  - destruct w; [congruence | cbn in Hn; lia].
  - destruct (first_chunk_in_word w b [] KStart rest Hne Hw ltac:(discriminate) Hend)
      as (m & w' & -> & Hm & Hsplit).
    cbn [rev app] in Hsplit. apply Forall_app in Hw as [Hwm Hw'].
    destruct w' as [| c w'].
    + exists [m]. rewrite app_nil_r in *. cbn [app] in Hsplit.
      split; [exact Hsplit |]. split; [cbn; apply app_nil_r |].
      split; [constructor; [split; assumption | constructor] |]. eexists _, _. reflexivity.
    + destruct (IH (c :: w') (rev m ++ b) rest) as (pieces & Hrest & Hcat & Hsolid & _);
        [| discriminate | exact Hw' | exact Hend |].
      { rewrite length_app in Hn. destruct m; [congruence | cbn in *; lia]. }
      exists (m :: pieces). rewrite Hsplit, Hrest, rev_app_distr, <- app_assoc.
      split; [reflexivity |]. split; [cbn [concat]; rewrite Hcat; reflexivity |].
      split; [constructor; [split; assumption | exact Hsolid] |].
      eexists _, _. reflexivity.
Qed.

Lemma join_cons2 (sep x y : text) (l : list text) :
  join sep (x :: y :: l) = x ++ sep ++ join sep (y :: l).
Proof. reflexivity. Qed.

Lemma join_app (sep : text) (l1 l2 : list text) :
  l1 <> [] -> l2 <> [] -> join sep (l1 ++ l2) = join sep l1 ++ sep ++ join sep l2.
Proof.
  intros H1 H2. induction l1 as [| x l1 IH]; [congruence |].
  destruct l1 as [| y l1].
  - destruct l2 as [| z l2]; [congruence |]. reflexivity.
  - change ((x :: y :: l1) ++ l2) with (x :: y :: (l1 ++ l2)).
    rewrite !join_cons2. change (y :: l1 ++ l2) with ((y :: l1) ++ l2).
    rewrite IH by discriminate. rewrite <- !app_assoc. reflexivity.
Qed.

(** Joining joined groups is joining their members. *)
Lemma join_join (sep : text) (groups : list (list text)) :
  Forall (fun g => g <> []) groups ->
  join sep (map (join sep) groups) = join sep (concat groups).
Proof.
  induction 1 as [| g groups Hg Hgs IH]; [reflexivity |].
  destruct groups as [| g' groups].
  - cbn. rewrite app_nil_r. reflexivity.
  - cbn [map]. rewrite join_cons2. cbn [map] in IH. rewrite IH.
    rewrite (concat_cons g), (join_app sep g (concat (g' :: groups)));
      [reflexivity | exact Hg |].
    apply Forall_cons in Hgs as [Hg' _]. destruct g'; [congruence | discriminate].
Qed.

(** ** The first pass *)

(** What [fill_line] takes, and why it stops. *)
Lemma fill_line_full (width : nat) (chunks cur_line : list text) (cur_len : nat) :
  exists taken rest,
    fill_line width cur_line cur_len chunks
      = (cur_line ++ taken, (cur_len + length (concat taken))%nat, rest)
    /\ chunks = taken ++ rest
    /\ ((cur_len <= width)%nat -> (cur_len + length (concat taken) <= width)%nat)
    /\ match rest with
       | c :: _ => (width < cur_len + length (concat taken) + length c)%nat
       | [] => True
       end.
Proof.
  revert cur_line cur_len. induction chunks as [| c chunks IH]; intros cur_line cur_len.
  - exists [], []. cbn. rewrite app_nil_r, Nat.add_0_r. repeat split. lia.
  - cbn [fill_line]. destruct (cur_len + length c <=? width)%nat eqn:Hfit.
    + destruct (IH (cur_line ++ [c]) (cur_len + length c)%nat)
        as (taken & rest & Heq & Hsplit & Hle & Hstop).
      exists (c :: taken), rest. rewrite Heq, concat_cons, length_app, <- app_assoc.
      apply Nat.leb_le in Hfit.
      replace (cur_len + (length c + length (concat taken)))%nat
        with (cur_len + length c + length (concat taken))%nat by lia.
      repeat split.
      * cbn [app]. f_equal. exact Hsplit.
      * intros _. apply Hle, Hfit.
      * exact Hstop.
    + exists [], (c :: chunks). apply Nat.leb_gt in Hfit.
      cbn [concat length app]. rewrite app_nil_r, !Nat.add_0_r.
      repeat split; lia.
Qed.

(** Chunks that fit are all taken. *)
Lemma fill_line_app (width : nat) (A R cur_line : list text) (cur_len : nat) :
  (cur_len + length (concat A) <= width)%nat ->
  fill_line width cur_line cur_len (A ++ R)
    = fill_line width (cur_line ++ A) (cur_len + length (concat A))%nat R.
Proof.
  revert cur_line cur_len. induction A as [| c A IH]; intros cur_line cur_len Hfit.
  - cbn. rewrite app_nil_r, Nat.add_0_r. reflexivity.
  - rewrite concat_cons, length_app in Hfit. cbn [app fill_line].
    replace (cur_len + length c <=? width)%nat with true
      by (symmetry; apply Nat.leb_le; lia).
    rewrite IH by lia. rewrite <- app_assoc, concat_cons, length_app.
    cbn [app]. rewrite Nat.add_assoc. reflexivity.
Qed.

Lemma wordsAhead_head (r : text) :
  wordsAhead r -> exists c r', r = c :: r' /\ plainChar c = true.
Proof.
  intros (v & ws & Hall & ->). apply Forall_cons in Hall as [(Hne & _ & Hv) _].
  rewrite join_spaced. destruct v as [| c v]; [congruence |].
  apply Forall_cons in Hv as [Hc _]. exists c, (v ++ concat (spaced ws)).
  split; [reflexivity | exact Hc].
Qed.

(** The chunks of text that starts with a word start with a chunk of the
    word. *)
Lemma wordsAhead_chunks (b r : text) :
  wordsAhead r ->
  exists Y R, split_from b [] KStart r = Y :: R
    /\ solid Y /\ (length Y <= 80)%nat /\ chunksAhead R.
Proof.
  intros (v & ws & Hall & ->). apply Forall_cons in Hall as [Hv Hws].
  rewrite join_spaced.
  destruct Hv as (Hne & Hlen & Hchars).
  destruct (first_chunk_in_word v b [] KStart (concat (spaced ws)) Hne Hchars
              ltac:(discriminate) (wordEnd_join ws)) as (m & w' & Heq & Hm & Hsplit).
  cbn [rev app] in Hsplit. exists m, (split_from (rev m ++ b) [] KStart (w' ++ concat (spaced ws))).
  split; [exact Hsplit |].
  assert (Hv : plainWord (m ++ w')) by (rewrite <- Heq; repeat split; assumption).
  split; [apply plainWord_solid, (plainWord_prefix m w' Hv Hm) |].
  split; [destruct (plainWord_prefix m w' Hv Hm) as (_ & H & _); exact H |].
  exists (rev m ++ b), (w' ++ concat (spaced ws)). split; [| reflexivity].
  destruct w' as [| c w'].
  - cbn [app]. destruct ws as [| w ws]; [left; reflexivity |].
    right. right. exists (join [space] (w :: ws)). split.
    + cbn [spaced concat]. rewrite join_spaced. reflexivity.
    + exists w, ws. split; [exact Hws | reflexivity].
  - right. left. exists (c :: w'), ws. split.
    + constructor; [| exact Hws]. apply (plainWord_suffix m (c :: w') Hv). discriminate.
    + rewrite join_spaced. reflexivity.
Qed.

Lemma chunksAhead_cons (c : text) (R : list text) :
  chunksAhead (c :: R) ->
  chunksAhead R
  /\ ((solid c /\ (length c <= 80)%nat)
      \/ (c = [space] /\ exists c' R', R = c' :: R' /\ solid c')).
Proof.
  intros (b & rr & Hrr & Heq). destruct Hrr as [-> | [Hr | (r & -> & Hr)]].
  - discriminate Heq.
  - destruct (wordsAhead_chunks b rr Hr) as (Y & R0 & Hsplit & HY & Hlen & HR0).
    rewrite Hsplit in Heq. injection Heq as -> ->.
    split; [exact HR0 |]. left. split; assumption.
  - destruct (wordsAhead_head r Hr) as (x & r' & -> & Hx).
    rewrite (split_from_space b x r' Hx) in Heq. injection Heq as -> ->.
    destruct (wordsAhead_chunks (space :: b) (x :: r') Hr) as (Y & R0 & Hsplit & HY & _ & _).
    split.
    + exists (space :: b), (x :: r'). split; [right; left; exact Hr | reflexivity].
    + right. split; [reflexivity |]. exists Y, R0. split; [exact Hsplit | exact HY].
Qed.

Lemma chunksAhead_app (A R : list text) : chunksAhead (A ++ R) -> chunksAhead R.
Proof.
  induction A as [| c A IH]; [intros H; exact H |].
  cbn [app]. intros H. apply chunksAhead_cons in H as [H _]. apply IH, H.
Qed.

Lemma chunksAhead_nonempty (R : list text) :
  chunksAhead R -> Forall (fun c => c <> []) R.
Proof. intros (b & rr & _ & ->). apply split_from_nonempty. Qed.

(** A piece of words one space apart that ends with a character of a word
    is words one space apart. *)
Lemma prefix_wordsLine (ws : list text) :
  forall (v l rest : text) (c : ascii),
    Forall plainWord (v :: ws) ->
    join [space] (v :: ws) = l ++ rest ->
    last l = Some c -> plainChar c = true ->
    wordsLine l.
Proof.
  induction ws as [| w ws IH]; intros v l rest c Hall Heq Hlast Hc.
  - cbn [join] in Heq. apply Forall_cons in Hall as [Hv _].
    assert (Hl : l <> []) by (intros ->; discriminate Hlast).
    exists [l]. split; [discriminate |]. split; [| reflexivity].
    constructor; [| constructor]. rewrite Heq in Hv. apply (plainWord_prefix l rest Hv Hl).
  - apply Forall_cons in Hall as [Hv Hall].
    rewrite join_cons2 in Heq.
    assert (Hl : l <> []) by (intros ->; discriminate Hlast).
    apply app_eq_app in Heq as [x [[Hvx Hrest] | [Hlx Htail]]].
    + exists [l]. split; [discriminate |]. split; [| reflexivity].
      constructor; [| constructor]. rewrite Hvx in Hv. apply (plainWord_prefix l x Hv Hl).
    + destruct x as [| s x].
      * rewrite app_nil_r in Hlx. subst l.
        exists [v]. split; [discriminate |]. split; [| reflexivity].
        constructor; [exact Hv | constructor].
      * cbn [app] in Htail. injection Htail as <- Htail.
        destruct x as [| y x].
        -- exfalso. subst l. rewrite last_snoc in Hlast. injection Hlast as <-.
           vm_compute in Hc. discriminate.
        -- assert (Hlast' : last (y :: x) = Some c).
           { subst l. change (v ++ space :: y :: x) with (v ++ [space] ++ (y :: x)) in Hlast.
             rewrite !last_app in Hlast.
             destruct (last (y :: x)) as [z |] eqn:Hz; [exact Hlast |].
             apply last_None in Hz. discriminate Hz. }
           destruct (IH w (y :: x) rest c Hall Htail Hlast' Hc) as (ws' & Hne & Hws' & Hj).
           exists (v :: ws'). split; [discriminate |].
           split; [constructor; assumption |].
           subst l. rewrite Hj. destruct ws' as [| w' ws']; [congruence |]. reflexivity.
Qed.

(** A turn of the loop on chunks none of which is longer than the line. *)
Lemma wrap_line_short (R lines chunks1 taken R2 : list text) (n : nat) :
  match R, lines with
  | c :: rest, _ :: _ => if blank c then rest else R
  | _, _ => R
  end = chunks1 ->
  fill_line 80 [] 0 chunks1 = (taken, n, R2) ->
  match R2 with c :: _ => (length c <= 80)%nat | [] => True end ->
  drop_last_blank taken <> [] ->
  wrap_line 80 R lines = (R2, lines ++ [concat (drop_last_blank taken)]).
Proof.
  intros H1 H2 H3 H4. unfold wrap_line. rewrite H1, H2.
  destruct R2 as [| c rest].
  - destruct (drop_last_blank taken); [congruence | reflexivity].
  - replace (80 <? length c)%nat with false by (symmetry; apply Nat.ltb_ge; exact H3).
    destruct (drop_last_blank taken); [congruence | reflexivity].
Qed.

Lemma packed_snoc (lines : list text) (l : text) :
  packed lines ->
  (forall l0, last lines = Some l0 -> (80 < length l0 + 1 + length (firstChunk l))%nat) ->
  packed (lines ++ [l]).
Proof.
  induction lines as [| a lines IH]; intros Hp Hl; [exact I |].
  destruct lines as [| a' lines].
  - cbn [app packed]. split; [apply Hl; reflexivity | exact I].
  - change ((a :: a' :: lines) ++ [l]) with (a :: a' :: (lines ++ [l])).
    change (packed (a :: a' :: lines))
      with ((80 < length a + 1 + length (firstChunk a'))%nat /\ packed (a' :: lines)) in Hp.
    change ((80 < length a + 1 + length (firstChunk a'))%nat
            /\ packed ((a' :: lines) ++ [l])).
    destruct Hp as [H1 H2]. split; [exact H1 |]. apply IH; [exact H2 |].
    intros l0 H0. apply Hl. rewrite last_cons_cons. exact H0.
Qed.

Lemma last_concat_snoc (B : list text) (y : text) :
  y <> [] -> last (concat (B ++ [y])) = last y.
Proof.
  intros Hy. rewrite concat_app. cbn [concat]. rewrite app_nil_r, last_app.
  destruct (last y) eqn:Hl; [reflexivity |]. apply last_None in Hl. congruence.
Qed.

(** What the line of a turn is made of: the chunks taken, but for a space
    at their end. *)
Lemma line_chunks_taken (Y : text) (taken' R2 : list text) :
  solid Y -> chunksAhead ((Y :: taken') ++ R2) ->
  exists B' y,
    drop_last_blank (Y :: taken') = B' ++ [y] /\ solid y
    /\ (exists Bt, B' ++ [y] = Y :: Bt)
    /\ (Y :: taken' = B' ++ [y] \/ Y :: taken' = (B' ++ [y]) ++ [[space]])
    /\ ((exists R2', R2 = [space] :: R2') -> Y :: taken' = B' ++ [y]).
Proof.
  intros HY Hahead.
  destruct (exists_last (l := Y :: taken') ltac:(discriminate)) as (A & x & Heq).
  rewrite Heq in *. rewrite <- app_assoc in Hahead. cbn [app] in Hahead.
  pose proof (chunksAhead_app _ _ Hahead) as Hx.
  destruct (chunksAhead_cons x R2 Hx) as [_ [[Hsx _] | (-> & c' & R' & -> & Hc')]].
  - exists A, x. split.
    + unfold drop_last_blank. rewrite last_snoc, (blank_solid x Hsx). reflexivity.
    + split; [exact Hsx |]. split; [eexists; symmetry; exact Heq |].
      split; [left; reflexivity | intros _; reflexivity].
  - assert (HA : A <> []).
    { intros ->. cbn [app] in Heq. injection Heq as -> _.
      exact (solid_not_space _ HY eq_refl). }
    destruct (exists_last HA) as (A' & y & ->).
    rewrite <- app_assoc in Hahead. cbn [app] in Hahead.
    apply chunksAhead_app in Hahead.
    destruct (chunksAhead_cons _ _ Hahead) as [_ [[Hy _] | (_ & c2 & R2' & Heq2 & Hc2)]].
    + exists A', y. split.
      * unfold drop_last_blank. rewrite last_snoc, blank_space. apply removelast_last.
      * split; [exact Hy |]. split.
        -- destruct A' as [| a A']; cbn [app] in Heq |- *; injection Heq as <- _;
             eexists; reflexivity.
        -- split; [right; reflexivity |].
           intros [R2'' Habs]. injection Habs as -> _.
           exfalso. exact (solid_not_space _ Hc' eq_refl).
    + injection Heq2 as <- _. exfalso. exact (solid_not_space _ Hc2 eq_refl).
Qed.

(** The chunks a turn of the first pass works on, once a space at their
    head is dropped. *)
Lemma first_pass_chunks (R lines : list text) :
  firstPass R lines -> R <> [] ->
  exists (b r Y : text) (R1 : list text),
    wordsAhead r
    /\ match R, lines with
       | c :: rest, _ :: _ => if blank c then rest else R
       | _, _ => R
       end = split_from b [] KStart r
    /\ split_from b [] KStart r = Y :: R1
    /\ solid Y /\ (length Y <= 80)%nat /\ nextSolid R = Some Y.
Proof.
  intros (Hahead & Hfirst & _) HR.
  destruct R as [| c Rt]; [congruence |].
  destruct Hahead as (b & rr & Hrr & Heq). destruct Hrr as [-> | [Hr | (r & -> & Hr)]].
  - discriminate Heq.
  - destruct (wordsAhead_chunks b rr Hr) as (Y & R0 & Hsplit & HY & Hlen & _).
    exists b, rr, Y, R0. rewrite Hsplit in Heq. injection Heq as -> ->.
    split; [exact Hr |]. rewrite Hsplit. cbn [nextSolid]. rewrite (blank_solid Y HY).
    split; [destruct lines; reflexivity |]. split; [reflexivity |].
    split; [exact HY |]. split; [exact Hlen | reflexivity].
  - destruct (wordsAhead_head r Hr) as (x & r' & -> & Hx).
    rewrite (split_from_space b x r' Hx) in Heq.
    assert (Hc : c = [space]) by congruence.
    assert (HRt : Rt = split_from (space :: b) [] KStart (x :: r')) by congruence.
    clear Heq. subst c Rt.
    destruct lines as [| l0 lines].
    + exfalso. exact (solid_not_space _ (Hfirst eq_refl _ _ eq_refl) eq_refl).
    + destruct (wordsAhead_chunks (space :: b) (x :: r') Hr)
        as (Y & R0 & Hsplit & HY & Hlen & _).
      exists (space :: b), (x :: r'), Y, R0.
      split; [exact Hr |]. rewrite blank_space. cbn [nextSolid]. rewrite blank_space, Hsplit.
      split; [reflexivity |]. split; [reflexivity |].
      split; [exact HY |]. split; [exact Hlen | reflexivity].
Qed.

(** One turn of the loop in the first pass. *)
Lemma first_pass_turn (R lines : list text) :
  firstPass R lines -> R <> [] ->
  firstPass (wrap_line 80 R lines).1 (wrap_line 80 R lines).2
  /\ (wrap_line 80 R lines).2 <> [].
Proof.
  intros Hpass HR.
  destruct (first_pass_chunks R lines Hpass HR)
    as (b & r & Y & R1 & Hr & Hchunks1 & Hsplit & HY & HlenY & Hnext).
  destruct Hpass as (_ & _ & Hlines & Hpacked & Hgap).
  destruct (fill_line_full 80 (split_from b [] KStart r) [] 0)
    as (taken & R2 & Hfill & Htaken & Hle & Hstop).
  cbn [app Nat.add] in Hfill, Hle, Hstop. specialize (Hle ltac:(lia)).
  assert (Hall : chunksAhead (taken ++ R2)).
  { rewrite <- Htaken. exists b, r. split; [right; left; exact Hr | reflexivity]. }
  pose proof (chunksAhead_app _ _ Hall) as HR2.
  destruct taken as [| Y0 taken'].
  { exfalso. cbn [app] in Htaken. rewrite Hsplit in Htaken. subst R2.
    cbn [concat length] in Hstop. lia. }
  assert (HY0 : Y0 = Y).
  { rewrite Hsplit in Htaken. cbn [app] in Htaken. injection Htaken as -> _. reflexivity. }
  subst Y0.
  destruct (line_chunks_taken Y taken' R2 HY Hall)
    as (B' & y & Hdrop & Hy & (Bt & HB) & Hwhole & Hsp).
  assert (Hshort : match R2 with c :: _ => (length c <= 80)%nat | [] => True end).
  { destruct R2 as [| c2 R2']; [exact I |].
    destruct (chunksAhead_cons _ _ HR2) as [_ [[_ H] | [-> _]]]; [exact H | cbn; lia]. }
  rewrite (wrap_line_short R lines _ _ _ _ Hchunks1 Hfill Hshort)
    by (rewrite Hdrop; destruct B'; discriminate).
  cbn [fst snd]. rewrite Hdrop. set (l := concat (B' ++ [y])).
  assert (Hcat : concat (Y :: taken') = l \/ concat (Y :: taken') = l ++ [space]).
  { destruct Hwhole as [-> | ->]; [left; reflexivity |].
    right. rewrite concat_app. reflexivity. }
  assert (Hr_eq : exists rest, r = l ++ rest).
  { pose proof (split_from_concat r b [] KStart) as Hc. cbn [rev app] in Hc.
    rewrite Htaken, concat_app in Hc. rewrite <- Hc.
    destruct Hcat as [-> | ->]; [eexists; reflexivity |].
    rewrite <- app_assoc. eexists; reflexivity. }
  destruct Hr_eq as (rest & Hr_eq).
  assert (Hlen : (length l <= 80)%nat).
  { destruct Hcat as [Hc | Hc]; rewrite Hc in Hle; [exact Hle |].
    rewrite length_app in Hle. lia. }
  assert (HlenT : (length (concat (Y :: taken')) <= length l + 1)%nat).
  { destruct Hcat as [-> | ->]; [lia |]. rewrite length_app. cbn [length]. lia. }
  assert (Hwl : wordsLine l).
  { destruct Hr as (v & ws & Hall' & Hrv). destruct Hy as [Hyne Hychars].
    destruct (solid_ends y (conj Hyne Hychars)) as (_ & c' & _ & Hlast & _ & Hc').
    apply (prefix_wordsLine ws v l rest c' Hall').
    - rewrite <- Hrv. exact Hr_eq.
    - unfold l. rewrite (last_concat_snoc B' y Hyne). exact Hlast.
    - exact Hc'. }
  assert (HYl : (length Y <= length (firstChunk l))%nat).
  { apply (firstChunk_grows b l rest Y R1).
    - rewrite <- Hr_eq. exact Hsplit.
    - unfold l. rewrite HB, concat_cons, length_app. lia. }
  split; [| destruct lines; discriminate].
  split; [exact HR2 |]. split; [intros H; destruct lines; discriminate H |].
  split; [apply Forall_app; split; [exact Hlines | constructor; [split; assumption | constructor]] |].
  split.
  - apply packed_snoc; [exact Hpacked |]. intros l0 Hl0.
    specialize (Hgap l0 Y Hl0 Hnext). lia.
  - intros l' Y2 Hlast Hnext2. rewrite last_snoc in Hlast. injection Hlast as <-.
    destruct R2 as [| c2 R2']; [discriminate Hnext2 |].
    destruct (chunksAhead_cons _ _ HR2) as [_ [[Hc2 _] | (-> & _)]].
    + cbn [nextSolid] in Hnext2. rewrite (blank_solid c2 Hc2) in Hnext2.
      injection Hnext2 as <-. lia.
    + rewrite (Hsp ltac:(eexists; reflexivity)) in Hstop. fold l in Hstop.
      cbn [length] in Hstop. lia.
Qed.

(** The first pass leaves lines of words that are packed. *)
Lemma first_pass_loop (fuel : nat) :
  forall R lines : list text,
    firstPass R lines -> (length (concat R) <= fuel)%nat ->
    Forall (fun l => wordsLine l /\ (length l <= 80)%nat) (wrap_loop fuel 80 R lines)
    /\ packed (wrap_loop fuel 80 R lines)
    /\ (R <> [] -> wrap_loop fuel 80 R lines <> []).
Proof.
  induction fuel as [| fuel IH]; intros R lines Hpass Hfuel.
  - destruct R as [| c R].
    + destruct Hpass as (_ & _ & Hl & Hp & _). cbn. repeat split; congruence || assumption.
    + exfalso. destruct Hpass as (Hahead & _).
      pose proof (length_concat_nonempty (c :: R) ltac:(discriminate)
                    (chunksAhead_nonempty _ Hahead)). lia.
  - destruct R as [| c R].
    + destruct Hpass as (_ & _ & Hl & Hp & _). cbn. repeat split; congruence || assumption.
    + cbn [wrap_loop].
      destruct (first_pass_turn (c :: R) lines Hpass ltac:(discriminate)) as [Hpass' Hne].
      pose proof Hpass as (Hahead & _).
      destruct (wrap_line_shortens (c :: R) lines ltac:(discriminate)
                  (chunksAhead_nonempty _ Hahead)) as [Hlt _].
      destruct (wrap_line 80 (c :: R) lines) as [R' lines']. cbn [fst snd] in *.
      destruct (IH R' lines' Hpass' ltac:(lia)) as (H1 & H2 & H3).
      split; [exact H1 |]. split; [exact H2 |]. intros _.
      destruct R' as [| c' R'']; [| apply H3; discriminate].
      destruct fuel; exact Hne.
Qed.

(** ** The second pass *)

Lemma wordsLine_head (l : text) :
  wordsLine l -> exists c l', l = c :: l' /\ plainChar c = true.
Proof.
  intros (ws & Hne & Hws & ->). destruct ws as [| w ws]; [congruence |].
  apply wordsAhead_head. exists w, ws. split; [exact Hws | reflexivity].
Qed.

Lemma wordsLine_last (l : text) :
  wordsLine l -> exists c, last l = Some c /\ plainChar c = true.
Proof.
  intros (ws & Hne & Hws & ->). induction Hws as [| w ws Hw Hws IH]; [congruence |].
  destruct ws as [| w' ws].
  - destruct (solid_ends w (plainWord_solid w Hw)) as (_ & c' & _ & Hl & _ & Hc').
    exists c'. split; assumption.
  - destruct (IH ltac:(discriminate)) as (c & Hl & Hc). exists c. split; [| exact Hc].
    rewrite join_cons2, !last_app, Hl. reflexivity.
Qed.

Lemma wordsLine_nonempty (l : text) : wordsLine l -> l <> [].
Proof. intros H. destruct (wordsLine_head l H) as (c & l' & -> & _). discriminate. Qed.

Lemma wordsLine_strip (l : text) : wordsLine l -> strip l = l.
Proof.
  intros H. destruct (wordsLine_head l H) as (c & l' & Heq & Hc).
  destruct (wordsLine_last l H) as (c' & Hlast & Hc').
  apply plainChar_spec in Hc as (Hc & _). apply plainChar_spec in Hc' as (Hc' & _).
  apply (strip_id l c c'); [rewrite Heq; reflexivity | exact Hlast | exact Hc | exact Hc'].
Qed.

Lemma wordsLine_spaced (l : text) : wordsLine l -> spacedText l.
Proof. intros (ws & _ & Hws & ->). apply spacedText_join, Hws. Qed.

Lemma wordsLine_no_newline (l : text) : wordsLine l -> newline ∉ l.
Proof.
  intros H Hin. pose proof (wordsLine_spaced l H) as Hs. unfold spacedText in Hs.
  rewrite Forall_forall in Hs. destruct (Hs newline Hin) as [Heq | Hp].
  - discriminate Heq.
  - vm_compute in Hp. discriminate Hp.
Qed.

Lemma spacedText_lines (L : list text) :
  Forall wordsLine L -> spacedText (join [space] L).
Proof.
  induction 1 as [| l L Hl HL IH]; [constructor |].
  destruct L as [| l' L]; [apply wordsLine_spaced, Hl |].
  rewrite join_cons2. apply spacedText_app; [apply wordsLine_spaced, Hl |].
  apply spacedText_app; [| exact IH]. constructor; [left; reflexivity | constructor].
Qed.

Lemma Forall_last_solid (pieces : list text) :
  pieces <> [] -> Forall solid pieces -> exists A' y, pieces = A' ++ [y] /\ solid y.
Proof.
  intros Hne Hall. destruct (exists_last Hne) as (A' & y & ->).
  exists A', y. split; [reflexivity |]. apply Forall_app in Hall as [_ H].
  apply Forall_cons in H as [H _]. exact H.
Qed.

(** The chunks of a line end with the line. *)
Lemma line_chunks (ws : list text) :
  forall (w b tail : text),
    Forall plainWord (w :: ws) -> wordEnd tail ->
    exists A,
      split_from b [] KStart (join [space] (w :: ws) ++ tail)
        = A ++ split_from (rev (join [space] (w :: ws)) ++ b) [] KStart tail
      /\ concat A = join [space] (w :: ws)
      /\ (exists A' y, A = A' ++ [y] /\ solid y)
      /\ (exists x At, A = x :: At /\ solid x).
Proof.
  induction ws as [| w2 ws IH]; intros w b tail Hall Hend.
  - apply Forall_cons in Hall as [(Hne & _ & Hchars) _]. cbn [join].
    destruct (word_chunks (length w) w b tail (Nat.le_refl _) Hne Hchars Hend)
      as (pieces & Hsplit & Hcat & Hsolid & x & pieces' & Hp).
    exists pieces. split; [exact Hsplit |]. split; [exact Hcat |]. split.
    + apply Forall_last_solid; [rewrite Hp; discriminate | exact Hsolid].
    + exists x, pieces'. split; [exact Hp |]. rewrite Hp in Hsolid.
      apply Forall_cons in Hsolid as [H _]. exact H.
  - apply Forall_cons in Hall as [Hw Hall]. pose proof Hw as (Hne & _ & Hchars).
    rewrite join_cons2, <- !app_assoc.
    assert (Hend' : wordEnd ([space] ++ join [space] (w2 :: ws) ++ tail))
      by (right; eexists; reflexivity).
    destruct (word_chunks (length w) w b _ (Nat.le_refl _) Hne Hchars Hend')
      as (pieces & Hsplit & Hcat & Hsolid & x & pieces' & Hp).
    rewrite Hsplit.
    destruct (wordsAhead_head (join [space] (w2 :: ws)))
      as (c & r' & Hj & Hc); [exists w2, ws; split; [exact Hall | reflexivity] |].
    assert (Hsp : split_from (rev w ++ b) [] KStart
                    ([space] ++ join [space] (w2 :: ws) ++ tail)
                  = [space] :: split_from (space :: rev w ++ b) [] KStart
                                 (join [space] (w2 :: ws) ++ tail)).
    { rewrite Hj. cbn [app]. apply split_from_space, Hc. }
    rewrite Hsp.
    destruct (IH w2 (space :: rev w ++ b) tail Hall Hend)
      as (A2 & Hsplit2 & Hcat2 & (A2' & y & HA2 & Hy) & _).
    rewrite Hsplit2. exists (pieces ++ [space] :: A2).
    split.
    + rewrite <- app_assoc. cbn [app]. do 3 f_equal.
      rewrite !rev_app_distr. cbn [rev app]. rewrite <- !app_assoc. reflexivity.
    + split; [rewrite concat_app, concat_cons, Hcat, Hcat2; reflexivity |]. split.
      * exists (pieces ++ [space] :: A2'), y. split; [| exact Hy].
        rewrite HA2, <- app_assoc. reflexivity.
      * exists x, (pieces' ++ [space] :: A2). split; [rewrite Hp; reflexivity |].
        rewrite Hp in Hsolid. apply Forall_cons in Hsolid as [H _]. exact H.
Qed.

Lemma firstChunk_length (s : text) : (length (firstChunk s) <= length s)%nat.
Proof.
  unfold firstChunk, _split.
  pose proof (split_from_concat s [] [] KStart) as H. cbn [rev app] in H.
  destruct (split_from [] [] KStart s) as [| x R]; [cbn; lia |].
  rewrite <- H, concat_cons, length_app. cbn [hd]. lia.
Qed.

Lemma drop_last_blank_space (line : list text) :
  drop_last_blank (line ++ [[space]]) = line.
Proof.
  unfold drop_last_blank. rewrite last_snoc, blank_space. apply removelast_last.
Qed.

Lemma drop_last_blank_solid (A' : list text) (y : text) :
  solid y -> drop_last_blank (A' ++ [y]) = A' ++ [y].
Proof.
  intros Hy. unfold drop_last_blank. rewrite last_snoc, (blank_solid y Hy). reflexivity.
Qed.

(** One turn of the loop in the second pass: it gives back the line. *)
Lemma second_pass_turn (l : text) (L' lines : list text) (b pre : text) :
  wordsLine l -> (length l <= 80)%nat ->
  Forall (fun l => wordsLine l /\ (length l <= 80)%nat) L' ->
  packed (l :: L') ->
  pre = [] \/ (pre = [space] /\ lines <> []) ->
  exists b' pre',
    wrap_line 80 (split_from b [] KStart (pre ++ join [space] (l :: L'))) lines
      = (split_from b' [] KStart (pre' ++ join [space] L'), lines ++ [l])
    /\ (pre' = [] \/ (pre' = [space] /\ L' <> [])).
Proof.
  intros Hl Hlen HL' Hpacked Hpre.
  rewrite join_spaced.
  assert (Htail : wordEnd (concat (spaced L'))) by apply wordEnd_join.
  assert (H1 : exists b1 A,
             match split_from b [] KStart (pre ++ l ++ concat (spaced L')), lines with
             | c :: rest, _ :: _ =>
                 if blank c then rest
                 else split_from b [] KStart (pre ++ l ++ concat (spaced L'))
             | _, _ => split_from b [] KStart (pre ++ l ++ concat (spaced L'))
             end = A ++ split_from (rev l ++ b1) [] KStart (concat (spaced L'))
             /\ concat A = l
             /\ (exists A' y, A = A' ++ [y] /\ solid y)).
  { pose proof Hl as (ws & Hne & Hws & Hj). destruct ws as [| w ws]; [congruence |].
    destruct Hpre as [-> | [-> Hlines]].
    - destruct (line_chunks ws w b (concat (spaced L')) Hws Htail)
        as (A & Hsplit & Hcat & Hlast & (x & At & HA & Hx)).
      rewrite <- Hj in Hsplit, Hcat. cbn [app]. rewrite Hsplit.
      exists b, A. split; [| split; assumption].
      rewrite HA. cbn [app]. rewrite (blank_solid x Hx). destruct lines; reflexivity.
    - destruct (wordsLine_head l Hl) as (c & l' & Hcl & Hc).
      destruct (line_chunks ws w (space :: b) (concat (spaced L')) Hws Htail)
        as (A & Hsplit & Hcat & Hlast & _).
      rewrite <- Hj in Hsplit, Hcat.
      assert (Hsp : split_from b [] KStart ([space] ++ l ++ concat (spaced L'))
                    = [space] :: split_from (space :: b) [] KStart
                                   (l ++ concat (spaced L'))).
      { rewrite Hcl. cbn [app]. apply split_from_space, Hc. }
      rewrite Hsp. destruct lines as [| l0 lines]; [congruence |].
      rewrite blank_space, Hsplit. exists (space :: b), A. split; [reflexivity |].
      split; assumption. }
  destruct H1 as (b1 & A & Hchunks1 & Hcat & (A' & y & HA & Hy)).
  assert (Hdrop : drop_last_blank A = A) by (rewrite HA; apply drop_last_blank_solid, Hy).
  assert (HAne : A <> []) by (rewrite HA; destruct A'; discriminate).
  assert (Hfill0 : forall Rt,
             fill_line 80 [] 0 (A ++ Rt) = fill_line 80 A (length l) Rt).
  { intros Rt. rewrite fill_line_app by (rewrite Hcat; cbn; lia).
    rewrite Hcat. reflexivity. }
  destruct L' as [| l2 L''].
  - (* the last line *)
    cbn [spaced concat] in Hchunks1 |- *. cbn [split_from] in Hchunks1.
    exists b, []. split; [| left; reflexivity].
    rewrite (wrap_line_short _ lines _ A [] (length l) Hchunks1).
    + rewrite Hdrop, Hcat. reflexivity.
    + rewrite Hfill0. reflexivity.
    + exact I.
    + rewrite Hdrop. exact HAne.
  - (* a line follows *)
    apply Forall_cons in HL' as [[Hl2 Hlen2] HL''].
    destruct Hpacked as [Hroom _].
    assert (Hj2 : concat (spaced (l2 :: L'')) = [space] ++ join [space] (l2 :: L'')).
    { cbn [spaced concat]. rewrite join_spaced. reflexivity. }
    destruct (wordsLine_head l2 Hl2) as (c2 & l2' & Hcl2 & Hc2).
    set (b2 := rev l ++ b1) in *.
    assert (Hsp : split_from b2 [] KStart (concat (spaced (l2 :: L'')))
                  = [space] :: split_from (space :: b2) [] KStart
                                 (join [space] (l2 :: L''))).
    { rewrite Hj2, join_spaced, Hcl2. cbn [app]. apply split_from_space, Hc2. }
    pose proof Hl2 as (ws2 & Hne2 & Hws2 & Hjw2). destruct ws2 as [| w2 ws2]; [congruence |].
    destruct (line_chunks ws2 w2 (space :: b2) (concat (spaced L'')) Hws2
                (wordEnd_join L''))
      as (A2 & Hsplit2 & Hcat2 & _ & (X & At2 & HA2 & HX)).
    rewrite <- Hjw2 in Hsplit2, Hcat2. rewrite <- join_spaced in Hsplit2.
    assert (HXlen : (length X <= 80)%nat).
    { rewrite <- Hcat2, HA2, concat_cons, length_app in Hlen2. lia. }
    assert (HXfirst : (length (firstChunk l2) <= length X)%nat).
    { pose proof (first_chunk_grows l2 [] (space :: b2) [] KStart KStart []
                    (concat (spaced L'')) (weakerBehind_space b2 []) I
                    (wordEnd_join L'')) as H.
      rewrite app_nil_r in H. rewrite <- join_spaced, Hsplit2, HA2 in H.
      cbn [app hd length] in H. pose proof (firstChunk_length l2) as H'.
      unfold firstChunk, _split in *. lia. }
    destruct (length l + 1 <=? 80)%nat eqn:Hspace.
    + (* the space is taken and dropped *)
      exists (space :: b2), []. split; [| left; reflexivity].
      rewrite (wrap_line_short _ lines _ (A ++ [[space]])
                 (split_from (space :: b2) [] KStart (join [space] (l2 :: L'')))
                 (length l + 1)%nat Hchunks1).
      * rewrite drop_last_blank_space, Hcat. reflexivity.
      * rewrite Hfill0, Hsp. cbn [fill_line]. change (length [space]) with 1%nat.
        rewrite Hspace, Hsplit2, HA2. cbn [app fill_line].
        replace (length l + 1 + length X <=? 80)%nat with false
          by (symmetry; apply Nat.leb_gt; lia).
        reflexivity.
      * rewrite Hsplit2, HA2. cbn [app]. exact HXlen.
      * rewrite drop_last_blank_space. exact HAne.
    + (* the space does not fit *)
      exists b2, [space]. split; [| right; split; [reflexivity | discriminate]].
      rewrite (wrap_line_short _ lines _ A
                 (split_from b2 [] KStart (concat (spaced (l2 :: L''))))
                 (length l) Hchunks1).
      * rewrite Hdrop, Hcat, Hj2. reflexivity.
      * rewrite Hfill0, Hsp. cbn [fill_line]. change (length [space]) with 1%nat.
        rewrite Hspace. reflexivity.
      * rewrite Hsp. cbn; lia.
      * rewrite Hdrop. exact HAne.
Qed.

Lemma wrap_loop_step (fuel : nat) (R lines : list text) :
  R <> [] ->
  wrap_loop (S fuel) 80 R lines
    = wrap_loop fuel 80 (wrap_line 80 R lines).1 (wrap_line 80 R lines).2.
Proof.
  intros HR. destruct R as [| c R]; [congruence |]. cbn [wrap_loop].
  destruct (wrap_line 80 (c :: R) lines). reflexivity.
Qed.

(** The second pass gives back packed lines of words. *)
Lemma second_pass_loop (L : list text) :
  forall (lines : list text) (b pre : text) (fuel : nat),
    Forall (fun l => wordsLine l /\ (length l <= 80)%nat) L ->
    packed L ->
    pre = [] \/ (pre = [space] /\ lines <> [] /\ L <> []) ->
    (length (pre ++ join [space] L) <= fuel)%nat ->
    wrap_loop fuel 80 (split_from b [] KStart (pre ++ join [space] L)) lines = lines ++ L.
Proof.
  induction L as [| l L' IH]; intros lines b pre fuel HL Hpacked Hpre Hfuel.
  - destruct Hpre as [-> | (_ & _ & H)]; [| congruence].
    cbn [join app split_from]. rewrite app_nil_r. destruct fuel; reflexivity.
  - apply Forall_cons in HL as [[Hl Hlen] HL'].
    assert (Hpre' : pre = [] \/ (pre = [space] /\ lines <> [])).
    { destruct Hpre as [-> | (-> & H & _)]; [left; reflexivity | right; split; [reflexivity | exact H]]. }
    destruct (second_pass_turn l L' lines b pre Hl Hlen HL' Hpacked Hpre')
      as (b' & pre' & Hturn & Hpre2).
    assert (Hpos : (1 <= length l)%nat).
    { pose proof (wordsLine_nonempty l Hl). destruct l; [congruence | cbn; lia]. }
    assert (Hne : split_from b [] KStart (pre ++ join [space] (l :: L')) <> []).
    { intros Hnil. pose proof (split_from_concat (pre ++ join [space] (l :: L')) b [] KStart) as Hc.
      rewrite Hnil in Hc. cbn [concat rev app] in Hc.
      apply (f_equal (@length _)) in Hc. rewrite length_app, join_spaced, length_app in Hc.
      cbn [length] in Hc. lia. }
    rewrite length_app, join_spaced, length_app in Hfuel.
    destruct fuel as [| fuel]; [lia |].
    rewrite (wrap_loop_step fuel _ lines Hne), Hturn. cbn [fst snd].
    rewrite IH.
    + rewrite <- app_assoc. reflexivity.
    + exact HL'.
    + destruct L' as [| l2 L'']; [exact I |]. destruct Hpacked as [_ H]. exact H.
    + destruct Hpre2 as [-> | (-> & H)]; [left; reflexivity |].
      right. split; [reflexivity |]. split; [destruct lines; discriminate | exact H].
    + rewrite length_app.
      destruct L' as [| l2 L''].
      * destruct Hpre2 as [-> | (_ & H)]; [cbn; lia | congruence].
      * assert (length (concat (spaced (l2 :: L''))) = 1 + length (join [space] (l2 :: L'')))%nat
          by (cbn [spaced concat]; rewrite join_spaced, !length_app; cbn [length]; lia).
        destruct Hpre2 as [-> | (-> & _)]; cbn [length] in *; lia.
Qed.

(** The words of a paragraph of such lines. *)
Lemma paragraph_words (p : list text) :
  p <> [] -> Forall wordsLine p ->
  exists ws : list text,
    ws <> [] /\ Forall plainWord ws /\ join [space] p = join [space] ws.
Proof.
  intros Hne Hp. induction Hp as [| l p Hl Hp IH]; [congruence |].
  destruct Hl as (ws & Hws & Hplain & ->).
  destruct p as [| l' p].
  - exists ws. repeat split; assumption.
  - destruct IH as (ws' & Hws' & Hplain' & Hjoin); [discriminate |].
    exists (ws ++ ws'). repeat split.
    + destruct ws; [congruence | discriminate].
    + apply Forall_app; split; assumption.
    + rewrite join_cons2, Hjoin. symmetry. apply join_app; assumption.
Qed.

(** What [wrap] makes of words one space apart. *)
Lemma wrap_words (ws : list text) :
  ws <> [] -> Forall plainWord ws ->
  wrap (join [space] ws) 80 <> []
  /\ Forall (fun l => wordsLine l /\ (length l <= 80)%nat) (wrap (join [space] ws) 80)
  /\ packed (wrap (join [space] ws) 80).
Proof.
  intros Hne Hws. destruct ws as [| w ws]; [congruence |].
  unfold wrap, _wrap_chunks. rewrite munge_plain by (apply spacedText_join, Hws).
  assert (Hr : wordsAhead (join [space] (w :: ws)))
    by (exists w, ws; split; [exact Hws | reflexivity]).
  destruct (wordsAhead_chunks [] _ Hr) as (Y & R0 & Hsplit & HY & _ & _).
  assert (Hpass : firstPass (_split (join [space] (w :: ws))) []).
  { split; [exists [], (join [space] (w :: ws)); split; [right; left; exact Hr | reflexivity] |].
    split.
    - intros _ c R' Heq. unfold _split in Heq. rewrite Hsplit in Heq.
      injection Heq as <- _. exact HY.
    - split; [constructor |]. split; [exact I |]. intros l Y0 Hlast. discriminate Hlast. }
  destruct (first_pass_loop _ _ [] Hpass (Nat.le_refl _)) as (H1 & H2 & H3).
  split; [apply H3; unfold _split; rewrite Hsplit; discriminate |].
  split; assumption.
Qed.

(** Wrapping packed lines of words gives them back. *)
Lemma wrap_packed (L : list text) :
  Forall (fun l => wordsLine l /\ (length l <= 80)%nat) L -> packed L ->
  wrap (join [space] L) 80 = L.
Proof.
  intros HL Hpacked. unfold wrap, _wrap_chunks.
  assert (Hwl : Forall wordsLine L)
    by (eapply Forall_impl; [exact HL | intros l [H _]; exact H]).
  rewrite munge_plain by (apply spacedText_lines, Hwl).
  unfold _split.
  pose proof (second_pass_loop L [] [] [] (length (join [space] L)) HL Hpacked
                (or_introl eq_refl) (Nat.le_refl _)) as H.
  cbn [app] in H. rewrite split_from_concat. cbn [rev app]. exact H.
Qed.

(** What [_justifyLines] does to a paragraph of lines with text. *)
Lemma justify_paragraph (p : list text) :
  p <> [] -> Forall wordsLine p ->
  _justifyLines p 80 <> []
  /\ Forall wordsLine (_justifyLines p 80)
  /\ _justifyLines (_justifyLines p 80) 80 = _justifyLines p 80.
Proof.
  intros Hne Hp. destruct (paragraph_words p Hne Hp) as (ws & Hws & Hplain & Hjoin).
  unfold _justifyLines. rewrite Hjoin.
  destruct (wrap_words ws Hws Hplain) as (H1 & H2 & H3).
  split; [exact H1 |]. split.
  - eapply Forall_impl; [exact H2 | intros l [H _]; exact H].
  - apply wrap_packed; assumption.
Qed.

(** ** Reflowing twice *)

Lemma renderParagraph_lines (p : list text) :
  renderParagraph p = join nl (renderedLines p).
Proof. destruct p; reflexivity. Qed.

Lemma flat_cons_text (p : list text) (P : list (list text)) :
  p <> [] -> flat (p :: P) = _justifyLines p 80 ++ flat P.
Proof. intros Hp. destruct p; [congruence | reflexivity]. Qed.

Lemma flat_blanks (b : nat) (P : list (list text)) :
  flat (repeat [] b ++ P) = repeat [] b ++ flat P.
Proof.
  induction b as [| b IH]; [reflexivity |].
  cbn [repeat app]. unfold flat in *. cbn [map concat]. rewrite IH. reflexivity.
Qed.

(** Lines with text met while a paragraph is open join it. *)
Lemma group_text_run (X : list text) (q : list text) (b : nat) (R : list text) :
  Forall (fun l => l <> []) X ->
  group (Some q) b (X ++ R) = group (Some (q ++ X)) b R.
Proof.
  intros HX. revert q. induction HX as [| x X Hx _ IH]; intros q.
  - rewrite app_nil_r. reflexivity.
  - cbn [app]. rewrite group_text by exact Hx. rewrite IH, <- app_assoc. reflexivity.
Qed.

Lemma group_blanks_close (q : list text) (b : nat) (R : list text) :
  (1 <= b)%nat -> group (Some q) 0 (repeat [] b ++ R) = q :: group None b R.
Proof.
  intros Hb. destruct b as [| b]; [lia |].
  cbn [repeat app]. rewrite group_blank, group_blank_run.
  replace (b + 1)%nat with (S b) by lia. reflexivity.
Qed.

Lemma group_after_blanks (b : nat) (x : text) (R : list text) :
  x <> [] -> group None b (x :: R) = repeat [] b ++ group (Some []) 0 (x :: R).
Proof. intros Hx. rewrite !group_text by exact Hx. reflexivity. Qed.

Lemma Forall_wordsLine_nonempty (X : list text) :
  Forall wordsLine X -> Forall (fun l => l <> []) X.
Proof. intros H. eapply Forall_impl; [exact H | exact wordsLine_nonempty]. Qed.

(** The rendered paragraphs of an open paragraph start with a line with
    text. *)
Lemma flat_group_head (L p : list text) (b : nat) :
  p <> [] -> Forall wordsLine p -> Forall passLine L ->
  exists x R, x <> [] /\ flat (group (Some p) b L) = x :: R.
Proof.
  intros Hp Hwp HL. revert p Hp Hwp. induction HL as [| l L Hl _ IH]; intros p Hp Hwp.
  - destruct (justify_paragraph p Hp Hwp) as (Hne & Hlines & _).
    cbn [group]. rewrite flat_cons_text by exact Hp.
    destruct (_justifyLines p 80) as [| x R]; [congruence |].
    exists x, (R ++ flat []). split; [| reflexivity].
    apply Forall_cons in Hlines as [Hx _]. apply wordsLine_nonempty, Hx.
  - destruct Hl as [-> | Hl].
    + destruct (justify_paragraph p Hp Hwp) as (Hne & Hlines & _).
      rewrite group_blank, flat_cons_text by exact Hp.
      destruct (_justifyLines p 80) as [| x R]; [congruence |].
      exists x, (R ++ flat (group None 1 L)). split; [| reflexivity].
      apply Forall_cons in Hlines as [Hx _]. apply wordsLine_nonempty, Hx.
    + rewrite group_text by (apply wordsLine_nonempty, Hl).
      apply IH; [destruct p; discriminate |].
      apply Forall_app; split; [exact Hwp | constructor; [exact Hl | constructor]].
Qed.

(** Grouping the rendered lines gives back the paragraphs, each wrapped. *)
Lemma group_flat (L : list text) :
  Forall passLine L ->
  (forall (p : list text) (b : nat),
     p <> [] -> Forall wordsLine p ->
     group (Some []) 0 (flat (group (Some p) b L)) = map rewrapped (group (Some p) b L))
  /\ (forall (q : list text) (b : nat),
        (1 <= b)%nat ->
        group (Some q) 0 (flat (group None b L)) = q :: map rewrapped (group None b L)).
Proof.
  induction 1 as [| l L Hl HL [IH1 IH2]].
  - split.
    + intros p b Hp Hwp. destruct (justify_paragraph p Hp Hwp) as (Hne & Hlines & _).
      cbn [group]. rewrite flat_cons_text by exact Hp. unfold flat; cbn [map concat].
      rewrite group_text_run by (apply Forall_wordsLine_nonempty, Hlines).
      destruct p; [congruence | reflexivity].
    + intros q b Hb. reflexivity.
  - split.
    + intros p b Hp Hwp. destruct Hl as [-> | Hl].
      * destruct (justify_paragraph p Hp Hwp) as (Hne & Hlines & _).
        rewrite group_blank, flat_cons_text by exact Hp.
        rewrite group_text_run by (apply Forall_wordsLine_nonempty, Hlines).
        cbn [app]. rewrite IH2 by lia.
        destruct p; [congruence | reflexivity].
      * rewrite group_text by (apply wordsLine_nonempty, Hl).
        apply IH1; [destruct p; discriminate |].
        apply Forall_app; split; [exact Hwp | constructor; [exact Hl | constructor]].
    + intros q b Hb. destruct Hl as [-> | Hl].
      * rewrite group_blank. apply IH2. lia.
      * rewrite group_text by (apply wordsLine_nonempty, Hl).
        rewrite flat_blanks, group_blanks_close by exact Hb.
        destruct (flat_group_head L [l] 0) as (x & R & Hx & Hflat);
          [discriminate | constructor; [exact Hl | constructor] | exact HL |].
        rewrite Hflat, group_after_blanks by exact Hx. rewrite <- Hflat.
        rewrite IH1 by (discriminate || (constructor; [exact Hl | constructor])).
        rewrite map_app. f_equal. f_equal.
        clear. induction b as [| b IH]; [reflexivity |]. cbn [repeat map rewrapped].
        rewrite <- IH. reflexivity.
Qed.

(** The paragraphs of the first pass hold lines with text only. *)
Lemma group_paragraphs (L : list text) (cur : option (list text)) (b : nat) :
  Forall passLine L ->
  match cur with Some p => Forall wordsLine p | None => True end ->
  Forall (Forall wordsLine) (group cur b L).
Proof.
  intros HL. revert cur b. induction HL as [| l L Hl _ IH]; intros cur b Hcur.
  - destruct cur as [p |]; cbn [group]; repeat constructor. exact Hcur.
  - destruct Hl as [-> | Hl].
    + rewrite group_blank. destruct cur as [p |].
      * constructor; [exact Hcur | apply IH; exact I].
      * apply IH. exact I.
    + rewrite group_text by (apply wordsLine_nonempty, Hl). destruct cur as [p |].
      * apply IH. apply Forall_app; split; [exact Hcur | constructor; [exact Hl | constructor]].
      * apply Forall_app; split.
        -- clear. induction b as [| b IHb]; cbn; constructor; [constructor | exact IHb].
        -- apply IH. constructor; [exact Hl | constructor].
Qed.

Lemma renderedLines_ok (p : list text) :
  Forall wordsLine p ->
  renderedLines p <> [] /\ Forall (fun l => newline ∉ l) (renderedLines p).
Proof.
  intros Hp. destruct p as [| l p].
  - split; [discriminate |]. constructor; [| constructor].
    intros Hin. apply list_elem_of_singleton in Hin. discriminate Hin.
  - destruct (justify_paragraph (l :: p)) as (Hne & Hlines & _); [discriminate | exact Hp |].
    split; [exact Hne |]. eapply Forall_impl; [exact Hlines |]. exact wordsLine_no_newline.
Qed.

(** The rendered description, split at line feeds, gives the rendered
    lines. *)
Lemma split_description (P : list (list text)) :
  P <> [] -> Forall (Forall wordsLine) P ->
  split newline (join nl (map renderParagraph P)) = concat (map renderedLines P).
Proof.
  intros Hne HP.
  rewrite (map_ext _ _ renderParagraph_lines), <- map_map.
  rewrite join_join.
  - apply split_join.
    + destruct P as [| p P]; [congruence |]. cbn [map concat].
      apply Forall_cons in HP as [Hp _]. destruct (renderedLines_ok p Hp) as [H _].
      destruct (renderedLines p); [congruence | discriminate].
    + apply Forall_concat, Forall_map. eapply Forall_impl; [exact HP |].
      intros p Hp. apply renderedLines_ok, Hp.
  - apply Forall_map. eapply Forall_impl; [exact HP |].
    intros p Hp. apply renderedLines_ok, Hp.
Qed.

Lemma strip_renderedLines (P : list (list text)) :
  Forall (Forall wordsLine) P ->
  map strip (concat (map renderedLines P)) = flat P.
Proof.
  induction 1 as [| p P Hp _ IH]; [reflexivity |].
  cbn [map]. rewrite concat_cons, map_app, IH. unfold flat at 2. cbn [map].
  rewrite concat_cons. f_equal.
  destruct p as [| l p]; [reflexivity |]. cbn [renderedLines].
  destruct (justify_paragraph (l :: p)) as (_ & Hlines & _); [discriminate | exact Hp |].
  induction Hlines as [| x X Hx _ IHX]; [reflexivity |].
  cbn [map]. rewrite (wordsLine_strip x Hx), IHX. reflexivity.
Qed.

Lemma renderParagraph_rewrapped (p : list text) :
  Forall wordsLine p -> renderParagraph (rewrapped p) = renderParagraph p.
Proof.
  intros Hp. destruct p as [| l p]; [reflexivity |].
  destruct (justify_paragraph (l :: p)) as (Hne & _ & Hidem); [discriminate | exact Hp |].
  cbn [rewrapped]. unfold renderParagraph.
  destruct (_justifyLines (l :: p) 80) as [| x X] eqn:Hj; [congruence |].
  cbn [length Nat.ltb Nat.leb]. rewrite Hidem. reflexivity.
Qed.

(** The lines the first loop keeps from plain lines. *)
Lemma collectLines_plain (raw lines : list text) :
  Forall plainLine raw -> Forall passLine lines ->
  Forall passLine (collectLines raw lines).
Proof.
  intros Hraw. revert lines. induction Hraw as [| l raw Hl _ IH]; intros lines Hlines;
    [exact Hlines |].
  cbn [collectLines]. destruct (_ && _); [apply IH, Hlines |].
  apply IH. apply Forall_app; split; [exact Hlines |].
  constructor; [| constructor].
  destruct Hl as (ws & Hws & ->). destruct ws as [| w ws]; [left; reflexivity |].
  right. exists (w :: ws). repeat split; [discriminate | exact Hws].
Qed.

Lemma collectLines_head (raw : list text) :
  match collectLines raw [] with
  | [] => True
  | l :: _ => l <> []
  end.
Proof.
  induction raw as [| x raw IH]; [exact I |].
  cbn [collectLines]. destruct (length (strip x) <? 1)%nat eqn:Hx.
  - cbn [length Nat.ltb Nat.leb andb]. exact IH.
  - cbn [andb]. rewrite collectLines_started by discriminate.
    cbn [app]. intros Hnil. rewrite Hnil in Hx. discriminate.
Qed.

Lemma collectLines_text_head (raw : list text) (x : text) (R : list text) :
  map strip raw = x :: R -> x <> [] -> collectLines raw [] = map strip raw.
Proof.
  intros Hmap Hx. destruct raw as [| r raw]; [discriminate |].
  cbn [map] in Hmap. injection Hmap as Hr _.
  change (r :: raw) with ([r] ++ raw). rewrite collectLines_text_first; [reflexivity |].
  rewrite Hr. exact Hx.
Qed.

(** C5, as the code has it: on text whose lines, once stripped, are words
    one space apart, each at most 80 characters long and made of
    characters that are not blank, hyphens and dashes among them,
    reflowing what the reflow rendered gives the same paragraphs and the
    same description. *)
Theorem reflow_twice_on_plain_text (doc : text) :
  Forall plainLine (split newline doc) ->
  descriptionParagraphs (docDescription doc) = descriptionParagraphs doc
  /\ docDescription (docDescription doc) = docDescription doc.
Proof.
  intros Hplain.
  assert (Hpar : descriptionParagraphs (docDescription doc) = descriptionParagraphs doc).
  { unfold docDescription. unfold descriptionParagraphs at 1 3.
    pose proof (collectLines_plain _ [] Hplain (List.Forall_nil _)) as Hlines.
    pose proof (collectLines_head (split newline doc)) as Hhead.
    unfold descriptionParagraphs. rewrite !groupParagraphs_group.
    destruct (collectLines (split newline doc) []) as [| l0 rest]; [reflexivity |].
    apply Forall_cons in Hlines as [Hl0 Hrest].
    destruct Hl0 as [-> | Hl0]; [congruence |].
    rewrite (group_text (Some []) 0 l0 rest Hhead). cbn [app].
    set (P := group (Some [l0]) 0 rest).
    assert (Hw0 : Forall wordsLine [l0]) by (constructor; [exact Hl0 | constructor]).
    assert (HP : Forall (Forall wordsLine) P) by (apply group_paragraphs; assumption).
    assert (HPne : P <> []) by apply group_nonempty.
    rewrite (split_description P HPne HP).
    destruct (flat_group_head rest [l0] 0) as (x & R & Hx & Hflat);
      [discriminate | exact Hw0 | exact Hrest |].
    fold P in Hflat.
    rewrite (collectLines_text_head _ x R);
      [| rewrite strip_renderedLines by exact HP; exact Hflat | exact Hx].
    rewrite strip_renderedLines by exact HP.
    destruct (group_flat rest Hrest) as [Hgroup _].
    unfold P at 1. rewrite (Hgroup [l0] 0%nat) by (discriminate || exact Hw0).
    fold P. rewrite map_map. apply map_ext_Forall.
    eapply Forall_impl; [exact HP |]. intros p Hp. apply renderParagraph_rewrapped, Hp. }
  split; [exact Hpar |]. unfold docDescription at 1 3. rewrite Hpar. reflexivity.
Qed.

Lemma join_split (sep : ascii) (s : text) : join [sep] (split sep s) = s.
Proof.
  induction s as [| c s IH]; [reflexivity |]. cbn [split].
  destruct (Ascii.eqb_spec c sep) as [-> | Hne].
  - destruct (split sep s) as [| h t] eqn:Hs; [destruct (split_cons_nonempty _ _ Hs) |].
    rewrite join_cons2, IH. reflexivity.
  - destruct (split sep s) as [| h t] eqn:Hs; [destruct (split_cons_nonempty _ _ Hs) |].
    destruct t as [| h' t]; cbn [join] in *; rewrite <- IH; reflexivity.
Qed.

Lemma plainWordb_sound (w : text) : plainWordb w = true -> plainWord w.
Proof.
  unfold plainWordb. intros H.
  apply andb_true_iff in H as [H Hchars]. apply andb_true_iff in H as [Hne Hlen].
  repeat split.
  - intros ->. discriminate Hne.
  - apply Nat.leb_le, Hlen.
  - apply Forall_forall. intros c Hc. rewrite forallb_forall in Hchars.
    apply Hchars, list_elem_of_In, Hc.
Qed.

(** A line that passes the check is plain. *)
Lemma plainLineb_sound (l : text) : plainLineb l = true -> plainLine l.
Proof.
  unfold plainLineb. intros H. destruct (strip l) as [| c s] eqn:Hs.
  - exists []. split; [apply List.Forall_nil | exact Hs].
  - exists (split space (c :: s)). split.
    + apply Forall_forall. intros w Hw. apply plainWordb_sound.
      rewrite forallb_forall in H. apply H, list_elem_of_In, Hw.
    + rewrite Hs. symmetry. apply join_split.
Qed.

Lemma reflow_twice_on_plain_text_witness :
  Forall plainLine (split newline hyphenDoc)
  /\ docDescription hyphenDoc
     = join nl
         [txt "Walks a tree of plugin-discoverable commands in a strict depth-first, single-";
          txt "threaded manner -- the well-known one -- and gives back the status of the first";
          txt "handler whose result is non-null."]
  /\ docDescription (docDescription hyphenDoc) = docDescription hyphenDoc.
Proof.
  assert (Hb : forallb plainLineb (split newline hyphenDoc) = true)
    by (vm_compute; reflexivity).
  assert (H : Forall plainLine (split newline hyphenDoc)).
  { apply Forall_forall. intros l Hl. apply plainLineb_sound.
    rewrite forallb_forall in Hb. apply Hb, list_elem_of_In, Hl. }
  split; [exact H |]. split; [vm_compute; reflexivity |].
  destruct (reflow_twice_on_plain_text hyphenDoc H) as [_ Hdesc]. exact Hdesc.
Defined.

(** C5 as the spec words it does not hold.  [unevenDoc] is what the reflow
    renders from [unevenSource], its two lines are within 80 columns, and
    reflowing what the reflow renders from it gives other lines: the
    break that fell in a run of spaces is closed with one space, and the
    next word moves up. *)
Lemma reflow_moves_a_word :
  docDescription unevenSource = unevenDoc
  /\ Forall (fun l => (length l <= 80)%nat) (split newline unevenDoc)
  /\ docDescription (docDescription unevenDoc) <> docDescription unevenDoc.
Proof.
  split; [vm_compute; reflexivity |]. split.
  - apply (bool_decide_unpack _). vm_compute. exact I.
  - vm_compute. discriminate.
Qed.

(** What becomes of the record of C2 depends on the level [run] has set:
    without [-v] the logger of the commands, below the logger of the
    package, is not enabled for error records. *)
Lemma quiet_run_disables_errors :
  isEnabledFor (NamedLogger (cmd_logger sampleRoot)) ERROR
    (configured sampleRoot (selecting 0 None) emptyLogging).2 = false
  /\ isEnabledFor (NamedLogger (cmd_logger sampleRoot)) ERROR
       (configured sampleRoot (selecting 1 None) emptyLogging).2 = true.
Proof. vm_compute. split; reflexivity. Qed.

(** Why the words are bounded: before a word of more than 80 characters
    a full line keeps the space it ends with, and the second reflow,
    which strips the lines, loses it. *)
Lemma long_word_keeps_a_space :
  descriptionParagraphs longWordDoc
    = [join nl [repeat "a"%char 79 ++ [space]; repeat "b"%char 80; repeat "b"%char 20]]
  /\ descriptionParagraphs (docDescription longWordDoc)
     = [join nl [repeat "a"%char 79; repeat "b"%char 80; repeat "b"%char 20]].
Proof. vm_compute. split; reflexivity. Qed.

(** Why the characters of the words are not blank: a no-break space at
    the end of a line of the first reflow is stripped by the second. *)
Lemma blank_in_word_is_lost :
  docDescription noBreakDoc
    = join nl [repeat "a"%char 78 ++ [ascii_of_N 160]; txt "bbbb"]
  /\ docDescription (docDescription noBreakDoc)
     = join nl [repeat "a"%char 78; txt "bbbb"].
Proof. vm_compute. split; reflexivity. Qed.

(** * More of the package *)

(** ** More on the dispatch walk *)

(** X1: a node without sub-commands whose handler returns nothing ends the
    walk with 0, whatever the parsed arguments hold. *)
Theorem unhandled_leaf_succeeds (self : Command) (args : Namespace) (eh : list event) :
  runCommand self args = (eh, Returned None) ->
  _subCommands self = [] ->
  _runCommand self args =
    (opening self ++ eh
       ++ [Log (cmd_logger self) DEBUG
             "Command not handled ourselves, and no sub-commands available"],
     Returned 0%Z).
Proof.
  destruct self as [name h d subs log mods handler].
  unfold opening; cbn [runCommand _subCommands _name cmd_logger].
  intros Hrun ->. cbn [_runCommand]. rewrite Hrun. reflexivity.
Qed.

Lemma unhandled_leaf_succeeds_witness :
  _runCommand (sampleNode "root" defaultRunCommand []) (runArgs (selecting 0 None) [])
  = (opening (sampleNode "root" defaultRunCommand [])
       ++ [Log "libs.command.command" DEBUG
             "Command not handled ourselves, and no sub-commands available"],
     Returned 0%Z).
Proof.
  apply (unhandled_leaf_succeeds (sampleNode "root" defaultRunCommand [])
           (runArgs (selecting 0 None) []) []); reflexivity.
Defined.

(** The search for the selected child among children none of which has
    the name. *)
Lemma find_unmatched (log choice : string) (args : Namespace) (subs : list Command) :
  Forall (fun c => _name c <> choice) subs ->
  (fix find (l : list Command) : list event * outcome Z :=
     match l with
     | [] => ([Log log ERROR "Couldn't find sub-command"], Returned (-1)%Z)
     | subCommand :: l' =>
         if negb (String.eqb (_name subCommand) choice)
         then find l'
         else
           let '(ev, r) := _runCommand subCommand args in
           (Log log DEBUG "Found sub-command" :: ev, r)
     end) subs
  = ([Log log ERROR "Couldn't find sub-command"], Returned (-1)%Z).
Proof.
  induction 1 as [| c subs Hc _ IH]; [reflexivity |].
  apply String.eqb_neq in Hc. rewrite Hc. cbn [negb]. exact IH.
Qed.

(** X2: when the selected name is the name of no child, the walk logs an
    error and returns -1; no child is run. *)
Theorem unmatched_selection_is_an_error (self : Command) (args : Namespace)
    (eh : list event) (choice : string) :
  runCommand self args = (eh, Returned None) ->
  _subCommands self <> [] ->
  choice <> "" ->
  getattr args (selectionKey self) = Returned (Some choice) ->
  Forall (fun c => _name c <> choice) (_subCommands self) ->
  _runCommand self args =
    (opening self ++ eh
       ++ [Log (cmd_logger self) DEBUG ("Sub-command '" ++ choice ++ "' invoked, finding it...");
           Log (cmd_logger self) ERROR "Couldn't find sub-command"],
     Returned (-1)%Z).
Proof.
  destruct self as [name h d subs log mods handler].
  unfold selectionKey, opening; cbn [runCommand _subCommands _name cmd_logger].
  intros Hrun Hsubs Hchoice Hsel Hnames.
  cbn [_runCommand]. rewrite Hrun.
  destruct subs as [| sub subs]; [congruence |]. cbn [length Nat.ltb Nat.leb].
  rewrite Hsel. destruct choice as [| c choice]; [congruence |].
  rewrite (find_unmatched log (String c choice) args (sub :: subs) Hnames).
  reflexivity.
Qed.

Lemma unmatched_selection_is_an_error_witness :
  _runCommand sampleRoot (runArgs (selecting 0 (Some "nope")) [])
  = (opening sampleRoot
       ++ [Log "libs.command.command" DEBUG "Sub-command 'nope' invoked, finding it...";
           Log "libs.command.command" ERROR "Couldn't find sub-command"],
     Returned (-1)%Z).
Proof.
  apply (unmatched_selection_is_an_error sampleRoot
           (runArgs (selecting 0 (Some "nope")) []) [] "nope").
  - reflexivity.
  - discriminate.
  - discriminate.
  - reflexivity.
  - repeat constructor; discriminate.
Defined.

(** The children before the first one named [choice], that child and the
    children after it. *)
Lemma first_named (choice : string) (subs : list Command) :
  choice ∈ map _name subs ->
  exists before sub after,
    subs = before ++ sub :: after
    /\ Forall (fun c => _name c <> choice) before
    /\ _name sub = choice.
Proof.
  induction subs as [| c subs IH]; intros Hin; [inversion Hin |].
  destruct (String.eqb_spec (_name c) choice) as [Heq | Hne].
  - exists [], c, subs. repeat split; [constructor | exact Heq].
  - cbn [map] in Hin. apply elem_of_cons in Hin as [Hin | Hin]; [congruence |].
    destruct (IH Hin) as (before & sub & after & -> & Hbefore & Hname).
    exists (c :: before), sub, after. repeat split; [constructor; assumption | exact Hname].
Qed.

(** X3: when the selected name is the name of a child, the walk goes into
    a child of that name, and what that child's walk returns or raises is
    what the parent's walk returns or raises: the error for an unmatched
    name is not logged. *)
Theorem matched_selection_is_delegated (self : Command) (args : Namespace)
    (eh : list event) (choice : string) :
  runCommand self args = (eh, Returned None) ->
  choice <> "" ->
  getattr args (selectionKey self) = Returned (Some choice) ->
  choice ∈ map _name (_subCommands self) ->
  exists sub : Command,
    sub ∈ _subCommands self /\ _name sub = choice
    /\ _runCommand self args =
         (opening self ++ eh
            ++ [Log (cmd_logger self) DEBUG
                  ("Sub-command '" ++ choice ++ "' invoked, finding it...");
                Log (cmd_logger self) DEBUG "Found sub-command"]
            ++ (_runCommand sub args).1,
          (_runCommand sub args).2).
Proof.
  intros Hrun Hchoice Hsel Hin.
  destruct (first_named choice (_subCommands self) Hin)
    as (before & sub & after & Hsubs & Hbefore & Hname).
  exists sub. split; [| split; [exact Hname |]].
  - rewrite Hsubs. apply elem_of_app. right. apply list_elem_of_here.
  - apply (selected_child_decides self sub args eh (_runCommand sub args).1 before after
             choice (_runCommand sub args).2 Hrun Hsubs Hbefore Hname Hchoice Hsel).
    destruct (_runCommand sub args); reflexivity.
Qed.

Lemma matched_selection_is_delegated_witness :
  exists sub : Command,
    sub ∈ _subCommands sampleRoot /\ _name sub = "greet"
    /\ _runCommand sampleRoot (runArgs (selecting 0 (Some "greet")) []) =
         (opening sampleRoot
            ++ [Log (cmd_logger sampleRoot) DEBUG
                  ("Sub-command '" ++ "greet" ++ "' invoked, finding it...");
                Log (cmd_logger sampleRoot) DEBUG "Found sub-command"]
            ++ (_runCommand sub (runArgs (selecting 0 (Some "greet")) [])).1,
          (_runCommand sub (runArgs (selecting 0 (Some "greet")) [])).2).
Proof.
  apply (matched_selection_is_delegated sampleRoot
           (runArgs (selecting 0 (Some "greet")) []) [] "greet").
  - reflexivity.
  - discriminate.
  - reflexivity.
  - apply list_elem_of_here.
Defined.

(** ** The registry across a run *)

Lemma getLogger_ref (name : string) (lg : Logging) : (getLogger name lg).1 = loggerRef name.
Proof. unfold getLogger, loggerRef. destruct (_ || _); reflexivity. Qed.

(** Asking for a logger changes no logger. *)
Lemma theLogger_getLogger (r : logger_ref) (name : string) (lg : Logging) :
  theLogger r (getLogger name lg).2 = theLogger r lg.
Proof.
  unfold getLogger. destruct (_ || _); [reflexivity |]. cbn [snd].
  destruct (loggerDict lg !! name) as [l |] eqn:Hl; [reflexivity |].
  destruct r as [| n]; [reflexivity |]. cbn [theLogger loggerDict].
  destruct (decide (name = n)) as [-> | Hne].
  - rewrite lookup_insert_eq, Hl. reflexivity.
  - rewrite lookup_insert_ne by exact Hne. reflexivity.
Qed.

Lemma handlerCount_getLogger (name : string) (lg : Logging) :
  handlerCount (getLogger name lg).2 = handlerCount lg.
Proof.
  unfold getLogger. destruct (_ || _); [reflexivity |]. cbn [snd].
  destruct (loggerDict lg !! name); reflexivity.
Qed.

Lemma getLoggers_refs (names : list string) (lg : Logging) :
  (getLoggers names lg).1 = map loggerRef names.
Proof.
  revert lg. induction names as [| n names IH]; intros lg; [reflexivity |].
  cbn [getLoggers map]. pose proof (getLogger_ref n lg) as Hn.
  destruct (getLogger n lg) as [r lg1]. cbn [fst] in Hn. subst r.
  specialize (IH lg1). destruct (getLoggers names lg1) as [rs lg2]. cbn [fst] in *.
  rewrite IH. reflexivity.
Qed.

Lemma theLogger_getLoggers (r : logger_ref) (names : list string) (lg : Logging) :
  theLogger r (getLoggers names lg).2 = theLogger r lg
  /\ handlerCount (getLoggers names lg).2 = handlerCount lg.
Proof.
  revert lg. induction names as [| n names IH]; intros lg; [split; reflexivity |].
  cbn [getLoggers].
  pose proof (theLogger_getLogger r n lg) as Hn.
  pose proof (handlerCount_getLogger n lg) as Hc.
  destruct (getLogger n lg) as [r1 lg1]. cbn [snd] in Hn, Hc.
  destruct (IH lg1) as [IH1 IH2]. destruct (getLoggers names lg1) as [rs lg2].
  cbn [snd] in *. split; congruence.
Qed.

(** Selecting the loggers of a run changes no logger. *)
Lemma theLogger_selectLoggers (self : Command) (parsed : Parsed) (r : logger_ref)
    (lg : Logging) :
  theLogger r (selectLoggers self parsed lg).2 = theLogger r lg
  /\ handlerCount (selectLoggers self parsed lg).2 = handlerCount lg.
Proof.
  unfold selectLoggers. destruct (p_verbose parsed >=? 5)%Z; [split; reflexivity |].
  apply theLogger_getLoggers.
Qed.

Lemma wfLogging_selectLoggers (self : Command) (parsed : Parsed) (lg : Logging) :
  wfLogging lg -> wfLogging (selectLoggers self parsed lg).2.
Proof.
  intros Hwf r. destruct (theLogger_selectLoggers self parsed r lg) as [-> ->]. apply Hwf.
Qed.

Lemma handlers_setLevel (r r' : logger_ref) (lvl : Z) (lg : Logging) :
  handlers (theLogger r (setLevel r' lvl lg)) = handlers (theLogger r lg).
Proof.
  unfold setLevel. destruct (decide (r = r')) as [-> | Hne].
  - rewrite theLogger_setLogger_eq. reflexivity.
  - rewrite theLogger_setLogger_ne by exact Hne. reflexivity.
Qed.

Lemma handlers_addHandler (r r' : logger_ref) (h : nat) (lg : Logging) :
  h ∉ handlers (theLogger r' lg) ->
  handlers (theLogger r (addHandler r' h lg))
    = if decide (r = r') then handlers (theLogger r lg) ++ [h]
      else handlers (theLogger r lg).
Proof.
  intros Hfresh. unfold addHandler. rewrite bool_decide_eq_false_2 by exact Hfresh.
  destruct (decide (r = r')) as [-> | Hne].
  - rewrite theLogger_setLogger_eq. reflexivity.
  - rewrite theLogger_setLogger_ne by exact Hne. reflexivity.
Qed.

Lemma handlerCount_setLogger (r : logger_ref) (l : Logger) (lg : Logging) :
  handlerCount (setLogger r l lg) = handlerCount lg.
Proof. destruct r; reflexivity. Qed.

Lemma handlerCount_addHandler (r : logger_ref) (h : nat) (lg : Logging) :
  handlerCount (addHandler r h lg) = handlerCount lg.
Proof.
  unfold addHandler. destruct (bool_decide _); [reflexivity | apply handlerCount_setLogger].
Qed.

(** One turn of the configuring loop on a well-formed registry: its logger
    gets one more handler, a new one, at the end of its list. *)
Lemma configure_step_handlers (v : Z) (r r' : logger_ref) (lg : Logging) :
  wfLogging lg ->
  handlers (theLogger r
              (addHandler r' (StreamHandler (setLevel r' (levelFor v) lg)).1
                 (StreamHandler (setLevel r' (levelFor v) lg)).2))
    = (if decide (r = r') then handlers (theLogger r lg) ++ [handlerCount lg]
       else handlers (theLogger r lg))
  /\ wfLogging (addHandler r' (StreamHandler (setLevel r' (levelFor v) lg)).1
                  (StreamHandler (setLevel r' (levelFor v) lg)).2).
Proof.
  intros Hwf.
  assert (Hcount : handlerCount (setLevel r' (levelFor v) lg) = handlerCount lg)
    by apply handlerCount_setLogger.
  assert (Hfresh : forall x, handlerCount lg ∉ handlers (theLogger x lg)).
  { intros x Hin. specialize (Hwf x). rewrite Forall_forall in Hwf.
    specialize (Hwf _ Hin). lia. }
  assert (Hstep : forall x,
    handlers (theLogger x
                (addHandler r' (StreamHandler (setLevel r' (levelFor v) lg)).1
                   (StreamHandler (setLevel r' (levelFor v) lg)).2))
    = if decide (x = r') then handlers (theLogger x lg) ++ [handlerCount lg]
      else handlers (theLogger x lg)).
  { intros x.
    change (StreamHandler (setLevel r' (levelFor v) lg)).1
      with (handlerCount (setLevel r' (levelFor v) lg)).
    rewrite Hcount, handlers_addHandler.
    - rewrite !theLogger_StreamHandler, !handlers_setLevel. reflexivity.
    - rewrite theLogger_StreamHandler, handlers_setLevel. apply Hfresh. }
  split; [apply Hstep |].
  intros x. rewrite Hstep. rewrite handlerCount_addHandler. cbn [StreamHandler snd handlerCount].
  rewrite Hcount.
  assert (Hold : Forall (fun h => (h < S (handlerCount lg))%nat) (handlers (theLogger x lg))).
  { eapply Forall_impl; [apply Hwf |]. cbn. intros; lia. }
  destruct (decide (x = r')); [| exact Hold].
  apply Forall_app; split; [exact Hold |]. constructor; [lia | constructor].
Qed.

Lemma occurrences_cons (r r0 : logger_ref) (ls : list logger_ref) :
  occurrences r (r0 :: ls)
    = ((if decide (r = r0) then 1 else 0) + occurrences r ls)%nat.
Proof.
  unfold occurrences. cbn [List.filter].
  destruct (decide (r = r0)) as [-> | Hne].
  - rewrite bool_decide_eq_true_2 by reflexivity. reflexivity.
  - rewrite bool_decide_eq_false_2 by congruence. reflexivity.
Qed.

(** The configuring loop on a well-formed registry: every logger gets as
    many new handlers, after those it had, as it has places in the list. *)
Lemma configureLoggers_handlers (v : Z) (ls : list logger_ref) (lg : Logging) :
  wfLogging lg ->
  wfLogging (configureLoggers v ls lg)
  /\ forall r : logger_ref,
       exists new : list nat,
         handlers (theLogger r (configureLoggers v ls lg))
           = handlers (theLogger r lg) ++ new
         /\ length new = occurrences r ls.
Proof.
  revert lg. induction ls as [| r0 ls IH]; intros lg Hwf.
  - split; [exact Hwf |]. intros r. exists []. rewrite app_nil_r. split; reflexivity.
  - cbn [configureLoggers].
    pose proof (fun r => proj1 (configure_step_handlers v r r0 lg Hwf)) as Hstep.
    pose proof (proj2 (configure_step_handlers v r0 r0 lg Hwf)) as Hwf1.
    destruct (StreamHandler (setLevel r0 (levelFor v) lg)) as [h lg1].
    cbn [fst snd] in Hstep, Hwf1.
    destruct (IH _ Hwf1) as [Hwf2 Hnew]. split; [exact Hwf2 |].
    intros r. destruct (Hnew r) as (new & Heq & Hlen).
    rewrite Heq, Hstep, occurrences_cons.
    destruct (decide (r = r0)).
    + exists (handlerCount lg :: new). rewrite <- app_assoc. split; [reflexivity |].
      cbn [length]. lia.
    + exists new. split; [reflexivity | exact Hlen].
Qed.

Lemma list_remove_head (h : nat) (l : list nat) : list_remove h (h :: l) = l.
Proof. cbn [list_remove]. rewrite Nat.eqb_refl. reflexivity. Qed.

(** Taking the first handler off a logger that has one. *)
Lemma removeHandler_first (r r' : logger_ref) (first : nat) (rest : list nat)
    (lg : Logging) :
  handlers (theLogger r' lg) = first :: rest ->
  handlers (theLogger r (removeHandler r' first lg))
    = drop (if decide (r = r') then 1 else 0) (handlers (theLogger r lg))
  /\ level (theLogger r (removeHandler r' first lg)) = level (theLogger r lg).
Proof.
  intros Hh. unfold removeHandler. rewrite Hh.
  rewrite bool_decide_eq_true_2 by apply list_elem_of_here.
  rewrite list_remove_head.
  destruct (decide (r = r')) as [-> | Hne].
  - rewrite theLogger_setLogger_eq, Hh. split; reflexivity.
  - rewrite theLogger_setLogger_ne by exact Hne. split; reflexivity.
Qed.

(** The closing loop, when every logger has a handler for each of its
    places in the list: it raises nothing, takes that many handlers off
    the front of each list and leaves the levels. *)
Lemma removeHandlers_spec (ls : list logger_ref) (lg : Logging) :
  (forall r, (occurrences r ls <= length (handlers (theLogger r lg)))%nat) ->
  (removeHandlers ls lg).2 = Returned tt
  /\ forall r : logger_ref,
       handlers (theLogger r (removeHandlers ls lg).1)
         = drop (occurrences r ls) (handlers (theLogger r lg))
       /\ level (theLogger r (removeHandlers ls lg).1) = level (theLogger r lg).
Proof.
  revert lg. induction ls as [| r0 ls IH]; intros lg Hocc.
  - split; [reflexivity |]. intros r. split; reflexivity.
  - cbn [removeHandlers].
    destruct (handlers (theLogger r0 lg)) as [| first rest] eqn:Hh.
    { specialize (Hocc r0). rewrite occurrences_cons, Hh in Hocc.
      destruct (decide (r0 = r0)); [cbn in Hocc; lia | congruence]. }
    pose proof (fun r => removeHandler_first r r0 first rest lg Hh) as Hstep.
    destruct (IH (removeHandler r0 first lg)) as [Hret Hall].
    { intros r. destruct (Hstep r) as [-> _]. rewrite length_drop.
      specialize (Hocc r). rewrite occurrences_cons in Hocc.
      destruct (decide (r = r0)); lia. }
    split; [exact Hret |]. intros r. destruct (Hall r) as [-> ->].
    destruct (Hstep r) as [-> ->]. rewrite drop_drop, occurrences_cons.
    split; [f_equal; lia | reflexivity].
Qed.

(** A run whose walk returns: [run] returns the same, the closing loop
    raises nothing, and each logger is left with the handlers it had,
    less as many from the front as it got new ones at the end. *)
Lemma run_returning (self : Command) (parsed : Parsed) (lg : Logging)
    (ev : list event) (result : Z) :
  wfLogging lg ->
  _runCommand self (runArgs parsed (configured self parsed lg).1) = (ev, Returned result) ->
  exists lg' : Logging,
    run self parsed lg = (lg', ev, Returned result)
    /\ forall r : logger_ref,
         (exists new : list nat,
            handlers (theLogger r lg')
              = drop (length new) (handlers (theLogger r lg) ++ new))
         /\ level (theLogger r lg') = level (theLogger r (configured self parsed lg).2).
Proof.
  intros Hwf Hwalk. unfold run. unfold configured in *.
  pose proof (wfLogging_selectLoggers self parsed lg Hwf) as Hwf1.
  pose proof (fun r => proj1 (theLogger_selectLoggers self parsed r lg)) as Hsame.
  destruct (selectLoggers self parsed lg) as [loggers lg1]. cbn [fst snd] in *.
  rewrite Hwalk.
  destruct (configureLoggers_handlers (p_verbose parsed) loggers lg1 Hwf1) as [_ Hnew].
  destruct (removeHandlers_spec loggers (configureLoggers (p_verbose parsed) loggers lg1))
    as [Hret Hall].
  { intros r. destruct (Hnew r) as (new & -> & Hlen). rewrite length_app. lia. }
  destruct (removeHandlers loggers (configureLoggers (p_verbose parsed) loggers lg1))
    as [lg' out]. cbn [fst snd] in *. subst out.
  exists lg'. split; [reflexivity |]. intros r.
  destruct (Hall r) as [Hh Hl]. split; [| exact Hl].
  destruct (Hnew r) as (new & Heq & Hlen). exists new.
  rewrite Hh, Heq, Hlen, Hsame. reflexivity.
Qed.

(** X4: on a well-formed registry, when the walk returns a status, [run]
    returns that status with the trace of the walk: the closing loop never
    fails on an empty handler list.  Every logger ends with as many
    handlers as it had, and a logger that had none ends with none. *)
Theorem returning_run_keeps_handler_counts (self : Command) (parsed : Parsed)
    (lg : Logging) (ev : list event) (result : Z) :
  wfLogging lg ->
  _runCommand self (runArgs parsed (configured self parsed lg).1) = (ev, Returned result) ->
  (run self parsed lg).2 = Returned result
  /\ (run self parsed lg).1.2 = ev
  /\ forall r : logger_ref,
       length (handlers (theLogger r (run self parsed lg).1.1))
         = length (handlers (theLogger r lg))
       /\ (handlers (theLogger r lg) = [] ->
           handlers (theLogger r (run self parsed lg).1.1) = []).
Proof.
  intros Hwf Hwalk.
  destruct (run_returning self parsed lg ev result Hwf Hwalk) as (lg' & -> & Hall).
  cbn [fst snd]. split; [reflexivity |]. split; [reflexivity |].
  intros r. destruct (Hall r) as [(new & ->) _]. split.
  - rewrite length_drop, length_app. lia.
  - intros ->. cbn [app]. apply drop_all.
Qed.

Lemma wfLogging_empty : wfLogging emptyLogging.
Proof. intros [| name]; constructor. Qed.

Lemma returning_run_keeps_handler_counts_witness :
  (run sampleRoot (selecting 0 (Some "greet")) emptyLogging).2 = Returned 0%Z
  /\ handlers (theLogger (NamedLogger "libs")
                 (run sampleRoot (selecting 0 (Some "greet")) emptyLogging).1.1) = [].
Proof.
  destruct (returning_run_keeps_handler_counts sampleRoot (selecting 0 (Some "greet"))
              emptyLogging
              (_runCommand sampleRoot
                 (runArgs (selecting 0 (Some "greet"))
                    (configured sampleRoot (selecting 0 (Some "greet")) emptyLogging).1)).1
              0%Z wfLogging_empty)
    as (Hret & _ & Hall).
  - vm_compute. reflexivity.
  - split; [exact Hret |]. apply (Hall (NamedLogger "libs")). reflexivity.
Defined.

(** X5: the levels are not put back.  After a run whose walk returned,
    every selected logger still has the level chosen for the count of
    [-v]. *)
Theorem returning_run_leaves_levels (self : Command) (parsed : Parsed)
    (lg : Logging) (ev : list event) (result : Z) (r : logger_ref) :
  wfLogging lg ->
  _runCommand self (runArgs parsed (configured self parsed lg).1) = (ev, Returned result) ->
  r ∈ (configured self parsed lg).1 ->
  level (theLogger r (run self parsed lg).1.1) = levelFor (p_verbose parsed).
Proof.
  intros Hwf Hwalk Hin.
  destruct (run_returning self parsed lg ev result Hwf Hwalk) as (lg' & -> & Hall).
  cbn [fst]. destruct (Hall r) as [_ ->].
  unfold configured in *. destruct (selectLoggers self parsed lg) as [loggers lg1].
  cbn [fst snd] in *. apply configureLoggers_sets_level, Hin.
Qed.

Lemma returning_run_leaves_levels_witness :
  level (theLogger (NamedLogger "libs")
           (run sampleRoot (selecting 2 (Some "greet")) emptyLogging).1.1) = WARNING.
Proof.
  apply (returning_run_leaves_levels sampleRoot (selecting 2 (Some "greet")) emptyLogging
           (_runCommand sampleRoot
              (runArgs (selecting 2 (Some "greet"))
                 (configured sampleRoot (selecting 2 (Some "greet")) emptyLogging).1)).1
           0%Z (NamedLogger "libs") wfLogging_empty).
  - vm_compute. reflexivity.
  - vm_compute. apply list_elem_of_here.
Defined.

(** X6: an exception of the walk other than [KeyboardInterrupt] leaves
    [run] as it is: nothing is printed for it, no status is returned, and
    the registry stays as configured, handlers included. *)
Theorem other_exceptions_leave_run (self : Command) (parsed : Parsed) (lg : Logging)
    (ev : list event) (e : exn) :
  _runCommand self (runArgs parsed (configured self parsed lg).1) = (ev, Raised e) ->
  e <> KeyboardInterrupt ->
  run self parsed lg = ((configured self parsed lg).2, ev, Raised e).
Proof.
  unfold run. destruct (configured self parsed lg) as [loggers lg'].
  cbn [fst snd]. intros -> He. destruct e; congruence.
Qed.

Lemma other_exceptions_leave_run_witness :
  run (sampleNode "root" defaultRunCommand [sampleNode "example" exampleRunCommand []])
    (selecting 0 (Some "example")) emptyLogging
  = ((configured
        (sampleNode "root" defaultRunCommand [sampleNode "example" exampleRunCommand []])
        (selecting 0 (Some "example")) emptyLogging).2,
     opening (sampleNode "root" defaultRunCommand [])
       ++ [Log "libs.command.command" DEBUG "Sub-command 'example' invoked, finding it...";
           Log "libs.command.command" DEBUG "Found sub-command"]
       ++ opening (sampleNode "example" exampleRunCommand []),
     Raised AttributeError).
Proof.
  apply (other_exceptions_leave_run
           (sampleNode "root" defaultRunCommand [sampleNode "example" exampleRunCommand []])
           (selecting 0 (Some "example")) emptyLogging).
  - vm_compute. reflexivity.
  - discriminate.
Defined.

(** ** The loggers a run selects *)

Lemma elem_of_listOfSet (p : string) (l : list string) : p ∈ listOfSet l <-> p ∈ l.
Proof. unfold listOfSet. rewrite elem_of_elements, elem_of_list_to_set. reflexivity. Qed.

(** The log modules gathered over the sub-commands. *)
Lemma elem_of_gathered (p : string) (subs : list Command) (init : list string) :
  p ∈ fold_left (fun acc sub => listOfSet (acc ++ _logModules sub)) subs init
  <-> p ∈ init \/ exists sub, sub ∈ subs /\ p ∈ _logModules sub.
Proof.
  revert init. induction subs as [| s subs IH]; intros init; cbn [fold_left].
  - split; [left; assumption |]. intros [H | (sub & Hsub & _)]; [exact H | inversion Hsub].
  - rewrite IH, elem_of_listOfSet, elem_of_app. split.
    + intros [[H | H] | (sub & Hsub & Hp)].
      * left. exact H.
      * right. exists s. split; [apply list_elem_of_here | exact H].
      * right. exists sub. split; [apply list_elem_of_further, Hsub | exact Hp].
    + intros [H | (sub & Hsub & Hp)]; [left; left; exact H |].
      apply elem_of_cons in Hsub as [-> | Hsub].
      * left. right. exact Hp.
      * right. exists sub. split; assumption.
Qed.

Lemma NoDup_gathered (subs : list Command) (init : list string) :
  NoDup init ->
  NoDup (fold_left (fun acc sub => listOfSet (acc ++ _logModules sub)) subs init).
Proof.
  revert init. induction subs as [| s subs IH]; intros init Hinit; [exact Hinit |].
  cbn [fold_left]. apply IH. unfold listOfSet. apply NoDup_elements.
Qed.

(** X7: the log modules of a constructed command are the package of its
    own module and the log modules of its sub-commands, each listed
    once. *)
Theorem log_modules_bubble_up (doc : option text) (moduleLocation : string)
    (handler : Namespace -> list event * outcome (option Z)) (name : string)
    (help description : option text) (subCommands : option (list Command))
    (lg lg' : Logging) (c : Command) :
  __init__ doc moduleLocation handler name help description subCommands lg
    = (lg', Returned c) ->
  _subCommands c = default [] subCommands
  /\ NoDup (_logModules c)
  /\ forall p : string,
       p ∈ _logModules c
       <-> p = firstComponent moduleLocation
           \/ exists sub, sub ∈ _subCommands c /\ p ∈ _logModules sub.
Proof.
  unfold __init__.
  destruct (match help, description with
            | Some h, Some d => Returned (h, d)
            | _, _ => _
            end) as [[h d] | e]; [| discriminate].
  destruct (getLogger moduleLocation lg) as [r lg1].
  intros [= _ <-]. cbn [_subCommands _logModules].
  split; [reflexivity |]. split.
  - apply NoDup_gathered. apply NoDup_singleton.
  - intros p. rewrite elem_of_gathered, list_elem_of_singleton. reflexivity.
Qed.

Lemma log_modules_bubble_up_witness :
  exists c lg',
    __init__ None "tools.cmd" defaultRunCommand "tools" (Some (txt "Tools"))
      (Some (txt "Tools")) (Some [sampleRoot]) emptyLogging = (lg', Returned c)
    /\ "tools" ∈ _logModules c /\ "libs" ∈ _logModules c.
Proof.
  eexists. eexists. split; [reflexivity |].
  destruct (log_modules_bubble_up None "tools.cmd" defaultRunCommand "tools"
              (Some (txt "Tools")) (Some (txt "Tools")) (Some [sampleRoot])
              emptyLogging _ _ eq_refl) as (_ & _ & Hin).
  split; apply Hin.
  - left. reflexivity.
  - right. exists sampleRoot. split; apply list_elem_of_here.
Defined.

(** The names whose loggers a run selects below five [-v]. *)
Lemma configured_names (self : Command) (parsed : Parsed) (lg : Logging) :
  (p_verbose parsed < 5)%Z ->
  (configured self parsed lg).1
    = map loggerRef
        (if (length (p_logger parsed) <? 1)%nat
         then listOfSet ([ourModule] ++ _logModules self)
         else p_logger parsed).
Proof.
  intros Hv. unfold configured, selectLoggers.
  replace (p_verbose parsed >=? 5)%Z with false
    by (symmetry; rewrite Z.geb_leb; apply Z.leb_gt; lia).
  set (names := if (length (p_logger parsed) <? 1)%nat
                then listOfSet ([ourModule] ++ _logModules self)
                else p_logger parsed).
  pose proof (getLoggers_refs names lg) as Hrefs.
  destruct (getLoggers names lg) as [loggers lg1]. exact Hrefs.
Qed.

Lemma level_configured (self : Command) (parsed : Parsed) (lg : Logging) (r : logger_ref) :
  r ∈ (configured self parsed lg).1 ->
  level (theLogger r (configured self parsed lg).2) = levelFor (p_verbose parsed).
Proof.
  unfold configured. destruct (selectLoggers self parsed lg) as [loggers lg1].
  cbn [fst snd]. apply configureLoggers_sets_level.
Qed.

(** X8: below five [-v] and without [--logger], the logger of the package
    of [Command] and the logger of every log module of the root command
    are set to the level of the count; with [--logger], the loggers named
    are. *)
Theorem named_loggers_get_the_level (self : Command) (parsed : Parsed) (lg : Logging)
    (p : string) :
  (p_verbose parsed < 5)%Z ->
  (p_logger parsed = [] /\ (p = ourModule \/ p ∈ _logModules self))
    \/ p ∈ p_logger parsed ->
  level (theLogger (loggerRef p) (configured self parsed lg).2)
    = levelFor (p_verbose parsed).
Proof.
  intros Hv Hp. apply level_configured. rewrite configured_names by exact Hv.
  apply list_elem_of_fmap_2.
  destruct Hp as [[Hnone Hp] | Hp].
  - rewrite Hnone. cbn [length Nat.ltb Nat.leb]. apply elem_of_listOfSet.
    destruct Hp as [-> | Hp]; [apply list_elem_of_here | apply list_elem_of_further, Hp].
  - destruct (p_logger parsed) as [| x l]; [inversion Hp | exact Hp].
Qed.

Lemma named_loggers_get_the_level_witness :
  level (theLogger (loggerRef "libs")
           (configured sampleRoot (selecting 3 (Some "greet")) emptyLogging).2) = INFO.
Proof.
  apply (named_loggers_get_the_level sampleRoot (selecting 3 (Some "greet")) emptyLogging
           "libs").
  - cbn. lia.
  - left. split; [reflexivity |]. left. reflexivity.
Defined.

Lemma theLogger_configure_other (v : Z) (ls : list logger_ref) (r : logger_ref)
    (lg : Logging) :
  r ∉ ls -> theLogger r (configureLoggers v ls lg) = theLogger r lg.
Proof.
  revert lg. induction ls as [| r0 ls IH]; intros lg Hnot; [reflexivity |].
  apply not_elem_of_cons in Hnot as [Hne Hnot]. cbn [configureLoggers].
  assert (Hstep : theLogger r
            (addHandler r0 (StreamHandler (setLevel r0 (levelFor v) lg)).1
               (StreamHandler (setLevel r0 (levelFor v) lg)).2) = theLogger r lg).
  { unfold addHandler. destruct (bool_decide _).
    - rewrite theLogger_StreamHandler. unfold setLevel.
      apply theLogger_setLogger_ne, Hne.
    - rewrite theLogger_setLogger_ne by exact Hne.
      rewrite theLogger_StreamHandler. unfold setLevel.
      apply theLogger_setLogger_ne, Hne. }
  destruct (StreamHandler (setLevel r0 (levelFor v) lg)) as [h lg1].
  cbn [fst snd] in Hstep. rewrite IH by exact Hnot. exact Hstep.
Qed.

Lemma theLogger_remove_other (ls : list logger_ref) (r : logger_ref) (lg : Logging) :
  r ∉ ls -> theLogger r (removeHandlers ls lg).1 = theLogger r lg.
Proof.
  revert lg. induction ls as [| r0 ls IH]; intros lg Hnot; [reflexivity |].
  apply not_elem_of_cons in Hnot as [Hne Hnot]. cbn [removeHandlers].
  destruct (handlers (theLogger r0 lg)) as [| first rest]; [reflexivity |].
  rewrite IH by exact Hnot. unfold removeHandler.
  destruct (bool_decide _); [| reflexivity].
  apply theLogger_setLogger_ne, Hne.
Qed.

(** X9: a logger that is not among the selected ones comes out of [run]
    as it went in, level and handlers, however the run ends. *)
Theorem unselected_loggers_are_untouched (self : Command) (parsed : Parsed)
    (lg : Logging) (r : logger_ref) :
  r ∉ (configured self parsed lg).1 ->
  theLogger r (run self parsed lg).1.1 = theLogger r lg.
Proof.
  intros Hnot.
  assert (Hconf : theLogger r (configured self parsed lg).2 = theLogger r lg).
  { unfold configured in *.
    pose proof (proj1 (theLogger_selectLoggers self parsed r lg)) as Hsel.
    destruct (selectLoggers self parsed lg) as [loggers lg1]. cbn [fst snd] in *.
    rewrite theLogger_configure_other by exact Hnot. exact Hsel. }
  unfold run. destruct (configured self parsed lg) as [loggers lg1]. cbn [fst snd] in *.
  destruct (_runCommand self (runArgs parsed loggers)) as [ev [result | e]].
  - pose proof (theLogger_remove_other loggers r lg1 Hnot) as Hrm.
    destruct (removeHandlers loggers lg1) as [lg2 [u | e]]; cbn [fst] in *; congruence.
  - destruct e; exact Hconf.
Qed.

Lemma unselected_loggers_are_untouched_witness :
  theLogger (NamedLogger "libs")
    (run sampleRoot
       {| p_verbose := 4; p_logger := ["other"];
          p_attributes := {[ "_rootSubCommandName" := Some "greet" ]} |}
       withHandler).1.1
  = {| level := NOTSET; handlers := [7%nat] |}.
Proof.
  apply (unselected_loggers_are_untouched sampleRoot
           {| p_verbose := 4; p_logger := ["other"];
              p_attributes := {[ "_rootSubCommandName" := Some "greet" ]} |}
           withHandler (NamedLogger "libs")).
  vm_compute. intros H. apply list_elem_of_singleton in H. discriminate H.
Defined.

(** ** More on the reflow *)

(** X10: blank lines before the first line with text are dropped. *)
Theorem leading_blank_lines_are_dropped (blanks A : list text) :
  Forall (fun l => newline ∉ l) (blanks ++ A) ->
  Forall (fun l => strip l = []) blanks ->
  A <> [] ->
  descriptionParagraphs (join nl (blanks ++ A)) = descriptionParagraphs (join nl A).
Proof.
  intros Hnl Hblank Hne.
  rewrite (descriptionParagraphs_lines (blanks ++ A));
    [| destruct blanks, A; try discriminate; congruence | exact Hnl].
  rewrite (descriptionParagraphs_lines A);
    [| exact Hne | exact (Forall_app_r _ _ _ Hnl)].
  rewrite collectLines_app, (collectLines_blank blanks Hblank). reflexivity.
Qed.

Lemma leading_blank_lines_are_dropped_witness :
  descriptionParagraphs (join nl [txt ""; txt "   "; txt "  Lists the files."])
  = descriptionParagraphs (join nl [txt "  Lists the files."]).
Proof.
  apply (leading_blank_lines_are_dropped [txt ""; txt "   "] [txt "  Lists the files."]).
  - apply (bool_decide_unpack _). vm_compute. exact I.
  - repeat constructor.
  - discriminate.
Defined.

(** The first loop reads the lines through [strip] only. *)
Lemma collectLines_stripped (A B : list text) (lines : list text) :
  map strip A = map strip B -> collectLines A lines = collectLines B lines.
Proof.
  revert B lines. induction A as [| a A IH]; intros B lines Hmap.
  - destruct B; [reflexivity | discriminate].
  - destruct B as [| b B]; [discriminate |]. cbn [map] in Hmap.
    injection Hmap as Hab Hmap. cbn [collectLines]. rewrite Hab.
    destruct (_ && _); apply IH, Hmap.
Qed.

(** X11: the white space at the ends of the lines does not count: two
    texts whose lines are equal once stripped have the same paragraphs. *)
Theorem indentation_is_ignored (A B : list text) :
  Forall (fun l => newline ∉ l) A -> Forall (fun l => newline ∉ l) B ->
  A <> [] ->
  map strip A = map strip B ->
  descriptionParagraphs (join nl A) = descriptionParagraphs (join nl B).
Proof.
  intros HA HB Hne Hmap.
  assert (HneB : B <> []) by (destruct A, B; try discriminate; congruence).
  rewrite (descriptionParagraphs_lines A Hne HA), (descriptionParagraphs_lines B HneB HB).
  rewrite (collectLines_stripped A B [] Hmap). reflexivity.
Qed.

Lemma indentation_is_ignored_witness :
  descriptionParagraphs (join nl [txt "An example command"; txt "    "])
  = descriptionParagraphs (join nl [txt "  An example command  "; txt ""]).
Proof.
  apply (indentation_is_ignored [txt "An example command"; txt "    "]
           [txt "  An example command  "; txt ""]).
  - apply (bool_decide_unpack _). vm_compute. exact I.
  - apply (bool_decide_unpack _). vm_compute. exact I.
  - discriminate.
  - vm_compute. reflexivity.
Defined.

Lemma map_strip_nonblank (A : list text) :
  Forall (fun l => strip l <> []) A -> Forall (fun l => l <> []) (map strip A).
Proof. intros H. apply Forall_map. exact H. Qed.

(** X12: lines with text and no blank line among them are one paragraph,
    whatever blank lines follow: the line breaks are replaced by spaces
    before the text is wrapped, and the help text is the whole
    description. *)
Theorem unbroken_text_is_one_paragraph (A blanks : list text) :
  Forall (fun l => newline ∉ l) (A ++ blanks) ->
  A <> [] ->
  Forall (fun l => strip l <> []) A ->
  Forall (fun l => strip l = []) blanks ->
  descriptionParagraphs (join nl (A ++ blanks))
    = [join nl (_justifyLines (map strip A) 80)]
  /\ docHelp (join nl (A ++ blanks)) = Some (docDescription (join nl (A ++ blanks))).
Proof.
  intros Hnl Hne Htext Hblank.
  assert (Hpar : descriptionParagraphs (join nl (A ++ blanks))
                 = [join nl (_justifyLines (map strip A) 80)]).
  { rewrite (descriptionParagraphs_lines (A ++ blanks));
      [| destruct A; [congruence | discriminate] | exact Hnl].
    destruct A as [| a A]; [congruence |].
    apply Forall_cons in Htext as Htext'. destruct Htext' as [Ha _].
    change ((a :: A) ++ blanks) with ([a] ++ (A ++ blanks)).
    rewrite (collectLines_text_first (A ++ blanks) a Ha).
    rewrite map_app, (map_strip_blank blanks Hblank).
    change (strip a :: map strip A ++ repeat [] (length blanks))
      with (map strip (a :: A) ++ repeat [] (length blanks)).
    rewrite (group_text_run (map strip (a :: A)) [] 0 _ (map_strip_nonblank _ Htext)).
    cbn [app]. destruct (length blanks) as [| n].
    - reflexivity.
    - pose proof (group_blanks_close (map strip (a :: A)) (S n) [] ltac:(lia)) as Hclose.
      rewrite app_nil_r in Hclose. rewrite Hclose. reflexivity. }
  split; [exact Hpar |]. unfold docHelp, docDescription. rewrite Hpar. reflexivity.
Qed.

Lemma unbroken_text_is_one_paragraph_witness :
  descriptionParagraphs Command_doc
    = [join nl (_justifyLines
                  (map strip
                     [txt "A light wrapper for argparse commands that tries to reduce a bit of the";
                      txt "    duck typing and feature set to keep it basic and a bit more structured"])
                  80)]
  /\ docHelp Command_doc = Some (docDescription Command_doc).
Proof.
  apply (unbroken_text_is_one_paragraph
           [txt "A light wrapper for argparse commands that tries to reduce a bit of the";
            txt "    duck typing and feature set to keep it basic and a bit more structured"]
           [txt "    "]).
  - apply (bool_decide_unpack _). vm_compute. exact I.
  - discriminate.
  - repeat constructor; vm_compute; discriminate.
  - repeat constructor.
Defined.

(** ** The width of the lines *)

Lemma fill_line_concat (width : nat) (chunks cur_line : list text) (cur_len : nat) :
  (length (concat (fill_line width cur_line cur_len chunks).1.1) + cur_len
   = length (concat cur_line) + (fill_line width cur_line cur_len chunks).1.2)%nat.
Proof.
  revert cur_line cur_len. induction chunks as [| c chunks IH]; intros cur_line cur_len;
    cbn [fill_line]; [cbn; lia |].
  destruct (cur_len + length c <=? width)%nat; [| cbn; lia].
  specialize (IH (cur_line ++ [c]) (cur_len + length c)%nat).
  rewrite concat_app, length_app in IH. cbn [concat] in IH. rewrite app_nil_r in IH. lia.
Qed.

Lemma length_concat_removelast (l : list text) :
  (length (concat (removelast l)) <= length (concat l))%nat.
Proof.
  induction l as [| x l IH]; [cbn; lia |].
  destruct l as [| y l]; [cbn; lia |].
  change (removelast (x :: y :: l)) with (x :: removelast (y :: l)).
  rewrite !concat_cons, !length_app in *. lia.
Qed.

Lemma length_concat_drop_last_blank (l : list text) :
  (length (concat (drop_last_blank l)) <= length (concat l))%nat.
Proof.
  unfold drop_last_blank. destruct (last l) as [c |]; [| lia].
  destruct (blank c); [apply length_concat_removelast | lia].
Qed.

(** One turn of the loop adds a line of at most 80 characters, if any. *)
Lemma wrap_line_width (chunks lines : list text) :
  Forall (fun l => (length l <= 80)%nat) lines ->
  Forall (fun l => (length l <= 80)%nat) (wrap_line 80 chunks lines).2.
Proof.
  intros Hlines. unfold wrap_line.
  set (chunks1 := match chunks, lines with
                  | c :: rest, _ :: _ => if blank c then rest else chunks
                  | _, _ => chunks
                  end).
  destruct (fill_line_spec 80 chunks1 [] 0) as (taken & _ & _ & Hfit & _).
  specialize (Hfit ltac:(lia)).
  pose proof (fill_line_concat 80 chunks1 [] 0) as Hcat.
  destruct (fill_line 80 [] 0 chunks1) as [[cur_line cur_len] chunks2].
  cbn [fst snd concat length] in Hfit, Hcat.
  assert (Hgoal : forall (cur_line' chunks3 : list text),
             (length (concat cur_line') <= 80)%nat ->
             Forall (fun l => (length l <= 80)%nat)
               (match drop_last_blank cur_line' with
                | [] => (chunks3, lines)
                | _ :: _ => (chunks3, lines ++ [concat (drop_last_blank cur_line')])
                end).2).
  { intros cl ch Hlen. pose proof (length_concat_drop_last_blank cl) as Hdrop.
    destruct (drop_last_blank cl); cbn [snd]; [exact Hlines |].
    apply Forall_app; split; [exact Hlines |]. constructor; [lia | constructor]. }
  destruct chunks2 as [| c rest]; [apply Hgoal; lia |].
  destruct (80 <? length c)%nat eqn:Hlong; [| apply Hgoal; lia].
  apply Nat.ltb_lt in Hlong.
  destruct (_handle_long_word_split c cur_len 80) as (stop & -> & Hroom & _);
    [lia | exact Hfit | exact Hlong |].
  apply Hgoal. rewrite concat_app, length_app. cbn [concat]. rewrite app_nil_r.
  rewrite length_take. lia.
Qed.

Lemma wrap_loop_width (fuel : nat) (chunks lines : list text) :
  Forall (fun l => (length l <= 80)%nat) lines ->
  Forall (fun l => (length l <= 80)%nat) (wrap_loop fuel 80 chunks lines).
Proof.
  revert chunks lines. induction fuel as [| fuel IH]; intros chunks lines Hlines.
  - destruct chunks; exact Hlines.
  - destruct chunks as [| c chunks]; [exact Hlines |]. cbn [wrap_loop].
    pose proof (wrap_line_width (c :: chunks) lines Hlines) as Hstep.
    destruct (wrap_line 80 (c :: chunks) lines) as [chunks' lines'].
    apply IH. exact Hstep.
Qed.

(** X13: the lines [_justifyLines] returns are at most 80 characters
    long, whatever the lines it is given and whatever [columns] is. *)
Theorem justified_lines_fit (lines : list text) (columns : nat) :
  Forall (fun l => (length l <= 80)%nat) (_justifyLines lines columns).
Proof.
  unfold _justifyLines, wrap, _wrap_chunks. apply wrap_loop_width. constructor.
Qed.

(** ** The lines of the description *)

Lemma munge_no_newline (s : text) : Forall (fun c => c <> newline) (_munge_whitespace s).
Proof.
  unfold _munge_whitespace. apply Forall_map, Forall_forall. intros c _. cbn beta.
  destruct (tw_whitespace c) eqn:Hc; [discriminate |].
  intros ->. vm_compute in Hc. discriminate Hc.
Qed.

Lemma Forall_removelast {A} (Q : A -> Prop) (l : list A) :
  Forall Q l -> Forall Q (removelast l).
Proof.
  induction 1 as [| x l Hx Hl IH]; [constructor |].
  destruct l as [| y l]; [constructor |].
  change (removelast (x :: y :: l)) with (x :: removelast (y :: l)).
  constructor; assumption.
Qed.

Lemma Forall_drop_last_blank (Q : text -> Prop) (l : list text) :
  Forall Q l -> Forall Q (drop_last_blank l).
Proof.
  intros H. unfold drop_last_blank. destruct (last l) as [c |]; [| exact H].
  destruct (blank c); [apply Forall_removelast, H | exact H].
Qed.

Lemma _handle_long_word_shape (chunk : text) (cur_len width : nat) :
  exists stop, _handle_long_word chunk cur_len width = (take stop chunk, drop stop chunk).
Proof. unfold _handle_long_word. eexists. reflexivity. Qed.

Section Characters.

Variable P : ascii -> Prop.

(** One turn of the loop makes its line of characters of the chunks. *)
Lemma wrap_line_chars (chunks lines : list text) :
  Forall (Forall P) chunks -> Forall (Forall P) lines ->
  Forall (Forall P) (wrap_line 80 chunks lines).1
  /\ Forall (Forall P) (wrap_line 80 chunks lines).2.
Proof.
  intros Hchunks Hlines. unfold wrap_line.
  assert (H1 : Forall (Forall P)
                 (match chunks, lines with
                  | c :: rest, _ :: _ => if blank c then rest else chunks
                  | _, _ => chunks
                  end)).
  { destruct chunks as [| c rest]; [constructor |].
    destruct lines; [exact Hchunks |].
    destruct (blank c); [| exact Hchunks].
    apply Forall_cons in Hchunks as [_ H]. exact H. }
  revert H1. generalize (match chunks, lines with
                         | c :: rest, _ :: _ => if blank c then rest else chunks
                         | _, _ => chunks
                         end) as chunks1.
  intros chunks1 H1.
  destruct (fill_line_taken 80 chunks1 [] 0) as (taken & Hsplit & Hline).
  destruct (fill_line 80 [] 0 chunks1) as [[cur_line cur_len] chunks2].
  cbn [fst snd app] in Hsplit, Hline. subst cur_line.
  rewrite Hsplit in H1. apply Forall_app in H1 as [Htaken H2].
  assert (Hgoal : forall (cur_line' chunks3 : list text),
             Forall (Forall P) cur_line' -> Forall (Forall P) chunks3 ->
             Forall (Forall P)
               (match drop_last_blank cur_line' with
                | [] => (chunks3, lines)
                | _ :: _ => (chunks3, lines ++ [concat (drop_last_blank cur_line')])
                end).1
             /\ Forall (Forall P)
                  (match drop_last_blank cur_line' with
                   | [] => (chunks3, lines)
                   | _ :: _ => (chunks3, lines ++ [concat (drop_last_blank cur_line')])
                   end).2).
  { intros cl ch Hcl Hch.
    pose proof (Forall_drop_last_blank _ cl Hcl) as Hdrop.
    destruct (drop_last_blank cl) as [| x l] eqn:Hd; cbn [fst snd];
      (split; [exact Hch |]); [exact Hlines |].
    apply Forall_app; split; [exact Hlines |].
    constructor; [| constructor]. apply Forall_concat. exact Hdrop. }
  destruct chunks2 as [| c rest]; [apply Hgoal; assumption |].
  destruct (80 <? length c)%nat; [| apply Hgoal; assumption].
  apply Forall_cons in H2 as [Hc Hrest].
  destruct (_handle_long_word_shape c cur_len 80) as (stop & ->).
  apply Hgoal.
  - apply Forall_app; split; [exact Htaken |].
    constructor; [apply Forall_take, Hc | constructor].
  - constructor; [apply Forall_drop, Hc | exact Hrest].
Qed.

Lemma wrap_loop_chars (fuel : nat) (chunks lines : list text) :
  Forall (Forall P) chunks -> Forall (Forall P) lines ->
  Forall (Forall P) (wrap_loop fuel 80 chunks lines).
Proof.
  revert chunks lines. induction fuel as [| fuel IH]; intros chunks lines Hc Hl.
  - destruct chunks; exact Hl.
  - destruct chunks as [| c chunks]; [exact Hl |]. cbn [wrap_loop].
    destruct (wrap_line_chars (c :: chunks) lines Hc Hl) as [Hc' Hl'].
    destruct (wrap_line 80 (c :: chunks) lines) as [chunks' lines'].
    apply IH; assumption.
Qed.

End Characters.

(** The wrapped lines hold no line feed. *)
Lemma wrap_no_newline (s : text) : Forall (fun l => newline ∉ l) (wrap s 80).
Proof.
  pose proof (wrap_loop_chars (fun c => c <> newline)
                (length (concat (_split (_munge_whitespace s))))
                (_split (_munge_whitespace s)) []) as H.
  assert (Hchunks : Forall (Forall (fun c => c <> newline)) (_split (_munge_whitespace s))).
  { apply Forall_concat. unfold _split. rewrite split_from_concat. cbn [rev app].
    apply munge_no_newline. }
  specialize (H Hchunks ltac:(constructor)).
  unfold wrap, _wrap_chunks. eapply Forall_impl; [exact H |].
  intros l Hl Hin. rewrite Forall_forall in Hl. exact (Hl newline Hin eq_refl).
Qed.


Lemma join_splitLines (L : list text) : join nl (splitLines L) = join nl L.
Proof. destruct L; reflexivity. Qed.

(** Splitting joined paragraphs, themselves joined lines. *)
Lemma split_joined_paragraphs (LL : list (list text)) :
  LL <> [] -> Forall (Forall (fun l => newline ∉ l)) LL ->
  split newline (join nl (map (join nl) LL)) = concat (map splitLines LL).
Proof.
  intros Hne Hall.
  rewrite <- (map_ext _ _ join_splitLines), <- map_map.
  rewrite join_join.
  - apply split_join.
    + destruct LL as [| L LL]; [congruence |]. cbn [map concat].
      destruct L; discriminate.
    + apply Forall_concat, Forall_map. eapply Forall_impl; [exact Hall |].
      intros L HL. destruct L as [| x L]; [| exact HL].
      constructor; [intros H; inversion H | constructor].
  - apply Forall_map, Forall_forall. intros L _. destruct L; discriminate.
Qed.

Lemma renderedLines_no_newline (p : list text) :
  Forall (fun l => newline ∉ l) (renderedLines p).
Proof.
  destruct p as [| l p].
  - constructor; [| constructor]. intros H. apply list_elem_of_singleton in H. discriminate H.
  - apply wrap_no_newline.
Qed.

Lemma renderedLines_fit (p : list text) :
  Forall (fun l => (length l <= 80)%nat) (splitLines (renderedLines p)).
Proof.
  destruct p as [| l p].
  - constructor; [cbn; lia | constructor].
  - cbn [renderedLines].
    pose proof (wrap_loop_width (length (concat (_split (_munge_whitespace
                  (join [space] (l :: p))))))
                  (_split (_munge_whitespace (join [space] (l :: p)))) []
                  ltac:(constructor)) as H.
    change (Forall (fun l0 => (length l0 <= 80)%nat) (_justifyLines (l :: p) 80)) in H.
    destruct (_justifyLines (l :: p) 80); [constructor; [cbn; lia | constructor] | exact H].
Qed.

(** X14: whatever the docstring, no line of the description derived from
    it, and no line of the help text, is longer than 80 characters. *)
Theorem description_lines_fit (doc : text) :
  Forall (fun l => (length l <= 80)%nat) (split newline (docDescription doc))
  /\ forall h : text,
       docHelp doc = Some h ->
       Forall (fun l => (length l <= 80)%nat) (split newline h).
Proof.
  unfold docDescription, docHelp, descriptionParagraphs.
  set (P := groupParagraphs (collectLines (split newline doc) [])).
  split.
  - assert (HP : P <> []).
    { pose proof (descriptionParagraphs_nonempty doc) as H.
      unfold descriptionParagraphs in H. fold P in H. destruct P; [| discriminate].
      exfalso. apply H. reflexivity. }
    rewrite (map_ext _ _ renderParagraph_lines), <- map_map.
    rewrite split_joined_paragraphs.
    + apply Forall_concat, Forall_map, Forall_map, Forall_forall.
      intros p _. apply renderedLines_fit.
    + destruct P; [congruence | discriminate].
    + apply Forall_map, Forall_forall. intros p _. apply renderedLines_no_newline.
  - intros h Hh. destruct P as [| p P]; [discriminate |]. cbn [map head] in Hh.
    injection Hh as <-. rewrite renderParagraph_lines, <- join_splitLines.
    rewrite split_join.
    + apply renderedLines_fit.
    + destruct (renderedLines p); discriminate.
    + pose proof (renderedLines_no_newline p) as H.
      destruct (renderedLines p) as [| x L]; [| exact H].
      constructor; [intros Hin; inversion Hin | constructor].
Qed.

(** ** Whole runs *)

(** What the constructor stores. *)
Lemma init_fields (doc : option text) (moduleLocation : string)
    (handler : Namespace -> list event * outcome (option Z)) (name : string)
    (help description : option text) (subCommands : option (list Command))
    (lg lg' : Logging) (c : Command) :
  __init__ doc moduleLocation handler name help description subCommands lg
    = (lg', Returned c) ->
  lg' = (getLogger moduleLocation lg).2
  /\ _name c = name /\ runCommand c = handler
  /\ _subCommands c = default [] subCommands
  /\ cmd_logger c = moduleLocation.
Proof.
  unfold __init__.
  destruct (match help, description with
            | Some h, Some d => Returned (h, d)
            | _, _ => _
            end) as [[h d] | e]; [| discriminate].
  destruct (getLogger moduleLocation lg) as [r lg1].
  intros [= <- <-]. repeat split; reflexivity.
Qed.

Lemma wfLogging_getLogger (name : string) (lg : Logging) :
  wfLogging lg -> wfLogging (getLogger name lg).2.
Proof.
  intros Hwf r. rewrite theLogger_getLogger, handlerCount_getLogger. apply Hwf.
Qed.

(** A command without sub-commands that handles nothing, run as the root:
    the status is 0 and every logger keeps its handlers. *)
Lemma idle_root_run (c : Command) (parsed : Parsed) (lg : Logging) :
  wfLogging lg ->
  runCommand c = defaultRunCommand -> _subCommands c = [] ->
  exists lg',
    run c parsed lg
      = (lg',
         opening c ++ [Log (cmd_logger c) DEBUG
                         "Command not handled ourselves, and no sub-commands available"],
         Returned 0%Z)
    /\ forall r, length (handlers (theLogger r lg')) = length (handlers (theLogger r lg)).
Proof.
  intros Hwf Hrun Hsubs.
  assert (Hwalk : forall args,
            _runCommand c args
            = (opening c ++ [Log (cmd_logger c) DEBUG
                 "Command not handled ourselves, and no sub-commands available"],
               Returned 0%Z)).
  { intros args. destruct c as [name h d subs log mods handler].
    cbn [runCommand _subCommands] in Hrun, Hsubs. subst handler subs. reflexivity. }
  destruct (run_returning c parsed lg _ 0%Z Hwf (Hwalk _)) as (lg' & Heq & Hall).
  exists lg'. split; [exact Heq |].
  intros r. destruct (Hall r) as [(new & ->) _].
  rewrite length_drop, length_app. lia.
Qed.

(** X15: [main] of [libs/main.py], on a well-formed registry and whatever
    was parsed, returns 0.  Its whole trace is the call of the handler of
    the root command between two debug records handed to the logger
    [libs.command.command]: nothing is printed on the standard output.
    Every logger is left with as many handlers as it had. *)
Theorem main_returns_success (parsed : Parsed) (lg : Logging) :
  wfLogging lg ->
  (main parsed lg).2 = Returned 0%Z
  /\ (main parsed lg).1.2
     = [Log "libs.command.command" DEBUG "Letting this command ('root') have a go";
        RunCommand "root";
        Log "libs.command.command" DEBUG
          "Command not handled ourselves, and no sub-commands available"]
  /\ forall r, length (handlers (theLogger r (main parsed lg).1.1))
               = length (handlers (theLogger r lg)).
Proof.
  intros Hwf. unfold main.
  destruct (__init__ (Some Command_doc) "libs.command.command" defaultRunCommand "root"
              (Some (txt "The root command")) None (Some []) lg) as [lg1 [c | e]] eqn:Hinit.
  - destruct (init_fields _ _ _ _ _ _ _ _ _ _ Hinit) as (-> & Hname & Hrun & Hsubs & Hlog).
    destruct (idle_root_run c parsed _ (wfLogging_getLogger "libs.command.command" lg Hwf) Hrun Hsubs)
      as (lg' & -> & Hlen).
    cbn [fst snd]. split; [reflexivity |]. split.
    + unfold opening. rewrite Hname, Hlog. reflexivity.
    + intros r. rewrite Hlen, theLogger_getLogger. reflexivity.
  - exfalso. unfold __init__, docHelp in Hinit.
    destruct (getLogger "libs.command.command" lg). discriminate Hinit.
Qed.

Lemma main_returns_success_witness :
  (main (selecting 4 None) emptyLogging).2 = Returned 0%Z
  /\ (main (selecting 4 None) emptyLogging).1.2
     = [Log "libs.command.command" DEBUG "Letting this command ('root') have a go";
        RunCommand "root";
        Log "libs.command.command" DEBUG
          "Command not handled ourselves, and no sub-commands available"]
  /\ length (handlers (theLogger (NamedLogger "libs")
                         (main (selecting 4 None) emptyLogging).1.1))
     = length (handlers (theLogger (NamedLogger "libs") emptyLogging)).
Proof.
  destruct (main_returns_success (selecting 4 None) emptyLogging wfLogging_empty)
    as (Hstatus & Htrace & Hlen).
  split; [exact Hstatus |]. split; [exact Htrace | apply Hlen].
Defined.

Lemma filter_foreign (ns : string) (eps : list Package.EntryPoint) :
  Forall (fun e => Package.ep_group e <> ns) eps ->
  List.filter (fun e => String.eqb (Package.ep_group e) ns) eps = [].
Proof.
  induction 1 as [| e eps He _ IH]; [reflexivity |].
  cbn [List.filter]. apply String.eqb_neq in He. rewrite He. exact IH.
Qed.

(** X16: with no entry point registered under the namespace, whatever is
    registered under other namespaces and whichever modules can be
    imported, the run of the loader is the run of a root command named
    [root] that is built without sub-commands, with the description the
    loader gives it.  On a well-formed registry its whole trace is the
    call of the handler of that command between two debug records, and
    the status is 0. *)
Theorem no_plugins_succeeds (ns : string) (eps : list Package.EntryPoint)
    (modules : string -> option Package.PyModule) (parsed : Parsed) (lg : Logging) :
  wfLogging lg ->
  Forall (fun e => Package.ep_group e <> ns) eps ->
  exists rootCommand : Command,
    __init__ (Some Command_doc) "libs.command.command" defaultRunCommand "root"
      (Some (txt "The root command"))
      (Some (txt "This command has been auto-generated.")) (Some []) lg
      = ((getLogger "libs.command.command" lg).2, Returned rootCommand)
    /\ _name rootCommand = "root"
    /\ _subCommands rootCommand = []
    /\ Package.run ns eps modules parsed lg
       = run rootCommand parsed (getLogger "libs.command.command" lg).2
    /\ (Package.run ns eps modules parsed lg).1.2
       = [Log "libs.command.command" DEBUG "Letting this command ('root') have a go";
          RunCommand "root";
          Log "libs.command.command" DEBUG
            "Command not handled ourselves, and no sub-commands available"]
    /\ (Package.run ns eps modules parsed lg).2 = Returned 0%Z.
Proof.
  intros Hwf Hforeign. unfold Package.run. rewrite (filter_foreign ns eps Hforeign).
  cbn [Package.loadEntryPoints].
  destruct (__init__ (Some Command_doc) "libs.command.command" defaultRunCommand "root"
              (Some (txt "The root command"))
              (Some (txt "This command has been auto-generated.")) (Some []) lg)
    as [lg1 [c | e]] eqn:Hinit.
  - destruct (init_fields _ _ _ _ _ _ _ _ _ _ Hinit) as (-> & Hname & Hrun & Hsubs & Hlog).
    destruct (idle_root_run c parsed _ (wfLogging_getLogger "libs.command.command" lg Hwf) Hrun Hsubs)
      as (lg' & Heq & _).
    exists c. split; [reflexivity |]. split; [exact Hname |]. split; [exact Hsubs |].
    rewrite Heq. cbn [fst snd app]. split; [reflexivity |]. split; [| reflexivity].
    unfold opening. rewrite Hname, Hlog. reflexivity.
  - exfalso. unfold __init__ in Hinit.
    destruct (getLogger "libs.command.command" lg). discriminate Hinit.
Qed.

Lemma no_plugins_succeeds_witness :
  (Package.run "other.commands" [lostEntryPoint] noModules (selecting 0 None)
     emptyLogging).1.2
    = [Log "libs.command.command" DEBUG "Letting this command ('root') have a go";
       RunCommand "root";
       Log "libs.command.command" DEBUG
         "Command not handled ourselves, and no sub-commands available"]
  /\ (Package.run "other.commands" [lostEntryPoint] noModules (selecting 0 None)
        emptyLogging).2 = Returned 0%Z.
Proof.
  destruct (no_plugins_succeeds "other.commands" [lostEntryPoint] noModules
              (selecting 0 None) emptyLogging wfLogging_empty)
    as (c & _ & _ & _ & _ & Htrace & Hstatus).
  - repeat constructor. discriminate.
  - split; [exact Htrace | exact Hstatus].
Defined.

(** The loop over the entry points, past those that load. *)
Lemma loadEntryPoints_app (modules : string -> option Package.PyModule)
    (pre rest : list Package.EntryPoint) (subs subs1 : list Command)
    (lg lg1 : Logging) (ev1 : list event) :
  Package.loadEntryPoints modules pre subs lg = (lg1, ev1, Returned (Package.Loaded subs1)) ->
  ev1 = []
  /\ Package.loadEntryPoints modules (pre ++ rest) subs lg
     = Package.loadEntryPoints modules rest subs1 lg1.
Proof.
  revert subs lg. induction pre as [| e pre IH]; intros subs lg.
  - cbn [Package.loadEntryPoints app]. intros [= <- <- <-]. split; reflexivity.
  - cbn [Package.loadEntryPoints app].
    destruct (split ":"%char (txt (Package.ep_value e))) as [| a [| b [| x l]]];
      try discriminate.
    destruct (Package.import_module modules (string_of_list_ascii a)) as [m | err];
      [| discriminate].
    destruct (m (string_of_list_ascii b)) as [[cls |] |]; try discriminate.
    destruct (cls lg) as [lg2 [c | err]]; [| discriminate].
    apply IH.
Qed.

(** X17: an entry point of the namespace that fails one of the three
    checks (a value that is not [module:Class], a class the module does
    not have, a class that is [None]) ends the run with -1 and one error
    written in red, after any entry points that loaded: the commands built
    so far are dropped and no root command is run. *)
Theorem failed_check_aborts (ns : string) (eps pre rest : list Package.EntryPoint)
    (e : Package.EntryPoint) (modules : string -> option Package.PyModule)
    (parsed : Parsed) (lg lg1 : Logging) (ev1 : list event) (subs1 : list Command) :
  List.filter (fun x => String.eqb (Package.ep_group x) ns) eps = pre ++ e :: rest ->
  Package.loadEntryPoints modules pre [] lg = (lg1, ev1, Returned (Package.Loaded subs1)) ->
  (length (split ":"%char (txt (Package.ep_value e))) <> 2%nat
   \/ exists module_ class_ m,
        split ":"%char (txt (Package.ep_value e)) = [module_; class_]
        /\ modules (string_of_list_ascii module_) = Some m
        /\ (m (string_of_list_ascii class_) = None
            \/ m (string_of_list_ascii class_) = Some None)) ->
  exists msg : string,
    Package.run ns eps modules parsed lg = (lg1, io_error msg, Returned (-1)%Z).
Proof.
  intros Hfilter Hpre Hbad. unfold Package.run. rewrite Hfilter.
  destruct (loadEntryPoints_app modules pre (e :: rest) [] subs1 lg lg1 ev1 Hpre) as [_ ->].
  destruct (checked_registrations_abort modules e rest subs1 lg1 Hbad) as [msg ->].
  exists msg. reflexivity.
Qed.

Lemma failed_check_aborts_witness :
  exists (lg1 : Logging) (msg : string),
    Package.run "pyer.commands" [exampleEntryPoint; malformedEntryPoint] exampleModules
      (selecting 0 None) emptyLogging
    = (lg1, io_error msg, Returned (-1)%Z).
Proof.
  eexists.
  eapply (failed_check_aborts "pyer.commands" [exampleEntryPoint; malformedEntryPoint]
            [exampleEntryPoint] [] malformedEntryPoint exampleModules (selecting 0 None)
            emptyLogging).
  - reflexivity.
  - vm_compute. reflexivity.
  - left. vm_compute. lia.
Defined.

(** ** The example plugin *)

(** The example command, built. *)
Lemma ExampleCommand_built (lg : Logging) :
  exists c : Command,
    ExampleCommand lg = ((getLogger "libs.example.__cmd__" lg).2, Returned c)
    /\ _name c = "example" /\ runCommand c = exampleRunCommand
    /\ _subCommands c = [] /\ cmd_logger c = "libs.example.__cmd__"
    /\ _help c = txt "An example command"
    /\ _description c = txt "An example command".
Proof.
  unfold ExampleCommand, __init__.
  assert (Hhelp : docHelp ExampleCommand_doc = Some (txt "An example command"))
    by (vm_compute; reflexivity).
  assert (Hdesc : docDescription ExampleCommand_doc = txt "An example command")
    by (vm_compute; reflexivity).
  rewrite Hhelp, Hdesc. destruct (getLogger "libs.example.__cmd__" lg) as [r lg1].
  eexists. split; [reflexivity |]. repeat split; reflexivity.
Qed.

(** X18: the example command as a plugin.  When its entry point is the
    one registered, its module can be imported and the command line
    selects [example] with a value for [--test], the run prints that value
    and returns 0. *)
Theorem example_plugin_runs (modules : string -> option Package.PyModule)
    (m : Package.PyModule) (parsed : Parsed) (lg : Logging) (v : option string) :
  wfLogging lg ->
  modules "libs.example.__cmd__" = Some m ->
  m "ExampleCommand" = Some (Some ExampleCommand) ->
  p_attributes parsed !! "_rootSubCommandName" = Some (Some "example") ->
  p_attributes parsed !! "test" = Some v ->
  (package_main [exampleEntryPoint] modules parsed lg).2 = Returned 0%Z
  /\ Stdout (("Got argument value '" +:+ showAttribute v +:+ "'") +:+ String newline "")
       ∈ (package_main [exampleEntryPoint] modules parsed lg).1.2.
Proof.
  intros Hwf Hmod Hcls Hsel Htest.
  unfold package_main, Package.run.
  change (List.filter _ [exampleEntryPoint]) with [exampleEntryPoint].
  cbn [Package.loadEntryPoints].
  assert (Hsplit : split ":"%char (txt (Package.ep_value exampleEntryPoint))
                   = [txt "libs.example.__cmd__"; txt "ExampleCommand"])
    by (vm_compute; reflexivity).
  rewrite Hsplit.
  change (string_of_list_ascii (txt "libs.example.__cmd__")) with "libs.example.__cmd__".
  change (string_of_list_ascii (txt "ExampleCommand")) with "ExampleCommand".
  unfold Package.import_module. rewrite Hmod, Hcls.
  destruct (ExampleCommand_built lg)
    as (c & -> & Hname & Hrun & Hsubs & Hlog & _ & _).
  set (lg1 := (getLogger "libs.example.__cmd__" lg).2).
  assert (Hwf1 : wfLogging lg1) by apply wfLogging_getLogger, Hwf.
  cbn [app].
  destruct (__init__ (Some Command_doc) "libs.command.command" defaultRunCommand "root"
              (Some (txt "The root command"))
              (Some (txt "This command has been auto-generated.")) (Some [c]) lg1)
    as [lg2 [root | e]] eqn:Hinit;
    [| exfalso; unfold __init__ in Hinit;
       destruct (getLogger "libs.command.command" lg1); discriminate Hinit].
  destruct (init_fields _ _ _ _ _ _ _ _ _ _ Hinit)
    as (-> & Hrname & Hrrun & Hrsubs & Hrlog).
  set (lg2 := (getLogger "libs.command.command" lg1).2).
  assert (Hwf2 : wfLogging lg2) by apply wfLogging_getLogger, Hwf1.
  set (args := runArgs parsed (configured root parsed lg2).1).
  assert (Hchild : _runCommand c args
            = (opening c
                 ++ io_print ("Got argument value '" ++ showAttribute v ++ "'")
                 ++ [Log (cmd_logger c) DEBUG ("Command handled (" ++ pretty 0%Z ++ ")")],
               Returned 0%Z)).
  { destruct c as [name h d subs log mods handler].
    cbn [runCommand _name cmd_logger] in *. subst handler.
    cbn [_runCommand]. unfold exampleRunCommand, getattr, args, runArgs.
    cbn [attributes]. rewrite Htest. reflexivity. }
  assert (Hwalk : _runCommand root args
            = (opening root ++ []
                 ++ [Log (cmd_logger root) DEBUG
                       ("Sub-command '" ++ "example" ++ "' invoked, finding it...");
                     Log (cmd_logger root) DEBUG "Found sub-command"]
                 ++ opening c
                 ++ io_print ("Got argument value '" ++ showAttribute v ++ "'")
                 ++ [Log (cmd_logger c) DEBUG ("Command handled (" ++ pretty 0%Z ++ ")")],
               Returned 0%Z)).
  { apply (selected_child_decides root c args [] _ [] [] "example").
    - rewrite Hrrun. reflexivity.
    - rewrite Hrsubs. reflexivity.
    - constructor.
    - exact Hname.
    - discriminate.
    - unfold getattr, selectionKey, args, runArgs. cbn [attributes].
      rewrite Hrname. change ("_" +:+ "root" +:+ "SubCommandName") with "_rootSubCommandName".
      rewrite Hsel. reflexivity.
    - exact Hchild. }
  destruct (run_returning root parsed lg2 _ 0%Z Hwf2 Hwalk) as (lg' & -> & _).
  cbn [fst snd]. split; [reflexivity |].
  rewrite !elem_of_app. right. right. right. right. left.
  unfold io_print. apply list_elem_of_here.
Qed.

Lemma example_plugin_runs_witness :
  (package_main [exampleEntryPoint] exampleModules
     {| p_verbose := 0; p_logger := [];
        p_attributes := {[ "_rootSubCommandName" := Some "example";
                           "test" := Some "7" ]} |}
     emptyLogging).2 = Returned 0%Z
  /\ Stdout (("Got argument value '" +:+ "7" +:+ "'") +:+ String newline "")
       ∈ (package_main [exampleEntryPoint] exampleModules
            {| p_verbose := 0; p_logger := [];
               p_attributes := {[ "_rootSubCommandName" := Some "example";
                                  "test" := Some "7" ]} |}
            emptyLogging).1.2.
Proof.
  eapply (example_plugin_runs exampleModules _ _ emptyLogging (Some "7") wfLogging_empty).
  - reflexivity.
  - reflexivity.
  - vm_compute. reflexivity.
  - vm_compute. reflexivity.
Defined.

(** ** Construction from a docstring *)

(** X19: a class with a docstring can always be constructed.  Whatever the
    docstring and whichever of the help text and the description are
    given, the constructor returns: the first reflowed paragraph it may
    index always exists.  The texts given are kept, the missing ones are
    the first paragraph and the whole rendering of the docstring. *)
Theorem docstring_construction_returns (doc : text) (moduleLocation : string)
    (handler : Namespace -> list event * outcome (option Z)) (name : string)
    (help description : option text) (subCommands : option (list Command))
    (lg : Logging) :
  exists c : Command,
    __init__ (Some doc) moduleLocation handler name help description subCommands lg
      = ((getLogger moduleLocation lg).2, Returned c)
    /\ Some (_help c) = match help with Some h => Some h | None => docHelp doc end
    /\ _description c = default (docDescription doc) description
    /\ _subCommands c = default [] subCommands.
Proof.
  unfold __init__, docHelp.
  pose proof (descriptionParagraphs_nonempty doc) as Hne.
  destruct (descriptionParagraphs doc) as [| h t] eqn:Hd; [congruence |].
  cbn [head]. destruct (getLogger moduleLocation lg) as [r lg'].
  destruct help as [h0 |], description as [d0 |];
    (eexists; split; [reflexivity |]; repeat split; reflexivity).
Qed.
